(** * cly: event distribution engine

    A shallow embedding of the server side of the repository:

    - [RiskEngine]       (risk scoring, IEEE binary64 arithmetic),
    - [EventNormalizer]  (raw provider transaction -> NormalizedEvent),
    - [EventBroadcaster] (client registry, broadcast queue, delivery sweep),

    followed by the properties established about them. *)

From Stdlib Require Import PrimFloat ZArith Lia Sorted.
From stdpp Require Import base option list strings pretty.

Set Warnings "-inexact-float,-register-all".
Set Default Goal Selector "!".

Local Open Scope string_scope.

(* ===================================================================== *)
(** * Part I: the programs                                                *)
(* ===================================================================== *)

(** ** JavaScript helpers shared by the three components *)

Module Js.

(** A string of the programs is represented by its UTF-8 encoding. *)

(** The lower case of an ASCII character. *)
Definition lower_ascii (c : Ascii.ascii) : Ascii.ascii :=
  let n := Ascii.nat_of_ascii c in
  if (65 <=? n)%nat && (n <=? 90)%nat then Ascii.ascii_of_nat (n + 32) else c.

Definition is_byte (n : nat) (c : Ascii.ascii) : bool :=
  (Ascii.nat_of_ascii c =? n)%nat.

(** The lower case of U+0130, the capital I with a dot above: [i]
    followed by the combining dot above, U+0307. *)
Definition dotted_i : string :=
  "i" ++ String (Ascii.ascii_of_nat 204) (String (Ascii.ascii_of_nat 135) "").

(** [String.prototype.toLowerCase] on the characters whose lower case
    has an ASCII character in it: the letters A to Z, the Kelvin sign
    U+212A (the bytes E2 84 AA), whose lower case is [k], and U+0130
    (the bytes C4 B0). Every other character outside ASCII has a lower
    case outside ASCII and is left as it is, so the result has the ASCII
    characters of the code's result at the places where that has them:
    it is an ASCII literal exactly when the code's result is. *)
Fixpoint toLowerCase (s : string) : string :=
  match s with
  | EmptyString => EmptyString
  | String c s1 =>
      let other := String (lower_ascii c) (toLowerCase s1) in
      match s1 with
      | EmptyString => other
      | String c2 s2 =>
          if is_byte 196 c && is_byte 176 c2 then dotted_i ++ toLowerCase s2
          else
            match s2 with
            | EmptyString => other
            | String c3 s3 =>
                if is_byte 226 c && is_byte 132 c2 && is_byte 170 c3
                then "k" ++ toLowerCase s3
                else other
            end
      end
  end.

(** [String.prototype.includes]. *)
Fixpoint includes (s needle : string) : bool :=
  String.prefix needle s ||
  match s with
  | EmptyString => false
  | String _ s' => includes s' needle
  end.

(** Truthiness of a string: only the empty string is falsy. *)
Definition truthy_string (s : string) : bool :=
  match s with EmptyString => false | _ => true end.

(** [a || b] where [a] is an optional string ([undefined] and the empty
    string are falsy) and [b] a string. *)
Definition or_string (a : option string) (b : string) : string :=
  match a with
  | Some s => if truthy_string s then s else b
  | None => b
  end.

(** [n || d] on integers: 0 is falsy. *)
Definition or_Z (n : option Z) (d : Z) : Z :=
  match n with
  | Some v => if (v =? 0)%Z then d else v
  | None => d
  end.

(** *** Completions *)

(** The outcome of evaluating code that may throw. The one exception the
    programs can raise on the values modelled here is the [TypeError] of
    a call of something that is no function, or of a conversion to a
    primitive that finds none. *)
Inductive Completion (A : Type) : Type :=
| Returns (a : A)
| ThrowsTypeError.

Arguments Returns {A} a.
Arguments ThrowsTypeError {A}.

#[global] Instance Completion_ret : MRet Completion := @Returns.

#[global] Instance Completion_bind : MBind Completion :=
  fun A B (f : A -> Completion B) (m : Completion A) =>
    match m with
    | Returns a => f a
    | ThrowsTypeError => ThrowsTypeError
    end.

#[global] Instance Completion_fmap : FMap Completion :=
  fun A B (f : A -> B) (m : Completion A) =>
    match m with
    | Returns a => Returns (f a)
    | ThrowsTypeError => ThrowsTypeError
    end.

(** *** Numbers as strings *)

(** The Number nearest to the integer [n >= 0]: [n] itself when it has at
    most 53 significant bits, else [n] rounded to 53 significant bits,
    ties to the even significand. *)
Definition nearestNumber (n : Z) : Z :=
  let e := (Z.log2 n - 52)%Z in
  if (e <=? 0)%Z then n else
  let q := (n / 2 ^ e)%Z in
  let r := (n mod 2 ^ e)%Z in
  let half := (2 ^ (e - 1))%Z in
  let q' := if (r <? half)%Z then q
            else if (half <? r)%Z then (q + 1)%Z
            else if Z.even q then q else (q + 1)%Z in
  (q' * 2 ^ e)%Z.

Definition decimalDigits (n : Z) : Z := Z.of_nat (String.length (pretty n)).

(** The pairs [(s, j)] with [s] of [k] digits whose value [s * 10 ^ j] has
    [x] as its Number value, [x] having [digits] decimal digits; of the
    multiples of [10 ^ j] only the two around [x] can be the closest. *)
Definition candidates (x digits k : Z) : list (Z * Z) :=
  flat_map
    (fun n =>
       let j := (n - k)%Z in
       if (j <? 0)%Z then [] else
       let lo := (x / 10 ^ j)%Z in
       List.filter
         (fun sj : Z * Z =>
            (10 ^ (k - 1) <=? sj.1)%Z && (sj.1 <? 10 ^ k)%Z
            && (nearestNumber (sj.1 * 10 ^ sj.2) =? x)%Z)
         [(lo, j); ((lo + 1)%Z, j)])
    [(digits - 1)%Z; digits; (digits + 1)%Z].

(** Of two candidates the one closer to [x]; the even [s] on a tie. *)
Definition closer (x : Z) (a b : Z * Z) : Z * Z :=
  let da := Z.abs (a.1 * 10 ^ a.2 - x) in
  let db := Z.abs (b.1 * 10 ^ b.2 - x) in
  if (da <? db)%Z then a
  else if (db <? da)%Z then b
  else if Z.even a.1 then a else b.

Definition closest (x : Z) (l : list (Z * Z)) : option (Z * Z) :=
  match l with
  | [] => None
  | a :: rest => Some (fold_left (closer x) rest a)
  end.

(** The shortest digits that read back as [x]: the least [k] that has a
    candidate (17 digits always do). *)
Definition shortestDigits (x : Z) : Z * Z :=
  let digits := decimalDigits x in
  default (x, 0%Z)
    (fold_left
       (fun found k =>
          match found with
          | Some _ => found
          | None => closest x (candidates x digits (Z.of_nat k))
          end)
       (seq 1 17) None).

Fixpoint zeros (n : nat) : string :=
  match n with
  | O => ""
  | S n' => "0" ++ zeros n'
  end.

(** [Number::toString] of the Number nearest to the integer [n], which
    is also what a template literal and [String(n)] give. Below [2 ^ 53]
    in magnitude the Number is [n] and the string its decimal numeral;
    above, the string has the shortest digits that read back as the
    Number, followed by zeros up to 21 digits and in exponent notation
    beyond ([2 ^ 64] gives "18446744073709552000", [10 ^ 21] gives
    "1e+21"). *)
Definition Number_toString (n : Z) : string :=
  let a := Z.abs n in
  let sign := if (n <? 0)%Z then "-" else "" in
  if (a <? 2 ^ 53)%Z then pretty n else
  let x := nearestNumber a in
  if (2 ^ 1024 <=? x)%Z then sign ++ "Infinity" else
  let '(s, j) := shortestDigits x in
  let digits := pretty s in
  let k := String.length digits in
  let n10 := (Z.of_nat k + j)%Z in
  if (n10 <=? 21)%Z then sign ++ digits ++ zeros (Z.to_nat j)
  else
    match digits with
    | String d rest =>
        sign ++ String d (if (k =? 1)%nat then "" else "." ++ rest)
             ++ "e+" ++ pretty (n10 - 1)%Z
    | EmptyString => sign
    end.

(** IEEE-754 binary64 is the JavaScript number type. *)
Definition is_nan (x : float) : bool := negb (PrimFloat.eqb x x).

Definition is_neg_zero (x : float) : bool :=
  PrimFloat.eqb x 0%float && PrimFloat.ltb (1 / x)%float 0%float.

(** [Math.max(x, y)]: NaN is contagious and +0 is larger than -0. *)
Definition Math_max (x y : float) : float :=
  if is_nan x || is_nan y then PrimFloat.nan
  else if PrimFloat.ltb x y then y
  else if PrimFloat.ltb y x then x
  else if is_neg_zero x then y else x.

(** [Math.min(x, y)]: NaN is contagious and -0 is smaller than +0. *)
Definition Math_min (x y : float) : float :=
  if is_nan x || is_nan y then PrimFloat.nan
  else if PrimFloat.ltb x y then x
  else if PrimFloat.ltb y x then y
  else if is_neg_zero x then x else y.

End Js.

(** ** The risk engine *)

Module RiskEngine.

Local Open Scope float_scope.

Inductive RiskLevel := MINIMAL | LOW | MEDIUM | HIGH | CRITICAL.

(** The three description templates; the rendered text is the template
    with the argument interpolated. *)
Inductive Description :=
| AmountDescription (amount : float)
| ProgramDescription (programId : string)
| EventTypeDescription (eventType : string).

Record RiskFactor := {
  name : string;
  weight : float;
  value : float;
  description : Description;
}.

Record RiskScore := {
  score : float;
  level : RiskLevel;
  factors : list RiskFactor;
  timestamp : string;
}.

Record EventData := {
  signature : string;
  ev_timestamp : Z;
  amount : option float;
  programId : option string;
  eventType : string;
  sender : option string;
  receiver : option string;
}.

Definition MAX_SAFE_AMOUNT : float := 1000000000%float.

Definition SUSPICIOUS_PROGRAMS : list string := [].

Definition Set_has (s : list string) (x : string) : bool :=
  existsb (String.eqb x) s.

(** [evaluateAmount]: the argument is the JavaScript value handed over,
    [None] standing for [undefined]/[null]. *)
Definition evaluateAmount (amount : option float) : option RiskFactor :=
  match amount with
  | None => None
  | Some amount =>
      let value :=
        if PrimFloat.eqb amount 0 then 0.1
        else if PrimFloat.ltb MAX_SAFE_AMOUNT amount then 0.8
        else if PrimFloat.ltb (MAX_SAFE_AMOUNT * 0.5) amount then 0.5
        else 0.1 in
      Some {| name := "Amount Risk";
              weight := 0.3;
              value := value;
              description := AmountDescription amount |}
  end.

Definition evaluateProgram (programId : string) : option RiskFactor :=
  if negb (Js.truthy_string programId) then None
  else
    let value :=
      if Set_has SUSPICIOUS_PROGRAMS programId then 0.9
      else if String.eqb (Js.toLowerCase programId) "unknown" then 0.7
      else 0.2 in
    Some {| name := "Program Risk";
            weight := 0.35;
            value := value;
            description := ProgramDescription programId |}.

Definition evaluateEventType (eventType : string) : RiskFactor :=
  let lowered := Js.toLowerCase eventType in
  let value :=
    if String.eqb lowered "transfer" then 0.2
    else if String.eqb lowered "swap" then 0.3
    else if String.eqb lowered "liquidation" then 0.6
    else if String.eqb lowered "flash_loan" then 0.8
    else if String.eqb lowered "unknown" then 0.5
    else 0.3 in
  {| name := "Event Type Risk";
     weight := 0.35;
     value := value;
     description := EventTypeDescription eventType |}.

Definition scoreToLevel (score : float) : RiskLevel :=
  if PrimFloat.ltb score 0.2 then MINIMAL
  else if PrimFloat.ltb score 0.4 then LOW
  else if PrimFloat.ltb score 0.6 then MEDIUM
  else if PrimFloat.ltb score 0.8 then HIGH
  else CRITICAL.

(** The accumulator of [evaluateEvent]:
    [factors], [totalWeightedScore], [totalWeight]. *)
Definition Acc : Type := list RiskFactor * float * float.

(** [if (factor) { factors.push(factor); totalWeightedScore += ...;
    totalWeight += ... }] *)
Definition accumulate (acc : Acc) (factor : option RiskFactor) : Acc :=
  match factor with
  | None => acc
  | Some f =>
      let '(fs, tws, tw) := acc in
      ((fs ++ [f])%list, tws + value f * weight f, tw + weight f)
  end.

(** [evaluateEvent]; [now] is [new Date().toISOString()]. *)
Definition evaluateEvent (now : string) (eventData : EventData) : RiskScore :=
  let acc0 : Acc := ([], 0, 0)%float in
  let acc1 := accumulate acc0 (evaluateAmount (Some (default 0%float (amount eventData)))) in
  let acc2 := accumulate acc1 (evaluateProgram (default "" (programId eventData))) in
  let acc3 := accumulate acc2 (Some (evaluateEventType (eventType eventData))) in
  let '(fs, totalWeightedScore, totalWeight) := acc3 in
  let score :=
    if PrimFloat.ltb 0 totalWeight
    then (totalWeightedScore / totalWeight)%float else 0%float in
  let normalizedScore := Js.Math_min (Js.Math_max score 0) 1 in
  {| score := normalizedScore;
     level := scoreToLevel normalizedScore;
     factors := fs;
     timestamp := now |}.

End RiskEngine.

(** ** The event normalizer *)

Module EventNormalizer.

(** A JSON value, as the provider's [jsonParsed] encoding delivers it in
    the [parsed] member of an instruction (declared [any]). Numbers are
    the integers the provider sends (lamports, slots, decimals): [JNum n]
    is the Number nearest to [n], which is [n] itself below [2 ^ 53] in
    magnitude. An object is given by the members of its own. *)
Inductive json :=
| JNull
| JBool (b : bool)
| JNum (n : Z)
| JStr (s : string)
| JArr (items : list json)
| JObj (members : list (string * json)).

(** Truthiness of a JSON value. *)
Definition truthy (j : json) : bool :=
  match j with
  | JNull => false
  | JBool b => b
  | JNum n => negb (n =? 0)%Z
  | JStr s => Js.truthy_string s
  | JArr _ | JObj _ => true
  end.

Fixpoint assoc (k : string) (members : list (string * json)) : option json :=
  match members with
  | [] => None
  | (k', v) :: rest => if String.eqb k k' then Some v else assoc k rest
  end.

(** Property read [j.k] for the member names the normalizer uses (none
    of which exists on a string, number, boolean or array); [None] is
    [undefined]. *)
Definition prop (j : json) (k : string) : option json :=
  match j with
  | JObj members => assoc k members
  | _ => None
  end.

(** [j.toString()], which is also the conversion to a string that
    [Array.prototype.join] applies to the elements of an array other than
    [null] (they give the empty string). A number answers with
    [Number::toString], an array with the join of its elements by a
    comma, an object with [Object.prototype.toString], unless it has a
    member of its own called [toString]: that member is data and no
    function, so the call throws a [TypeError], and so does the
    conversion, which then finds no primitive. On [null] the call
    throws. *)
Fixpoint toString (j : json) : Js.Completion string :=
  match j with
  | JNull => Js.ThrowsTypeError
  | JBool true => Js.Returns "true"
  | JBool false => Js.Returns "false"
  | JNum n => Js.Returns (Js.Number_toString n)
  | JStr s => Js.Returns s
  | JArr items =>
      (fix join (l : list json) : Js.Completion string :=
         match l with
         | [] => Js.Returns ""
         | x :: rest =>
             sx ← match x with JNull => Js.Returns "" | _ => toString x end;
             match rest with
             | [] => Js.Returns sx
             | _ => srest ← join rest; Js.Returns (sx ++ "," ++ srest)
             end
         end) items
  | JObj members =>
      match assoc "toString" members with
      | Some _ => Js.ThrowsTypeError
      | None => Js.Returns "[object Object]"
      end
  end.

(** [v?.toString()]: [undefined] when [v] is [undefined] or [null]. *)
Definition opt_toString (v : option json) : Js.Completion (option string) :=
  match v with
  | None | Some JNull => Js.Returns None
  | Some j => Some <$> toString j
  end.

(** [v?.k]. *)
Definition opt_prop (v : option json) (k : string) : option json :=
  match v with
  | None | Some JNull => None
  | Some j => prop j k
  end.

(** [j.k === s]. *)
Definition prop_is (j : json) (k s : string) : bool :=
  match prop j k with
  | Some (JStr s') => String.eqb s' s
  | _ => false
  end.

(** The provider's transaction types, as the web3 client library
    declares them. A [PublicKey] is represented by its base58 rendering,
    which is what [toString()] returns. *)
Abbreviation PublicKey := string (only parsing).

Record ParsedMessageAccount := {
  pubkey : PublicKey;
  signer : bool;
  writable : bool;
}.

Inductive Instruction :=
| ParsedInstruction (program : string) (programId : PublicKey) (parsed : json)
| PartiallyDecodedInstruction (programId : PublicKey) (accounts : list PublicKey) (data : string).

Record ParsedMessage := {
  accountKeys : list ParsedMessageAccount;
  instructions : list Instruction;
  recentBlockhash : string;
}.

Record ParsedTransaction := {
  signatures : list string;
  message : ParsedMessage;
}.

Record ParsedTransactionMeta := {
  fee : Z;
  err : json;
}.

Record ParsedTransactionWithMeta := {
  slot : Z;
  transaction : ParsedTransaction;
  meta : option ParsedTransactionMeta;
  blockTime : option Z;
}.

Inductive EventType :=
| TRANSFER | TOKEN_TRANSFER | TOKEN_MINT | TOKEN_BURN | TOKEN_SWAP
| NFT_TRANSFER | NFT_MINT | NFT_BURN | STAKE | UNSTAKE | VOTE
| PROGRAM_INTERACTION | UNKNOWN.

Inductive Status := success | failed | pending.

Record InstructionEvent := {
  ie_index : nat;
  ie_programId : string;
  ie_type : string;
  ie_parsed : option json;
  ie_raw : option string;
  ie_accounts : list string;
}.

Record NormalizedEvent := {
  ne_id : string;
  ne_signature : string;
  ne_timestamp : Z;
  ne_blockTime : Z;
  ne_blockHeight : option Z;
  ne_slot : Z;
  ne_status : Status;
  ne_from : string;
  ne_to : option string;
  ne_type : EventType;
  ne_subType : option string;
  ne_amount : option string;
  ne_mint : option string;
  ne_programId : string;
  ne_instructions : list InstructionEvent;
  ne_fee : Z;
  ne_feePayerAddress : string;
  ne_raw : option ParsedTransactionWithMeta;
  ne_metadata : option (list (string * json));
}.

(** The callback of [instructions.map] in [processInstructions]. *)
Definition processInstruction (index : nat) (instruction : Instruction) : InstructionEvent :=
  match instruction with
  | ParsedInstruction program programId parsed =>
      {| ie_index := index;
         ie_programId := programId;
         ie_type := if truthy parsed then Js.or_string (Some program) "unknown" else program;
         ie_parsed := if truthy parsed then Some parsed else None;
         ie_raw := None;
         ie_accounts := [] |}
  | PartiallyDecodedInstruction programId accounts data =>
      {| ie_index := index;
         ie_programId := programId;
         ie_type := "unknown";
         ie_parsed := None;
         ie_raw := if Js.truthy_string data then Some data else None;
         ie_accounts := accounts |}
  end.

Definition processInstructions (instructions : list Instruction)
    (accountKeys : list string) : list InstructionEvent :=
  imap processInstruction instructions.

Record Classification := {
  c_type : EventType;
  c_subType : option string;
  c_from : string;
  c_to : option string;
  c_amount : option string;
  c_mint : option string;
  c_programId : string;
}.

(** [(parsed.tokenAmount?.amount)?.toString() || (parsed.amount)?.toString()]:
    the right operand is evaluated only when the left one is falsy. *)
Definition tokenAmountOf (parsed : json) : Js.Completion (option string) :=
  tokenAmount ← opt_toString (opt_prop (prop parsed "tokenAmount") "amount");
  match tokenAmount with
  | Some s => if Js.truthy_string s then Js.Returns (Some s)
              else opt_toString (prop parsed "amount")
  | None => opt_toString (prop parsed "amount")
  end.

Definition determineEventType (instructions : list InstructionEvent)
    (accountKeys : list ParsedMessageAccount) (feePayerAddress : string)
    : Js.Completion Classification :=
  let primaryInstruction := head instructions in
  let programId := Js.or_string (ie_programId <$> primaryInstruction) "unknown" in
  let unclassified :=
    {| c_type := UNKNOWN; c_subType := None; c_from := feePayerAddress;
       c_to := None; c_amount := None; c_mint := None;
       c_programId := programId |} in
  match primaryInstruction with
  | None => Js.Returns unclassified
  | Some primaryInstruction =>
    match ie_parsed primaryInstruction with
    | None => Js.Returns unclassified
    | Some parsed =>
      if negb (truthy parsed) then Js.Returns unclassified else
      let program := ie_type primaryInstruction in
      let result type subType from to amount mint :=
        {| c_type := type; c_subType := subType; c_from := from; c_to := to;
           c_amount := amount; c_mint := mint; c_programId := programId |} in
      if String.eqb program "system" then
        if prop_is parsed "type" "transfer" then
          source ← opt_toString (prop parsed "source");
          destination ← opt_toString (prop parsed "destination");
          lamports ← opt_toString (prop parsed "lamports");
          Js.Returns
            (result TRANSFER None (Js.or_string source feePayerAddress)
               destination lamports None)
        else Js.Returns unclassified
      else if String.eqb program "spl-token" || Js.includes programId "TokenzQdBNbLqP" then
        if prop_is parsed "type" "transfer" || prop_is parsed "type" "transferChecked" then
          source ← opt_toString (prop parsed "source");
          destination ← opt_toString (prop parsed "destination");
          amount ← tokenAmountOf parsed;
          mint ← opt_toString (prop parsed "mint");
          Js.Returns
            (result TOKEN_TRANSFER None (Js.or_string source feePayerAddress)
               destination amount mint)
        else if prop_is parsed "type" "mintTo" then
          mint ← opt_toString (prop parsed "mint");
          amount ← tokenAmountOf parsed;
          Js.Returns (result TOKEN_MINT None feePayerAddress None amount mint)
        else if prop_is parsed "type" "burn" then
          mint ← opt_toString (prop parsed "mint");
          amount ← tokenAmountOf parsed;
          Js.Returns (result TOKEN_BURN None feePayerAddress None amount mint)
        else Js.Returns unclassified
      else if Js.includes programId "metaqbxxU8xxxxxxxxxxxxxxxxxxxxxxxxxxxxxx" then
        if prop_is parsed "type" "createMetadata" || prop_is parsed "type" "updateMetadata" then
          Js.Returns (result NFT_MINT None feePayerAddress None None None)
        else if prop_is parsed "type" "burnNFT" then
          Js.Returns (result NFT_BURN None feePayerAddress None None None)
        else Js.Returns unclassified
      else if String.eqb program "stake" then
        if prop_is parsed "type" "delegate" then
          Js.Returns (result STAKE None feePayerAddress None None None)
        else if prop_is parsed "type" "deactivate" then
          Js.Returns (result UNSTAKE None feePayerAddress None None None)
        else Js.Returns unclassified
      else if String.eqb program "vote" then
        Js.Returns (result VOTE None feePayerAddress None None None)
      else if Js.truthy_string program && negb (String.eqb program "unknown") then
        Js.Returns
          (result PROGRAM_INTERACTION (Some program) feePayerAddress None None None)
      else Js.Returns unclassified
    end
  end.

(** The event [normalizeTransaction] builds once the classification [c]
    is there. *)
Definition eventOf (now : Z) (tx : ParsedTransactionWithMeta)
    (signature : string) (instructions : list InstructionEvent)
    (c : Classification) : NormalizedEvent :=
  let txData := transaction tx in
  let accountKeys := accountKeys (message txData) in
  let feePayerAddress := Js.or_string (pubkey <$> head accountKeys) "unknown" in
  let fee := Js.or_Z (fee <$> meta tx) 0 in
  let status :=
    match meta tx with
    | Some m => if truthy (err m) then failed else success
    | None => success
    end in
  {| ne_id := signature ++ "-" ++ Js.Number_toString (slot tx);
     ne_signature := signature;
     ne_timestamp :=
       match blockTime tx with
       | Some t => if (t =? 0)%Z then now else (t * 1000)%Z
       | None => now
       end;
     ne_blockTime := Js.or_Z (blockTime tx) 0;
     ne_blockHeight := None;
     ne_slot := Js.or_Z (Some (slot tx)) 0;
     ne_status := status;
     ne_from := c_from c;
     ne_to := c_to c;
     ne_type := c_type c;
     ne_subType := c_subType c;
     ne_amount := c_amount c;
     ne_mint := c_mint c;
     ne_programId := c_programId c;
     ne_instructions := instructions;
     ne_fee := fee;
     ne_feePayerAddress := feePayerAddress;
     ne_raw := Some tx;
     ne_metadata :=
       Some [("accountCount", JNum (Z.of_nat (length accountKeys)));
             ("instructionCount", JNum (Z.of_nat (length instructions)));
             ("recentBlockhash", JStr (recentBlockhash (message txData)))] |}.

(** [normalizeTransaction]; [now] is the value [Date.now()] returns. The
    one step that may throw is [determineEventType]. *)
Definition normalizeTransaction (now : Z)
    (tx : ParsedTransactionWithMeta) (signature : string)
    : Js.Completion NormalizedEvent :=
  let txData := transaction tx in
  let accountKeys := accountKeys (message txData) in
  let feePayerAddress := Js.or_string (pubkey <$> head accountKeys) "unknown" in
  let instructions :=
    processInstructions (instructions (message txData)) (pubkey <$> accountKeys) in
  c ← determineEventType instructions accountKeys feePayerAddress;
  Js.Returns (eventOf now tx signature instructions c).

(** The first instruction belongs to no recognized program: either the
    provider could not decode it (a [PartiallyDecodedInstruction], with no
    program name and no [parsed] member), or it carries no parsed payload,
    or its program name is missing or "unknown" and its program id is
    neither the Token-2022 nor the metadata program. *)
Definition unrecognized (i : Instruction) : bool :=
  match i with
  | PartiallyDecodedInstruction _ _ _ => true
  | ParsedInstruction program programId parsed =>
      negb (truthy parsed)
      || ((String.eqb program "" || String.eqb program "unknown")
          && negb (Js.includes (Js.or_string (Some programId) "unknown") "TokenzQdBNbLqP")
          && negb (Js.includes (Js.or_string (Some programId) "unknown")
                     "metaqbxxU8xxxxxxxxxxxxxxxxxxxxxxxxxxxxxx"))
  end.

End EventNormalizer.

(** ** The event broadcaster *)

(** [Map<string, V>]: entries in insertion order, at most one per key.
    [set] on a key already present replaces the value where it stands. *)
Module JsMap.
Section Ops.
Context {V : Type}.

Fixpoint get (k : string) (m : list (string * V)) : option V :=
  match m with
  | [] => None
  | (k', v) :: rest => if String.eqb k k' then Some v else get k rest
  end.

Definition has (k : string) (m : list (string * V)) : bool :=
  match get k m with Some _ => true | None => false end.

Fixpoint set (k : string) (v : V) (m : list (string * V)) : list (string * V) :=
  match m with
  | [] => [(k, v)]
  | (k', v') :: rest =>
      if String.eqb k k' then (k, v) :: rest else (k', v') :: set k v rest
  end.

Fixpoint delete (k : string) (m : list (string * V)) : list (string * V) :=
  match m with
  | [] => []
  | (k', v') :: rest =>
      if String.eqb k k' then delete k rest else (k', v') :: delete k rest
  end.

(** Keys pairwise distinct: the representation invariant of a [Map]. *)
Fixpoint wf (m : list (string * V)) : bool :=
  match m with
  | [] => true
  | (k, _) :: rest => negb (has k rest) && wf rest
  end.

Definition keys (m : list (string * V)) : list string := map fst m.
Definition size (m : list (string * V)) : nat := length m.
End Ops.
End JsMap.

(** [Set<string>]: members in insertion order, no duplicates. *)
Module JsSet.
Definition has (x : string) (s : list string) : bool := existsb (String.eqb x) s.
Definition add (x : string) (s : list string) : list string :=
  if has x s then s else (s ++ [x])%list.
Definition delete (x : string) (s : list string) : list string :=
  List.filter (fun y => negb (String.eqb x y)) s.
(** [new Set(iterable)] *)
Definition of_list (l : list string) : list string :=
  fold_left (fun s x => add x s) l [].
End JsSet.

Module EventBroadcaster.

(** *** The sinks: WebSocket objects of the environment *)

Inductive ReadyState := CONNECTING | OPEN | CLOSING | CLOSED.

(** The text handed to [ws.send]: [JSON.stringify({type, data, timestamp})]. *)
Record Frame := {
  fr_type : string;
  fr_data : string;
  fr_timestamp : Z;
}.

(** A socket: its state, whether its [send] and [close] raise, and what
    has been passed to them so far. *)
Record WebSocket := {
  readyState : ReadyState;
  sendThrows : bool;
  closeThrows : bool;
  inbox : list Frame;
  closeCalls : list (Z * string);
}.

(** A broadcast payload ([any]): either it has a JSON text, or
    [JSON.stringify] raises on it (a cyclic structure, a BigInt). *)
Inductive Data :=
| Serializable (text : string)
| Unserializable.

Definition JSON_stringify (type : string) (data : Data) (timestamp : Z) : option Frame :=
  match data with
  | Serializable text =>
      Some {| fr_type := type; fr_data := text; fr_timestamp := timestamp |}
  | Unserializable => None
  end.

(** *** The broadcaster's own data *)

Record ClientMetadata := {
  id : string;
  joinedAt : Z;
  lastMessageAt : option Z;
  tags : option (list string);
}.

(** A registry entry; [ws] is the reference to the socket object. *)
Record Client := {
  ws : nat;
  metadata : ClientMetadata;
}.

Record QueuedBroadcast := {
  qb_id : string;
  qb_type : string;
  qb_data : Data;
  qb_timestamp : option Z;
  targetClients : option (list string);
  retryCount : Z;
  qb_maxRetries : Z;
}.

(** What [this.emit] has been called with. *)
Inductive Emitted :=
| client_connected (clientId : string) (metadata : ClientMetadata)
| client_disconnected (clientId : string)
| client_close_error (clientId : string)
| message_sent (clientId type : string)
| message_error (clientId type : string)
| broadcast_queued (broadcastId type : string) (targetCount : nat)
| broadcast_queue_full (broadcastId type : string)
| broadcast_no_targets (broadcastId type : string)
| broadcast_completed (broadcastId type : string) (sentCount : nat)
| broadcast_max_retries_exceeded (broadcastId type : string) (failedCount : nat)
| queue_processing_started
| queue_processing_stopped
| queue_cleared (clearedCount : nat)
| broadcaster_closed.

(** The broadcaster object together with the part of the environment it
    acts on: the socket objects (by reference), the clock [new Date()]
    reads, and the trace of emitted notifications. *)
Record State := {
  clients : list (string * Client);
  messageQueue : list (string * QueuedBroadcast);
  maxQueueSize : Z;
  maxRetries : Z;
  queueProcessingInterval : option Z;
  sockets : nat -> WebSocket;
  clock : Z;
  emitted : list Emitted;
}.

Definition with_clients (c : list (string * Client)) (st : State) : State :=
  {| clients := c; messageQueue := messageQueue st;
     maxQueueSize := maxQueueSize st; maxRetries := maxRetries st;
     queueProcessingInterval := queueProcessingInterval st;
     sockets := sockets st; clock := clock st; emitted := emitted st |}.

Definition with_messageQueue (q : list (string * QueuedBroadcast)) (st : State) : State :=
  {| clients := clients st; messageQueue := q;
     maxQueueSize := maxQueueSize st; maxRetries := maxRetries st;
     queueProcessingInterval := queueProcessingInterval st;
     sockets := sockets st; clock := clock st; emitted := emitted st |}.

Definition with_interval (i : option Z) (st : State) : State :=
  {| clients := clients st; messageQueue := messageQueue st;
     maxQueueSize := maxQueueSize st; maxRetries := maxRetries st;
     queueProcessingInterval := i;
     sockets := sockets st; clock := clock st; emitted := emitted st |}.

Definition with_sockets (s : nat -> WebSocket) (st : State) : State :=
  {| clients := clients st; messageQueue := messageQueue st;
     maxQueueSize := maxQueueSize st; maxRetries := maxRetries st;
     queueProcessingInterval := queueProcessingInterval st;
     sockets := s; clock := clock st; emitted := emitted st |}.

Definition with_clock (t : Z) (st : State) : State :=
  {| clients := clients st; messageQueue := messageQueue st;
     maxQueueSize := maxQueueSize st; maxRetries := maxRetries st;
     queueProcessingInterval := queueProcessingInterval st;
     sockets := sockets st; clock := t; emitted := emitted st |}.

(** [this.emit(...)] *)
Definition emit (e : Emitted) (st : State) : State :=
  {| clients := clients st; messageQueue := messageQueue st;
     maxQueueSize := maxQueueSize st; maxRetries := maxRetries st;
     queueProcessingInterval := queueProcessingInterval st;
     sockets := sockets st; clock := clock st;
     emitted := (emitted st ++ [e])%list |}.

(** Update of one socket object. *)
Definition update_socket (r : nat) (f : WebSocket -> WebSocket) (st : State) : State :=
  with_sockets (fun r' => if Nat.eqb r' r then f (sockets st r') else sockets st r') st.

(** [ws.send(message)] on a socket whose [send] does not raise. *)
Definition ws_send (message : Frame) (w : WebSocket) : WebSocket :=
  {| readyState := readyState w; sendThrows := sendThrows w;
     closeThrows := closeThrows w;
     inbox := (inbox w ++ [message])%list; closeCalls := closeCalls w |}.

(** [ws.close(code, reason)] on a socket whose [close] does not raise. *)
Definition ws_close (code : Z) (reason : string) (w : WebSocket) : WebSocket :=
  {| readyState := CLOSING; sendThrows := sendThrows w;
     closeThrows := closeThrows w;
     inbox := inbox w; closeCalls := (closeCalls w ++ [(code, reason)])%list |}.

Definition is_open (r : ReadyState) : bool :=
  match r with OPEN => true | _ => false end.

Record Options := {
  opt_maxQueueSize : option Z;
  opt_maxRetries : option Z;
}.

(** [constructor(options)], in an environment with the given sockets
    and clock. *)
Definition constructor (options : Options) (socks : nat -> WebSocket) (now : Z) : State :=
  {| clients := []; messageQueue := [];
     maxQueueSize := Js.or_Z (opt_maxQueueSize options) 1000;
     maxRetries := Js.or_Z (opt_maxRetries options) 3;
     queueProcessingInterval := None;
     sockets := socks; clock := now; emitted := [] |}.

(** *** Client registry *)

Definition registerClient (cid : string) (w : nat) (tgs : option (list string))
    (st : State) : State :=
  let metadata :=
    {| id := cid; joinedAt := clock st; lastMessageAt := None;
       tags := Some (match tgs with Some l => JsSet.of_list l | None => [] end) |} in
  emit (client_connected cid metadata)
    (with_clients (JsMap.set cid {| ws := w; metadata := metadata |} (clients st)) st).

Definition unregisterClient (cid : string) (st : State) : bool * State :=
  match JsMap.get cid (clients st) with
  | None => (false, st)
  | Some _ =>
      (true, emit (client_disconnected cid)
               (with_clients (JsMap.delete cid (clients st)) st))
  end.

(** [getClient]: the socket reference, [None] for [null]. *)
Definition getClient (cid : string) (st : State) : option nat :=
  ws <$> JsMap.get cid (clients st).

Definition getClientIds (st : State) : list string := JsMap.keys (clients st).

Definition getClientCount (st : State) : nat := JsMap.size (clients st).

Definition with_tags (t : option (list string)) (c : Client) : Client :=
  {| ws := ws c;
     metadata := {| id := id (metadata c); joinedAt := joinedAt (metadata c);
                    lastMessageAt := lastMessageAt (metadata c); tags := t |} |}.

Definition with_lastMessageAt (t : Z) (c : Client) : Client :=
  {| ws := ws c;
     metadata := {| id := id (metadata c); joinedAt := joinedAt (metadata c);
                    lastMessageAt := Some t; tags := tags (metadata c) |} |}.

Definition addClientTag (clientId tag : string) (st : State) : bool * State :=
  match JsMap.get clientId (clients st) with
  | None => (false, st)
  | Some client =>
      (true, with_clients
               (JsMap.set clientId
                  (with_tags (JsSet.add tag <$> tags (metadata client)) client)
                  (clients st)) st)
  end.

Definition removeClientTag (clientId tag : string) (st : State) : bool * State :=
  match JsMap.get clientId (clients st) with
  | None => (false, st)
  | Some client =>
      match tags (metadata client) with
      | None => (false, st)
      | Some t =>
          (JsSet.has tag t,
           with_clients
             (JsMap.set clientId (with_tags (Some (JsSet.delete tag t)) client)
                (clients st)) st)
      end
  end.

Definition getClientsByTag (tag : string) (st : State) : list string :=
  JsMap.keys
    (List.filter
       (fun kv => match tags (metadata (snd kv)) with
                  | Some t => JsSet.has tag t
                  | None => false
                  end)
       (clients st)).

(** *** Direct send *)

Definition sendToClient (clientId type : string) (data : Data) (st : State)
    : bool * State :=
  match JsMap.get clientId (clients st) with
  | None => (false, st)
  | Some client =>
      match JSON_stringify type data (clock st) with
      | None => (false, emit (message_error clientId type) st)
      | Some message =>
          let sock := sockets st (ws client) in
          if is_open (readyState sock) then
            if sendThrows sock then
              (false, emit (message_error clientId type) st)
            else
              let st1 := update_socket (ws client) (ws_send message) st in
              let st2 :=
                with_clients
                  (JsMap.set clientId (with_lastMessageAt (clock st) client)
                     (clients st1)) st1 in
              (true, emit (message_sent clientId type) st2)
          else (false, st)
      end
  end.

(** *** Broadcast queue *)

Definition addToQueue (broadcast : QueuedBroadcast) (st : State) : bool * State :=
  if (Z.of_nat (JsMap.size (messageQueue st)) >=? maxQueueSize st)%Z then (false, st)
  else
    (true,
     emit (broadcast_queued (qb_id broadcast) (qb_type broadcast)
             (match targetClients broadcast with
              | Some t => length t
              | None => 0%nat
              end))
       (with_messageQueue
          (JsMap.set (qb_id broadcast) broadcast (messageQueue st)) st)).

Definition newBroadcast (broadcastId type : string) (data : Data)
    (targets : list string) (st : State) : QueuedBroadcast :=
  {| qb_id := broadcastId; qb_type := type; qb_data := data;
     qb_timestamp := None; targetClients := Some targets;
     retryCount := 0; qb_maxRetries := maxRetries st |}.

(** [broadcast]; [broadcastId] is what [generateId()] returned. *)
Definition broadcast (broadcastId type : string) (data : Data) (st : State)
    : string * State :=
  let targets := JsSet.of_list (getClientIds st) in
  let '(queued, st1) := addToQueue (newBroadcast broadcastId type data targets st) st in
  if negb queued then (broadcastId, emit (broadcast_queue_full broadcastId type) st1)
  else (broadcastId, st1).

(** [broadcastToClients]; [broadcastId] is what [generateId()] returned. *)
Definition broadcastToClients (broadcastId : string) (clientIds : list string)
    (type : string) (data : Data) (st : State) : string * State :=
  let targets :=
    JsSet.of_list (List.filter (fun c => JsMap.has c (clients st)) clientIds) in
  if (length targets =? 0)%nat then
    (broadcastId, emit (broadcast_no_targets broadcastId type) st)
  else
    let '(queued, st1) := addToQueue (newBroadcast broadcastId type data targets st) st in
    if negb queued then (broadcastId, emit (broadcast_queue_full broadcastId type) st1)
    else (broadcastId, st1).

Definition broadcastToTag (broadcastId tag type : string) (data : Data) (st : State)
    : string * State :=
  broadcastToClients broadcastId (getClientsByTag tag st) type data st.

Definition getQueueSize (st : State) : nat := JsMap.size (messageQueue st).

Definition clearQueue (st : State) : State :=
  emit (queue_cleared (JsMap.size (messageQueue st))) (with_messageQueue [] st).

(** *** Delivery loop *)

Definition startQueueProcessing (intervalMs : Z) (st : State) : State :=
  match queueProcessingInterval st with
  | Some _ => st
  | None => emit queue_processing_started (with_interval (Some intervalMs) st)
  end.

Definition stopQueueProcessing (st : State) : State :=
  match queueProcessingInterval st with
  | Some _ => emit queue_processing_stopped (with_interval None st)
  | None => st
  end.

(** The sweep of one broadcast: state, [sentCount], [failedCount]. *)
Definition Tally : Type := State * nat * nat.

(** The callback of [broadcast.targetClients?.forEach]. *)
Definition sendToTarget (b : QueuedBroadcast) (acc : Tally) (clientId : string) : Tally :=
  let '(st, sentCount, failedCount) := acc in
  let '(ok, st') := sendToClient clientId (qb_type b) (qb_data b) st in
  if ok then (st', S sentCount, failedCount) else (st', sentCount, S failedCount).

Definition sendToTargets (b : QueuedBroadcast) (st : State) : Tally :=
  match targetClients b with
  | Some t => fold_left (sendToTarget b) t (st, 0%nat, 0%nat)
  | None => (st, 0%nat, 0%nat)
  end.

Definition incrRetry (b : QueuedBroadcast) : QueuedBroadcast :=
  {| qb_id := qb_id b; qb_type := qb_type b; qb_data := qb_data b;
     qb_timestamp := qb_timestamp b; targetClients := targetClients b;
     retryCount := retryCount b + 1; qb_maxRetries := qb_maxRetries b |}.

(** The callback of [this.messageQueue.forEach] in [processQueue]; the
    second component is [failedBroadcasts]. *)
Definition processBroadcast (acc : State * list string)
    (entry : string * QueuedBroadcast) : State * list string :=
  let '(st, failedBroadcasts) := acc in
  let '(broadcastId, b) := entry in
  let '(st1, sentCount, failedCount) := sendToTargets b st in
  if (0 <? failedCount)%nat then
    let b' := incrRetry b in
    let st2 := with_messageQueue (JsMap.set broadcastId b' (messageQueue st1)) st1 in
    if (retryCount b' >=? qb_maxRetries b')%Z then
      (emit (broadcast_max_retries_exceeded broadcastId (qb_type b) failedCount) st2,
       (failedBroadcasts ++ [broadcastId])%list)
    else (st2, failedBroadcasts)
  else
    (emit (broadcast_completed broadcastId (qb_type b) sentCount)
       (with_messageQueue (JsMap.delete broadcastId (messageQueue st1)) st1),
     failedBroadcasts).

(** [processQueue]. The callback removes no entry but the one it is
    visiting and adds none, so the traversal visits the entries the
    queue holds when the sweep starts, in order. *)
Definition processQueue (st : State) : State :=
  let '(st1, failedBroadcasts) :=
    fold_left processBroadcast (messageQueue st) (st, []) in
  fold_left
    (fun s broadcastId =>
       with_messageQueue (JsMap.delete broadcastId (messageQueue s)) s)
    failedBroadcasts st1.

(** *** Shutdown *)

(** The callback of [this.clients.forEach] in [closeAll]. *)
Definition closeClient (code : Z) (reason : string) (st : State)
    (entry : string * Client) : State :=
  let '(clientId, client) := entry in
  let sock := sockets st (ws client) in
  if is_open (readyState sock) then
    if closeThrows sock then emit (client_close_error clientId) st
    else update_socket (ws client) (ws_close code reason) st
  else st.

Definition closeAll (code : Z) (reason : string) (st : State) : State :=
  let st1 := fold_left (closeClient code reason) (clients st) st in
  let st2 := stopQueueProcessing st1 in
  emit broadcaster_closed (with_clients [] st2).

(** *** Sequences of operations *)

(** The public operations, the timer firing, and what the environment
    does on its own (a socket changing state, time passing). *)
Inductive Op :=
| RegisterClient (cid : string) (w : nat) (tgs : option (list string))
| UnregisterClient (cid : string)
| AddClientTag (cid tag : string)
| RemoveClientTag (cid tag : string)
| Broadcast (broadcastId type : string) (data : Data)
| BroadcastToClients (broadcastId : string) (clientIds : list string)
    (type : string) (data : Data)
| BroadcastToTag (broadcastId tag type : string) (data : Data)
| SendToClient (cid type : string) (data : Data)
| StartQueueProcessing (intervalMs : Z)
| StopQueueProcessing
| TimerFires
| ClearQueue
| CloseAll (code : Z) (reason : string)
| SocketChanges (r : nat) (w : WebSocket)
| TimePasses (now : Z).

Definition step (st : State) (op : Op) : State :=
  match op with
  | RegisterClient cid w tgs => registerClient cid w tgs st
  | UnregisterClient cid => snd (unregisterClient cid st)
  | AddClientTag cid tag => snd (addClientTag cid tag st)
  | RemoveClientTag cid tag => snd (removeClientTag cid tag st)
  | Broadcast bid type data => snd (broadcast bid type data st)
  | BroadcastToClients bid ids type data => snd (broadcastToClients bid ids type data st)
  | BroadcastToTag bid tag type data => snd (broadcastToTag bid tag type data st)
  | SendToClient cid type data => snd (sendToClient cid type data st)
  | StartQueueProcessing ms => startQueueProcessing ms st
  | StopQueueProcessing => stopQueueProcessing st
  | TimerFires =>
      match queueProcessingInterval st with
      | Some _ => processQueue st
      | None => st
      end
  | ClearQueue => clearQueue st
  | CloseAll code reason => closeAll code reason st
  | SocketChanges r w => update_socket r (fun _ => w) st
  | TimePasses now => with_clock now st
  end.

Definition run (ops : list Op) (st : State) : State := fold_left step ops st.

(** Consecutive sweeps of the delivery loop, one per entry of [times],
    which gives the clock reading at that sweep. *)
Fixpoint sweepsAt (times : list Z) (st : State) : State :=
  match times with
  | [] => st
  | t :: rest => sweepsAt rest (processQueue (with_clock t st))
  end.

End EventBroadcaster.

(** ** The event broadcaster: queue introspection *)

Module EventBroadcasterStats.
Import EventBroadcaster.

(** One element of [broadcasts] in the result of [getQueueStats]. *)
Record BroadcastStats := {
  bs_id : string;
  bs_type : string;
  bs_retryCount : Z;
  bs_targetCount : nat;
}.

Record QueueStats := {
  qs_size : nat;
  qs_maxSize : Z;
  qs_broadcasts : list BroadcastStats;
}.

(** The callback of [map] in [getQueueStats]. *)
Definition broadcastStats (b : QueuedBroadcast) : BroadcastStats :=
  {| bs_id := qb_id b;
     bs_type := qb_type b;
     bs_retryCount := retryCount b;
     bs_targetCount := match targetClients b with
                       | Some t => length t
                       | None => 0%nat
                       end |}.

Definition getQueueStats (st : State) : QueueStats :=
  {| qs_size := JsMap.size (messageQueue st);
     qs_maxSize := maxQueueSize st;
     qs_broadcasts := map (fun kv => broadcastStats (snd kv)) (messageQueue st) |}.

End EventBroadcasterStats.

(** ** The event normalizer: operations on normalized events *)

Module EventNormalizerOps.
Import EventNormalizer.

#[global] Instance EventType_eq_dec : EqDecision EventType.
Proof. solve_decision. Defined.

(** [{...a, ...b}] on objects given by their members: the members of [a]
    with the values [b] gives them, then the members only [b] has. (An
    object enumerates keys that are array indices first; the order of
    the list is the order of the other keys, and what is proved of the
    result is stated on lookups.) *)
Definition spread (a b : list (string * json)) : list (string * json) :=
  fold_left (fun m kv => JsMap.set (fst kv) (snd kv) m) b a.

(** [enrichEvent]; [None] is a call without [enrichmentData], and an
    event without [metadata] spreads nothing. The result always has a
    [metadata] object. *)
Definition enrichEvent (event : NormalizedEvent)
    (enrichmentData : option (list (string * json))) : NormalizedEvent :=
  {| ne_id := ne_id event; ne_signature := ne_signature event;
     ne_timestamp := ne_timestamp event; ne_blockTime := ne_blockTime event;
     ne_blockHeight := ne_blockHeight event; ne_slot := ne_slot event;
     ne_status := ne_status event; ne_from := ne_from event;
     ne_to := ne_to event; ne_type := ne_type event;
     ne_subType := ne_subType event; ne_amount := ne_amount event;
     ne_mint := ne_mint event; ne_programId := ne_programId event;
     ne_instructions := ne_instructions event; ne_fee := ne_fee event;
     ne_feePayerAddress := ne_feePayerAddress event; ne_raw := ne_raw event;
     ne_metadata := Some (spread (spread [] (default [] (ne_metadata event)))
                            (default [] enrichmentData)) |}.

Definition filterByType (events : list NormalizedEvent) (type : EventType)
    : list NormalizedEvent :=
  List.filter (fun event => bool_decide (ne_type event = type)) events.

(** [event.to === address], [to] being optional. *)
Definition to_is (event : NormalizedEvent) (address : string) : bool :=
  match ne_to event with
  | Some t => String.eqb t address
  | None => false
  end.

Definition filterByAddress (events : list NormalizedEvent) (address : string)
    : list NormalizedEvent :=
  List.filter
    (fun event =>
       String.eqb (ne_from event) address
       || to_is event address
       || String.eqb (ne_feePayerAddress event) address)
    events.

(** The comparator of [sortByTimestamp] is negative on [(a, b)]. *)
Definition before (ascending : bool) (a b : NormalizedEvent) : bool :=
  if ascending then (ne_timestamp a - ne_timestamp b <? 0)%Z
  else (ne_timestamp b - ne_timestamp a <? 0)%Z.

(** Insertion of [x], which stood before every element of [l], into the
    sorted [l]: after the elements that the comparator puts before it. *)
Fixpoint insertSorted (ascending : bool) (x : NormalizedEvent)
    (l : list NormalizedEvent) : list NormalizedEvent :=
  match l with
  | [] => [x]
  | y :: rest =>
      if before ascending y x then y :: insertSorted ascending x rest
      else x :: y :: rest
  end.

(** [sortByTimestamp]: [[...events].sort(compare)]. The sort of an array
    is stable and the comparator is a total preorder on the timestamps,
    which determines the result: the stable sorted arrangement of the
    copy, built here by insertion from the right. *)
Fixpoint sortByTimestamp (events : list NormalizedEvent) (ascending : bool)
    : list NormalizedEvent :=
  match events with
  | [] => []
  | x :: rest => insertSorted ascending x (sortByTimestamp rest ascending)
  end.

End EventNormalizerOps.

(* ===================================================================== *)
(** * Part II: vocabulary of the statements                               *)
(* ===================================================================== *)

(** ** Risk engine *)

Module RiskEngineSpec.
Import RiskEngine.

Local Open Scope float_scope.

(** The event of the scoring scenario: program "unknown", type
    "flash_loan", with the given optional amount. *)
Definition flashLoanEvent (sig : string) (ts : Z) (amt : option float)
    (snd rcv : option string) : EventData :=
  {| signature := sig; ev_timestamp := ts; amount := amt;
     programId := Some "unknown"; eventType := "flash_loan";
     sender := snd; receiver := rcv |}.

(** What the documentation of the scorer describes: a weighted mean over
    the factors that are present, an absent [amount] contributing none.
    It differs from [evaluateEvent] only in handing the optional amount
    to [evaluateAmount] as it is. *)
Definition weightedMeanOverPresent (now : string) (eventData : EventData) : RiskScore :=
  let acc0 : Acc := ([], 0, 0)%float in
  let acc1 := accumulate acc0 (evaluateAmount (amount eventData)) in
  let acc2 := accumulate acc1 (evaluateProgram (default "" (programId eventData))) in
  let acc3 := accumulate acc2 (Some (evaluateEventType (eventType eventData))) in
  let '(fs, totalWeightedScore, totalWeight) := acc3 in
  let score :=
    if PrimFloat.ltb 0 totalWeight
    then (totalWeightedScore / totalWeight)%float else 0%float in
  let normalizedScore := Js.Math_min (Js.Math_max score 0) 1 in
  {| score := normalizedScore;
     level := scoreToLevel normalizedScore;
     factors := fs;
     timestamp := now |}.

(** The scoring with the zero amount penalized, as the description of
    the amount factor has it (zero and very large amounts are the two
    penalized cases) and as the comment on the zero branch of
    [evaluateAmount] announces ("Suspicious: zero amount"): the zero
    amount gets the value of the very large amount. It differs from
    [evaluateEvent] in that value only. *)
Definition zeroAmountPenalized (now : string) (eventData : EventData) : RiskScore :=
  let amount := default 0 (amount eventData) in
  let penalize (f : RiskFactor) :=
    if PrimFloat.eqb amount 0
    then {| name := name f; weight := weight f; value := 0.8;
            description := description f |}
    else f in
  let acc0 : Acc := ([], 0, 0)%float in
  let acc1 := accumulate acc0 (penalize <$> evaluateAmount (Some amount)) in
  let acc2 := accumulate acc1 (evaluateProgram (default "" (programId eventData))) in
  let acc3 := accumulate acc2 (Some (evaluateEventType (eventType eventData))) in
  let '(fs, totalWeightedScore, totalWeight) := acc3 in
  let score :=
    if PrimFloat.ltb 0 totalWeight
    then (totalWeightedScore / totalWeight)%float else 0%float in
  let normalizedScore := Js.Math_min (Js.Math_max score 0) 1 in
  {| score := normalizedScore;
     level := scoreToLevel normalizedScore;
     factors := fs;
     timestamp := now |}.

(** A score of at least 0.7 with level HIGH or CRITICAL. *)
Definition scoresHigh (r : RiskScore) : Prop :=
  PrimFloat.leb 0.7 (score r) = true /\ (level r = HIGH \/ level r = CRITICAL).

End RiskEngineSpec.

(** ** Event normalizer *)

Module EventNormalizerSpec.
Import EventNormalizer.

(** The event with its [timestamp] replaced. *)
Definition with_timestamp (t : Z) (ev : NormalizedEvent) : NormalizedEvent :=
  {| ne_id := ne_id ev; ne_signature := ne_signature ev; ne_timestamp := t;
     ne_blockTime := ne_blockTime ev; ne_blockHeight := ne_blockHeight ev;
     ne_slot := ne_slot ev; ne_status := ne_status ev; ne_from := ne_from ev;
     ne_to := ne_to ev; ne_type := ne_type ev; ne_subType := ne_subType ev;
     ne_amount := ne_amount ev; ne_mint := ne_mint ev;
     ne_programId := ne_programId ev; ne_instructions := ne_instructions ev;
     ne_fee := ne_fee ev; ne_feePayerAddress := ne_feePayerAddress ev;
     ne_raw := ne_raw ev; ne_metadata := ne_metadata ev |}.

(** [blockTime] is truthy: present and not 0. *)
Definition hasBlockTime (tx : ParsedTransactionWithMeta) : bool :=
  match blockTime tx with
  | Some t => negb (t =? 0)%Z
  | None => false
  end.

(** The value is an object with a member of its own called [toString],
    or an array that holds such a value. *)
Fixpoint opaque (j : json) : bool :=
  match j with
  | JObj members =>
      match assoc "toString" members with
      | Some _ => true
      | None => false
      end
  | JArr items =>
      (fix any (l : list json) : bool :=
         match l with
         | [] => false
         | x :: rest => opaque x || any rest
         end) items
  | _ => false
  end.

(** The optional value is absent or not opaque: [v?.toString()] returns
    ([renders_spec]). *)
Definition renders (v : option json) : bool :=
  match v with
  | Some j => negb (opaque j)
  | None => true
  end.

(** The members of a payload that the classification converts to
    strings all render. *)
Definition rendersPayload (parsed : json) : bool :=
  renders (prop parsed "source")
  && renders (prop parsed "destination")
  && renders (prop parsed "lamports")
  && renders (opt_prop (prop parsed "tokenAmount") "amount")
  && renders (prop parsed "amount")
  && renders (prop parsed "mint").

(** The payload of the first instruction, if it has one, renders. *)
Definition rendersFirst (tx : ParsedTransactionWithMeta) : bool :=
  match head (instructions (message (transaction tx))) with
  | Some (ParsedInstruction _ _ parsed) => rendersPayload parsed
  | _ => true
  end.

(** A transaction of one system transfer with the given payload
    members beside its type. *)
Definition systemTransferTx (members : list (string * json))
    : ParsedTransactionWithMeta :=
  {| slot := 7; blockTime := Some 10%Z; meta := None;
     transaction :=
       {| signatures := ["sig"];
          message :=
            {| recentBlockhash := "hash";
               accountKeys := [{| pubkey := "Payer"; signer := true; writable := true |}];
               instructions :=
                 [ParsedInstruction "system" "11111111111111111111111111111111"
                    (JObj (("type", JStr "transfer") :: members))] |} |} |}.

(** A system transfer whose source is the object [{"toString": 1}]. *)
Definition opaqueSourceTx : ParsedTransactionWithMeta :=
  systemTransferTx
    [("source", JObj [("toString", JNum 1)]); ("destination", JStr "Bob");
     ("lamports", JNum 5000000)].

(** A transaction of one instruction of an undecoded program, with the
    given block time. *)
Definition undecodedTx (bt : option Z) : ParsedTransactionWithMeta :=
  {| slot := 42; blockTime := bt;
     meta := Some {| fee := 5000; err := JNull |};
     transaction :=
       {| signatures := ["sig"];
          message :=
            {| recentBlockhash := "hash";
               accountKeys := [{| pubkey := "Payer"; signer := true; writable := true |}];
               instructions :=
                 [PartiallyDecodedInstruction "Prog1111" ["Payer"] "3Bxs4h24hBtQy9rw"] |} |} |}.

End EventNormalizerSpec.

(** ** Event broadcaster *)

Module EventBroadcasterSpec.
Import EventBroadcaster.

(** Sockets used by the examples: an open one, a closed one, one whose
    [send] raises. *)
Definition openSocket : WebSocket :=
  {| readyState := OPEN; sendThrows := false; closeThrows := false;
     inbox := []; closeCalls := [] |}.

Definition closedSocket : WebSocket :=
  {| readyState := CLOSED; sendThrows := false; closeThrows := false;
     inbox := []; closeCalls := [] |}.

Definition brokenSocket : WebSocket :=
  {| readyState := OPEN; sendThrows := true; closeThrows := true;
     inbox := []; closeCalls := [] |}.

(** Socket 0 is closed, socket 3 raises, the others are open. *)
Definition exampleSockets (r : nat) : WebSocket :=
  match r with
  | 0 => closedSocket
  | 3 => brokenSocket
  | _ => openSocket
  end.

Definition exampleOptions (size retries : Z) : Options :=
  {| opt_maxQueueSize := Some size; opt_maxRetries := Some retries |}.

(** Three clients: "a" on the closed socket, "b" and "c" on open ones. *)
Definition threeClients (size retries : Z) : State :=
  run [RegisterClient "a" 0 None;
       RegisterClient "b" 1 (Some ["vip"]);
       RegisterClient "c" 2 None]
    (constructor (exampleOptions size retries) exampleSockets 1000).

(** Whether [sendToClient] delivers to [cid]: the id is registered, the
    payload serializes, the socket is open and its [send] does not raise. *)
Definition deliverable (st : State) (data : Data) (cid : string) : bool :=
  match JsMap.get cid (clients st), data with
  | Some client, Serializable _ =>
      is_open (readyState (sockets st (ws client)))
      && negb (sendThrows (sockets st (ws client)))
  | _, _ => false
  end.

(** Whether a send to [cid] lands in the socket object [r]. *)
Definition deliversTo (st : State) (data : Data) (r : nat) (cid : string) : bool :=
  deliverable st data cid
  && match JsMap.get cid (clients st) with
     | Some client => Nat.eqb (ws client) r
     | None => false
     end.

(** [n] copies of the frame of a payload, none if it does not serialize. *)
Definition framesOf (type : string) (data : Data) (t : Z) (n : nat) : list Frame :=
  match JSON_stringify type data t with
  | Some f => replicate n f
  | None => []
  end.

Definition targetsOf (b : QueuedBroadcast) : list string :=
  default [] (targetClients b).

Definition sentCountOf (st : State) (b : QueuedBroadcast) : nat :=
  length (List.filter (deliverable st (qb_data b)) (targetsOf b)).

Definition failedCountOf (st : State) (b : QueuedBroadcast) : nat :=
  length (List.filter (fun c => negb (deliverable st (qb_data b) c)) (targetsOf b)).

(** The registry maps the same ids to the same sockets, and the sockets
    are in the same condition. *)
Definition same_sinks (st st' : State) : Prop :=
  (forall cid, ws <$> JsMap.get cid (clients st') = ws <$> JsMap.get cid (clients st))
  /\ (forall r, readyState (sockets st' r) = readyState (sockets st r)
                /\ sendThrows (sockets st' r) = sendThrows (sockets st r)).

(** What every part of a sweep leaves alone. *)
Record calm (st st' : State) : Prop := {
  calm_clock : clock st' = clock st;
  calm_maxQueueSize : maxQueueSize st' = maxQueueSize st;
  calm_maxRetries : maxRetries st' = maxRetries st;
  calm_interval : queueProcessingInterval st' = queueProcessingInterval st;
  calm_sinks : same_sinks st st';
  calm_emitted : exists new, emitted st' = (emitted st ++ new)%list;
}.

Inductive Outcome :=
| Completed (sentCount : nat)
| Retried
| Dropped (failedCount : nat).

Definition outcome (st : State) (b : QueuedBroadcast) : Outcome :=
  if (0 <? failedCountOf st b)%nat then
    if (retryCount b + 1 >=? qb_maxRetries b)%Z then Dropped (failedCountOf st b)
    else Retried
  else Completed (sentCountOf st b).

(** The notification that goes with an outcome. *)
Definition notification (bid : string) (b : QueuedBroadcast) (o : Outcome)
    : option Emitted :=
  match o with
  | Completed sent => Some (broadcast_completed bid (qb_type b) sent)
  | Retried => None
  | Dropped failedCount =>
      Some (broadcast_max_retries_exceeded bid (qb_type b) failedCount)
  end.

(** [e] is emitted between [st] and [st']. *)
Definition emits (st st' : State) (e : Emitted) : Prop :=
  exists pre post, emitted st' = (emitted st ++ pre ++ e :: post)%list.

(** The removal of the broadcasts that ran out of retries. *)
Definition dropFailed (failedBroadcasts : list string) (st : State) : State :=
  fold_left
    (fun s broadcastId =>
       with_messageQueue (JsMap.delete broadcastId (messageQueue s)) s)
    failedBroadcasts st.

(** The tally the specification describes: failures among the targets
    that are still registered. *)
Definition claimedFailureTally (st : State) (b : QueuedBroadcast) : nat :=
  length
    (List.filter
       (fun c => JsMap.has c (clients st) && negb (deliverable st (qb_data b) c))
       (targetsOf b)).

(** A client registers on an open socket, a broadcast to all is queued,
    and the client leaves before the first sweep. *)
Definition clientLeft : State :=
  run [RegisterClient "ghost" 1 None;
       Broadcast "b-1" "event" (Serializable "{}");
       UnregisterClient "ghost"]
    (constructor (exampleOptions 10 3) exampleSockets 1000).

Definition ghostBroadcast : QueuedBroadcast :=
  {| qb_id := "b-1"; qb_type := "event"; qb_data := Serializable "{}";
     qb_timestamp := None; targetClients := Some ["ghost"];
     retryCount := 0; qb_maxRetries := 3 |}.

Definition withRetry (k : Z) (b : QueuedBroadcast) : QueuedBroadcast :=
  {| qb_id := qb_id b; qb_type := qb_type b; qb_data := qb_data b;
     qb_timestamp := qb_timestamp b; targetClients := targetClients b;
     retryCount := k; qb_maxRetries := qb_maxRetries b |}.

(** The sink of a registry entry accepts a send. *)
Definition healthy (st : State) (cl : Client) : bool :=
  is_open (readyState (sockets st (ws cl)))
  && negb (sendThrows (sockets st (ws cl))).

Definition frameAt (type text : string) (t : Z) : Frame :=
  {| fr_type := type; fr_data := text; fr_timestamp := t |}.

Definition exampleClient (cid : string) (w : nat) (tgs : list string) : Client :=
  {| ws := w;
     metadata := {| id := cid; joinedAt := 1000; lastMessageAt := None;
                    tags := Some tgs |} |}.

End EventBroadcasterSpec.

(** ** Event broadcaster: registry and queue invariants *)

Module EventBroadcasterInvariants.
Import EventBroadcaster.

(** What a registry entry keeps for as long as the id stays registered:
    everything but [lastMessageAt]. *)
Definition static_part (c : Client) : nat * string * Z * option (list string) :=
  (ws c, id (metadata c), joinedAt (metadata c), tags (metadata c)).

(** The [try] block of [sendToClient] raises: the id is registered and
    either the payload does not serialize, whatever the state of the
    socket (serialization comes before the look at the socket), or the
    socket is open and its [send] throws. *)
Definition raisesOnSend (st : State) (data : Data) (cid : string) : bool :=
  match JsMap.get cid (clients st) with
  | None => false
  | Some client =>
      match data with
      | Unserializable => true
      | Serializable _ =>
          is_open (readyState (sockets st (ws client)))
          && sendThrows (sockets st (ws client))
      end
  end.

(** The client carries the tag. *)
Definition hasTag (tag : string) (c : Client) : bool :=
  match tags (metadata c) with
  | Some t => JsSet.has tag t
  | None => false
  end.

(** What holds of every queued broadcast: it is filed under its own id,
    it has a target set, its retry budget is the configured one, and its
    retry count is that of a broadcast still entitled to a sweep. *)
Definition queued_ok (st : State) (k : string) (b : QueuedBroadcast) : Prop :=
  qb_id b = k
  /\ targetClients b <> None
  /\ qb_maxRetries b = maxRetries st
  /\ (0 <= retryCount b)%Z
  /\ (0 < maxRetries st -> retryCount b < maxRetries st)%Z.

Definition queueInv (st : State) : Prop :=
  JsMap.wf (messageQueue st) = true
  /\ forall k b, JsMap.get k (messageQueue st) = Some b -> queued_ok st k b.

(** The targets of a broadcast that are registered on socket [r]. *)
Definition targetsOn (st : State) (b : QueuedBroadcast) (r : nat) : list string :=
  List.filter
    (fun c => match JsMap.get c (clients st) with
              | Some cl => Nat.eqb (ws cl) r
              | None => false
              end)
    (default [] (targetClients b)).

(** The same ids are registered, in the same order, with the same
    sockets, join times and tags. *)
Definition same_registry (st st' : State) : Prop :=
  JsMap.keys (clients st') = JsMap.keys (clients st)
  /\ forall cid,
       static_part <$> JsMap.get cid (clients st')
       = static_part <$> JsMap.get cid (clients st).

(** What holds of every registry entry: its metadata names the id it is
    filed under, and its tags are a set. *)
Definition client_ok (cid : string) (cl : Client) : Prop :=
  id (metadata cl) = cid
  /\ exists t, tags (metadata cl) = Some t /\ NoDup t.

Definition registryInv (st : State) : Prop :=
  JsMap.wf (clients st) = true
  /\ forall cid cl, JsMap.get cid (clients st) = Some cl -> client_ok cid cl.

End EventBroadcasterInvariants.

(** ** Event normalizer: classification and ordering *)

Module EventNormalizerVocabulary.
Import EventNormalizer EventNormalizerOps EventNormalizerSpec.

(** The fields the classification decides. *)
Definition classificationOf (ev : NormalizedEvent)
    : EventType * option string * string * option string * option string
      * option string * string :=
  (ne_type ev, ne_subType ev, ne_from ev, ne_to ev, ne_amount ev, ne_mint ev,
   ne_programId ev).

Definition instructionProgramId (i : Instruction) : string :=
  match i with
  | ParsedInstruction _ programId _ => programId
  | PartiallyDecodedInstruction programId _ _ => programId
  end.

(** The fee payer of a transaction, as [normalizeTransaction] reads it. *)
Definition feePayerOf (tx : ParsedTransactionWithMeta) : string :=
  Js.or_string (pubkey <$> head (accountKeys (message (transaction tx)))) "unknown".

(** A transfer of 5000000 lamports from "Alice" to "Bob", paid by
    "Payer", with the members at the top level of the payload. *)
Definition transferTx : ParsedTransactionWithMeta :=
  systemTransferTx
    [("source", JStr "Alice"); ("destination", JStr "Bob");
     ("lamports", JNum 5000000)].

(** The same transfer of [2 ^ 64] lamports. *)
Definition largeTransferTx : ParsedTransactionWithMeta :=
  systemTransferTx
    [("source", JStr "Alice"); ("destination", JStr "Bob");
     ("lamports", JNum (2 ^ 64))].

(** The members of the metadata of an event; none when it has no
    [metadata]. *)
Definition metadataOf (ev : NormalizedEvent) : list (string * json) :=
  default [] (ne_metadata ev).

(** The event with its [metadata] replaced. *)
Definition with_metadata (m : option (list (string * json)))
    (ev : NormalizedEvent) : NormalizedEvent :=
  {| ne_id := ne_id ev; ne_signature := ne_signature ev;
     ne_timestamp := ne_timestamp ev; ne_blockTime := ne_blockTime ev;
     ne_blockHeight := ne_blockHeight ev; ne_slot := ne_slot ev;
     ne_status := ne_status ev; ne_from := ne_from ev; ne_to := ne_to ev;
     ne_type := ne_type ev; ne_subType := ne_subType ev;
     ne_amount := ne_amount ev; ne_mint := ne_mint ev;
     ne_programId := ne_programId ev; ne_instructions := ne_instructions ev;
     ne_fee := ne_fee ev; ne_feePayerAddress := ne_feePayerAddress ev;
     ne_raw := ne_raw ev; ne_metadata := m |}.

(** An event of a transfer with the given [metadata]. *)
Definition transferEvent (metadata : option (list (string * json)))
    : NormalizedEvent :=
  {| ne_id := "sig-7"; ne_signature := "sig"; ne_timestamp := 10000;
     ne_blockTime := 10; ne_blockHeight := None; ne_slot := 7;
     ne_status := success; ne_from := "Alice"; ne_to := Some "Bob";
     ne_type := TRANSFER; ne_subType := None; ne_amount := Some "5000000";
     ne_mint := None; ne_programId := "11111111111111111111111111111111";
     ne_instructions := []; ne_fee := 0; ne_feePayerAddress := "Payer";
     ne_raw := None; ne_metadata := metadata |}.

(** [a] may stand before [b] in the result of [sortByTimestamp]. *)
Definition inOrder (ascending : bool) (a b : NormalizedEvent) : Prop :=
  if ascending then (ne_timestamp a <= ne_timestamp b)%Z
  else (ne_timestamp b <= ne_timestamp a)%Z.

(** The events of a list that carry a given timestamp, in list order. *)
Definition stampedAt (t : Z) (l : list NormalizedEvent) : list NormalizedEvent :=
  List.filter (fun e => (ne_timestamp e =? t)%Z) l.

End EventNormalizerVocabulary.

(** ** Risk engine: the inputs of the three factors *)

Module RiskEngineVocabulary.
Import RiskEngine.

Local Open Scope float_scope.

(** [eventData.amount ?? 0] and [eventData.programId ?? ''], the
    arguments [evaluateEvent] hands to the factors. *)
Definition amountOf (eventData : EventData) : float :=
  default 0 (amount eventData).

Definition programOf (eventData : EventData) : string :=
  default "" (programId eventData).

(** The amount takes the branch of a large amount: it is not zero and
    exceeds [MAX_SAFE_AMOUNT]. *)
Definition largeAmount (a : float) : bool :=
  negb (PrimFloat.eqb a 0) && PrimFloat.ltb MAX_SAFE_AMOUNT a.

(** The factors with a given value. *)
Definition amountFactor (v a : float) : RiskFactor :=
  {| name := "Amount Risk"; weight := 0.3; value := v;
     description := AmountDescription a |}.

Definition programFactor (v : float) (p : string) : RiskFactor :=
  {| name := "Program Risk"; weight := 0.35; value := v;
     description := ProgramDescription p |}.

Definition eventTypeFactor (v : float) (ty : string) : RiskFactor :=
  {| name := "Event Type Risk"; weight := 0.35; value := v;
     description := EventTypeDescription ty |}.

End RiskEngineVocabulary.

(* ===================================================================== *)
(** * Part III: properties                                                *)
(* ===================================================================== *)

(** ** Risk engine *)

Module RiskEngineProps.
Import RiskEngine RiskEngineSpec.

Local Open Scope float_scope.

(** [evaluateAmount] itself does what its documentation says: no factor
    for a missing amount. *)
Lemma evaluateAmount_absent : evaluateAmount None = None.
Proof. reflexivity. Qed.

(** [evaluateEvent] never hands a missing amount over: it substitutes 0
    first, so the result is that of the same event with amount 0. *)
Lemma evaluateEvent_absent_amount now sig ts pid ty snd rcv :
  evaluateEvent now
    {| signature := sig; ev_timestamp := ts; amount := None; programId := pid;
       eventType := ty; sender := snd; receiver := rcv |}
  = evaluateEvent now
    {| signature := sig; ev_timestamp := ts; amount := Some 0; programId := pid;
       eventType := ty; sender := snd; receiver := rcv |}.
Proof. reflexivity. Qed.

(** The amount factor is always the first factor of the result. *)
Lemma evaluateEvent_amount_factor now ev :
  exists f rest,
    factors (evaluateEvent now ev) = f :: rest /\ name f = "Amount Risk".
Proof.
  unfold evaluateEvent. cbn [evaluateAmount accumulate].
  destruct (evaluateProgram (default "" (programId ev))) as [p|];
    cbn [accumulate]; eexists; eexists; split; reflexivity.
Qed.

(** C2. On an event without [amount], with program "unknown" and type
    "flash_loan", [evaluateEvent] scores the amount as if it were zero:
    the result carries three factors, the first being the amount factor
    with value 0.1, the score is 0.555 and the level MEDIUM; the
    weighted mean over the factors that are present, which leaves the
    amount out of numerator and denominator, is 0.75 (up to rounding)
    and its level is HIGH. *)
Theorem C2_absent_amount_is_scored_as_zero :
  forall now sig ts snd rcv,
    let ev := flashLoanEvent sig ts None snd rcv in
    let r := evaluateEvent now ev in
    let expected := weightedMeanOverPresent now ev in
    (name <$> factors r = ["Amount Risk"; "Program Risk"; "Event Type Risk"]
     /\ value <$> head (factors r) = Some 0.1
     /\ score r = 0.555
     /\ level r = MEDIUM)
    /\ (name <$> factors expected = ["Program Risk"; "Event Type Risk"]
        /\ PrimFloat.leb 0.7 (score expected) = true
        /\ PrimFloat.ltb (score expected) 0.8 = true
        /\ level expected = HIGH)
    /\ r <> expected.
Proof.
  intros now sig ts snd rcv ev r expected.
  split; [|split].
  - vm_compute. repeat split; reflexivity.
  - vm_compute. repeat split; reflexivity.
  - intros Heq. apply (f_equal level) in Heq. vm_compute in Heq. discriminate Heq.
Qed.

(** C3. For amount = 0, programId = "unknown" and eventType =
    "flash_loan" the code does not reach the score the claim states: the
    zero amount, announced as suspicious, is valued 0.1 like a normal
    amount, so the three factors 0.1, 0.7 and 0.8 with weights 0.3, 0.35
    and 0.35 combine to 0.555, below 0.7, and the level is MEDIUM. With
    the zero amount penalized like the very large one the same mean is
    at least 0.7 and the level HIGH, as the claim says. *)
Theorem C3_zero_amount_unknown_flash_loan :
  forall now sig ts snd rcv,
    let ev := flashLoanEvent sig ts (Some 0) snd rcv in
    let r := evaluateEvent now ev in
    let expected := zeroAmountPenalized now ev in
    (value <$> factors r = [0.1; 0.7; 0.8]
     /\ weight <$> factors r = [0.3; 0.35; 0.35]
     /\ score r = 0.555
     /\ PrimFloat.ltb (score r) 0.7 = true
     /\ level r = MEDIUM
     /\ ~ scoresHigh r)
    /\ value <$> evaluateAmount (Some 0) = value <$> evaluateAmount (Some 1000)
    /\ (value <$> factors expected = [0.8; 0.7; 0.8]
        /\ weight <$> factors expected = [0.3; 0.35; 0.35]
        /\ scoresHigh expected
        /\ level expected = HIGH).
Proof.
  intros now sig ts snd rcv ev r expected. split; [|split].
  - assert (PrimFloat.ltb (score r) 0.7 = true) as Hlow by (by vm_compute).
    repeat match goal with |- _ /\ _ => split end; try (by vm_compute).
    intros [Hscore _]. vm_compute in Hscore. discriminate Hscore.
  - by vm_compute.
  - repeat match goal with |- _ /\ _ => split end; try (by vm_compute).
    split; [by vm_compute|by left; vm_compute].
Qed.

End RiskEngineProps.

(** ** Event normalizer *)

Module EventNormalizerProps.
Import EventNormalizer EventNormalizerSpec.

(** Case analysis on the conditions and on the conversions of
    [determineEventType]. *)
Ltac branches :=
  repeat match goal with
         | |- context [if ?b then _ else _] => destruct b eqn:?
         | |- context [mbind _ ?m] =>
             match m with
             | Js.Returns _ => fail 1
             | Js.ThrowsTypeError => fail 1
             | _ => destruct m eqn:?
             end; cbn [mbind Js.Completion_bind]
         | |- context [match ?o with Some _ => _ | None => _ end] =>
             is_var o; destruct o
         end.

(** Whatever the instructions are, a source address other than the fee
    payer is taken only by the two transfer classifications. *)
Lemma determineEventType_from instrs keys payer c :
  determineEventType instrs keys payer = Js.Returns c ->
  c_type c <> TRANSFER -> c_type c <> TOKEN_TRANSFER -> c_from c = payer.
Proof.
  unfold determineEventType.
  destruct (head instrs) as [p|]; [|by intros [= <-]].
  destruct (ie_parsed p) as [parsed|]; [|by intros [= <-]].
  branches; cbn [mbind Js.Completion_bind]; intros [= <-]; cbn; congruence.
Qed.

Lemma determineEventType_undecoded i rest keys payer :
  unrecognized i = true ->
  exists c,
    determineEventType (processInstructions (i :: rest) (pubkey <$> keys)) keys payer
    = Js.Returns c
    /\ c_type c = UNKNOWN /\ c_from c = payer /\ c_to c = None
    /\ c_amount c = None /\ c_mint c = None.
Proof.
  destruct i as [program pid parsed | pid accounts data];
    [|intros _; eexists; split; [reflexivity|done]].
  cbn [unrecognized]. unfold determineEventType, processInstructions.
  cbn [imap head processInstruction fmap option_fmap option_map ie_parsed ie_type
       ie_programId].
  destruct (truthy parsed) eqn:Htruthy;
    [|intros _; eexists; split; [reflexivity|done]].
  cbn [negb orb]. rewrite Htruthy. cbn [negb].
  intros [[Hname Htoken]%andb_true_iff Hmeta]%andb_true_iff.
  apply negb_true_iff in Htoken, Hmeta. rewrite Htoken, Hmeta.
  apply orb_true_iff in Hname as [->%String.eqb_eq | ->%String.eqb_eq];
    eexists; (split; [reflexivity|done]).
Qed.

(** Induction on a JSON value, with the property at hand for the
    elements of an array. *)
Section json_induction.
Variable P : json -> Prop.
Hypothesis Hnull : P JNull.
Hypothesis Hbool : forall b, P (JBool b).
Hypothesis Hnum : forall n, P (JNum n).
Hypothesis Hstr : forall s, P (JStr s).
Hypothesis Harr : forall items, Forall P items -> P (JArr items).
Hypothesis Hobj : forall members, P (JObj members).

Fixpoint json_elements_ind (j : json) : P j :=
  match j with
  | JNull => Hnull
  | JBool b => Hbool b
  | JNum n => Hnum n
  | JStr s => Hstr s
  | JArr items =>
      Harr items
        ((fix elements (l : list json) : Forall P l :=
            match l with
            | [] => List.Forall_nil P
            | x :: rest =>
                List.Forall_cons P x rest (json_elements_ind x) (elements rest)
            end) items)
  | JObj members => Hobj members
  end.
End json_induction.

(** The conversion of a value other than [null] throws exactly when the
    value is opaque. *)
Lemma toString_throws j :
  j <> JNull -> (toString j = Js.ThrowsTypeError <-> opaque j = true).
Proof.
  induction j as [|[|]|n|s|items IH|members] using json_elements_ind;
    intros Hnull; try done.
  - clear Hnull. cbn [toString opaque].
    induction IH as [|x rest IHx _ IHrest]; [done|].
    assert ((match x with
             | JNull => Js.Returns ""
             | _ => toString x
             end = Js.ThrowsTypeError) <-> opaque x = true) as Hx.
    { destruct x as [| | | | |]; try apply IHx; done. }
    rewrite orb_true_iff, <- Hx, <- IHrest. clear IHx IHrest Hx.
    destruct (match x with JNull => Js.Returns "" | _ => toString x end) as [sx|];
      cbn [mbind Js.Completion_bind]; [|by split; [left|]].
    destruct rest as [|y rest]; [by split; [|intros [|]]|].
    match goal with
    | |- context [mbind _ ?m] => destruct m as [srest|]
    end; cbn [mbind Js.Completion_bind]; [by split; [|intros [|]]|by split; [right|]].
  - cbn. by destruct (assoc "toString" members).
Qed.

(** [v?.toString()] returns exactly when [v] renders. *)
Lemma renders_spec v :
  renders v = match opt_toString v with
              | Js.Returns _ => true
              | Js.ThrowsTypeError => false
              end.
Proof.
  symmetry. unfold renders, opt_toString. destruct v as [j|]; [|done].
  assert (j <> JNull ->
          match Some <$> toString j with
          | Js.Returns _ => true
          | Js.ThrowsTypeError => false
          end = negb (opaque j)) as H.
  { intros [Hthrows Hopaque]%toString_throws.
    destruct (toString j) as [s|]; cbn.
    - destruct (opaque j); [|done]. by discriminate Hopaque.
    - by rewrite Hthrows. }
  destruct j as [| | | | |]; try (by apply H); done.
Qed.

(** Conversions that render return. *)
Lemma renders_returns v :
  renders v = true -> exists s, opt_toString v = Js.Returns s.
Proof.
  rewrite renders_spec. destruct (opt_toString v) as [s|]; [by exists s|done].
Qed.

Lemma tokenAmountOf_returns parsed :
  renders (opt_prop (prop parsed "tokenAmount") "amount") = true ->
  renders (prop parsed "amount") = true ->
  exists s, tokenAmountOf parsed = Js.Returns s.
Proof.
  intros [s1 H1]%renders_returns [s2 H2]%renders_returns.
  unfold tokenAmountOf. rewrite H1, H2. cbn [mbind Js.Completion_bind].
  destruct s1 as [s|]; [destruct (Js.truthy_string s)|]; eauto.
Qed.

(** [determineEventType] returns when the members it converts render. *)
Lemma determineEventType_returns instrs keys payer :
  match ie_parsed <$> head instrs with
  | Some (Some parsed) => rendersPayload parsed = true
  | _ => True
  end ->
  exists c, determineEventType instrs keys payer = Js.Returns c.
Proof.
  unfold determineEventType.
  destruct (head instrs) as [p|]; [|by eexists].
  cbn [fmap option_fmap option_map].
  destruct (ie_parsed p) as [parsed|]; [|by eexists].
  unfold rendersPayload.
  intros Hr.
  repeat match goal with
         | H : _ && _ = true |- _ => apply andb_true_iff in H as [? ?]
         end.
  destruct (tokenAmountOf_returns parsed) as [a Ea]; [assumption|assumption|].
  repeat match goal with
         | H : renders _ = true |- _ => apply renders_returns in H as [? ?]
         end.
  repeat match goal with
         | |- context [if ?b then _ else _] => destruct b
         end;
    repeat match goal with
           | H : _ = Js.Returns _ |- _ => rewrite H; clear H
           end;
    cbn [mbind Js.Completion_bind]; by eexists.
Qed.

(** The first payload of the events of [processInstructions]. *)
Lemma processInstructions_first_payload instrs keys :
  match ie_parsed <$> head (processInstructions instrs keys) with
  | Some (Some parsed) =>
      exists program pid, head instrs = Some (ParsedInstruction program pid parsed)
  | _ => True
  end.
Proof.
  destruct instrs as [|[program pid parsed|pid accounts data] rest]; cbn; [done| |done].
  destruct (truthy parsed); [by eexists _, _|done].
Qed.

Lemma normalizeTransaction_returns now tx sig :
  rendersFirst tx = true -> exists ev, normalizeTransaction now tx sig = Js.Returns ev.
Proof.
  unfold rendersFirst, normalizeTransaction. intros Hr.
  match goal with
  | |- context [determineEventType ?i ?k ?p] =>
      destruct (determineEventType_returns i k p) as [c Hc]
  end.
  - match goal with
    | |- context [processInstructions ?i ?k] =>
        pose proof (processInstructions_first_payload i k) as Hp
    end.
    destruct (ie_parsed <$> head _) as [[parsed|]|]; [|done|done].
    destruct Hp as (program & pid & Hh). by rewrite Hh in Hr.
  - rewrite Hc. by eexists.
Qed.

(** What a returned event is made of. *)
Lemma normalizeTransaction_inv now tx sig ev :
  normalizeTransaction now tx sig = Js.Returns ev ->
  let keys := accountKeys (message (transaction tx)) in
  let instrs :=
    processInstructions (instructions (message (transaction tx))) (pubkey <$> keys) in
  exists c,
    determineEventType instrs keys (Js.or_string (pubkey <$> head keys) "unknown")
    = Js.Returns c
    /\ ev = eventOf now tx sig instrs c.
Proof.
  unfold normalizeTransaction.
  destruct (determineEventType _ _ _) as [c|]; [|done].
  cbn [mbind Js.Completion_bind]. intros [= <-]. by exists c.
Qed.

(** The clock enters the result through [timestamp] only. *)
Lemma normalizeTransaction_clock now now' tx sig ev :
  normalizeTransaction now tx sig = Js.Returns ev ->
  normalizeTransaction now' tx sig
  = Js.Returns (with_timestamp (if hasBlockTime tx then ne_timestamp ev else now') ev).
Proof.
  unfold normalizeTransaction, hasBlockTime.
  destruct (determineEventType _ _ _) as [c|]; [|done].
  cbn [mbind Js.Completion_bind]. intros [= <-]. f_equal.
  unfold eventOf, with_timestamp. cbn.
  destruct (blockTime tx) as [t|]; [|done]. by destruct (t =? 0)%Z.
Qed.

Lemma normalizeTransaction_blockTime now now' tx sig :
  hasBlockTime tx = true ->
  normalizeTransaction now' tx sig = normalizeTransaction now tx sig.
Proof.
  unfold hasBlockTime, normalizeTransaction, eventOf. intros Hbt.
  destruct (blockTime tx) as [t|]; [|discriminate].
  destruct (t =? 0)%Z; [discriminate|reflexivity].
Qed.

(** The claim fails twice. The same transaction and signature,
    normalized at two readings of the clock, give two different events;
    and a system transfer whose source is an object with a member of its
    own called [toString] makes [normalizeTransaction] throw. *)
Lemma C7_counterexample :
  normalizeTransaction 1700000000000 (undecodedTx None) "sig"
  <> normalizeTransaction 1700000000001 (undecodedTx None) "sig"
  /\ normalizeTransaction 1700000000000 opaqueSourceTx "sig" = Js.ThrowsTypeError.
Proof.
  split; [|reflexivity].
  intros Heq. vm_compute in Heq. discriminate Heq.
Qed.

(** C7 (amended). [normalizeTransaction] returns an event, without
    throwing, for every transaction in which the members of the first
    payload that it converts to strings render ([rendersFirst]: each of
    source, destination, lamports, the token amount, amount and mint is
    absent, or is neither an object with a member of its own called
    [toString] nor an array that holds one), and for every transaction
    whose first instruction belongs to no recognized program
    ([unrecognized]): the event then has type [unknown] and [from] is
    the fee payer's address. The event it returns is determined by the
    transaction and the signature in every field but [timestamp], and in
    [timestamp] too when the transaction carries a non-zero [blockTime];
    without one, [timestamp] is the reading of the clock. *)
Theorem C7_normalize_total_and_degrades :
  forall now tx sig,
    (rendersFirst tx = true ->
     exists ev, normalizeTransaction now tx sig = Js.Returns ev)
    /\ (forall i rest,
           instructions (message (transaction tx)) = i :: rest ->
           unrecognized i = true ->
           exists ev,
             normalizeTransaction now tx sig = Js.Returns ev
             /\ ne_type ev = UNKNOWN /\ ne_from ev = ne_feePayerAddress ev)
    /\ (forall ev,
           normalizeTransaction now tx sig = Js.Returns ev ->
           (forall now',
               normalizeTransaction now' tx sig
               = Js.Returns
                   (with_timestamp
                      (if hasBlockTime tx then ne_timestamp ev else now') ev))
           /\ (hasBlockTime tx = true ->
               forall now', normalizeTransaction now' tx sig = Js.Returns ev)
           /\ (hasBlockTime tx = false -> ne_timestamp ev = now)).
Proof.
  intros now tx sig. split; [|split].
  - apply normalizeTransaction_returns.
  - intros i rest Hi Hun. unfold normalizeTransaction. rewrite Hi.
    destruct (determineEventType_undecoded i rest
                (accountKeys (message (transaction tx)))
                (Js.or_string (pubkey <$> head (accountKeys (message (transaction tx))))
                   "unknown")
                Hun) as (c & -> & Ht & Hf & _).
    eexists. split; [reflexivity|]. split; assumption.
  - intros ev Hev. split; [|split].
    + intros now'. by apply (normalizeTransaction_clock now).
    + intros Hbt now'. by rewrite (normalizeTransaction_blockTime now now').
    + revert Hev. unfold hasBlockTime, normalizeTransaction.
      destruct (determineEventType _ _ _) as [c|]; [|done].
      cbn [mbind Js.Completion_bind]. intros [= <-]. cbn.
      destruct (blockTime tx) as [t|]; [|reflexivity].
      destruct (t =? 0)%Z; [reflexivity|discriminate].
Qed.

Lemma C7_witness :
  let tx := undecodedTx (Some 1700000000%Z) in
  exists ev,
    normalizeTransaction 5 tx "sig" = Js.Returns ev
    /\ normalizeTransaction 6 tx "sig" = Js.Returns ev
    /\ ne_type ev = UNKNOWN /\ ne_from ev = "Payer" /\ ne_feePayerAddress ev = "Payer".
Proof.
  intros tx.
  destruct (C7_normalize_total_and_degrades 5 tx "sig") as (Hret & Hun & Hclock).
  destruct (Hret eq_refl) as [ev Hev].
  destruct (Hun _ _ eq_refl eq_refl) as (ev' & Hev' & Ht & Hf).
  destruct (Hclock ev Hev) as (_ & Hbt & _).
  exists ev. split; [exact Hev|]. split; [apply Hbt; reflexivity|].
  assert (ev' = ev) as -> by congruence.
  split; [exact Ht|].
  assert (ne_feePayerAddress ev = "Payer") as Hp.
  { revert Hev. vm_compute. by intros [= <-]. }
  split; [congruence|exact Hp].
Defined.

End EventNormalizerProps.

(** ** Insertion-ordered maps *)

Module JsMapFacts.

Abbreviation wf := JsMap.wf.

Section Facts.
Context {V : Type}.
Implicit Types (m : list (string * V)) (k : string) (v : V).

Lemma get_set_eq k v m : JsMap.get k (JsMap.set k v m) = Some v.
Proof.
  induction m as [|[k' v'] m IH]; cbn.
  - by rewrite String.eqb_refl.
  - destruct (String.eqb_spec k k') as [->|Hne]; cbn.
    + by rewrite String.eqb_refl.
    + destruct (String.eqb_spec k k'); [done|exact IH].
Qed.

Lemma get_set_ne k k' v m : k <> k' -> JsMap.get k' (JsMap.set k v m) = JsMap.get k' m.
Proof.
  intros Hne. induction m as [|[k0 v0] m IH]; cbn.
  - destruct (String.eqb_spec k' k); [congruence|done].
  - destruct (String.eqb_spec k k0) as [->|Hk]; cbn.
    + destruct (String.eqb_spec k' k0); [congruence|done].
    + destruct (String.eqb_spec k' k0); [done|exact IH].
Qed.

Lemma get_delete_eq k m : JsMap.get k (JsMap.delete k m) = None.
Proof.
  induction m as [|[k' v'] m IH]; cbn; [done|].
  destruct (String.eqb_spec k k') as [->|Hne]; cbn; [exact IH|].
  destruct (String.eqb_spec k k'); [done|exact IH].
Qed.

Lemma get_delete_ne k k' m : k <> k' -> JsMap.get k' (JsMap.delete k m) = JsMap.get k' m.
Proof.
  intros Hne. induction m as [|[k0 v0] m IH]; cbn; [done|].
  destruct (String.eqb_spec k k0) as [->|Hk]; cbn.
  - destruct (String.eqb_spec k' k0); [congruence|exact IH].
  - destruct (String.eqb_spec k' k0); [done|exact IH].
Qed.

Lemma delete_absent k m : JsMap.get k m = None -> JsMap.delete k m = m.
Proof.
  induction m as [|[k' v'] m IH]; cbn; [done|].
  destruct (String.eqb_spec k k'); [done|]. intros H. by rewrite IH.
Qed.

Lemma size_delete_le k m : JsMap.size (JsMap.delete k m) <= JsMap.size m.
Proof.
  unfold JsMap.size. induction m as [|[k' v'] m IH]; cbn; [lia|].
  destruct (String.eqb k k'); cbn; lia.
Qed.

Lemma size_set_present k v m :
  JsMap.has k m = true -> JsMap.size (JsMap.set k v m) = JsMap.size m.
Proof.
  unfold JsMap.size, JsMap.has. induction m as [|[k' v'] m IH]; cbn; [done|].
  destruct (String.eqb k k'); cbn; [done|]. intros H. by rewrite IH.
Qed.

Lemma size_set_fresh k v m :
  JsMap.get k m = None -> JsMap.size (JsMap.set k v m) = S (JsMap.size m).
Proof.
  unfold JsMap.size. induction m as [|[k' v'] m IH]; cbn; [done|].
  destruct (String.eqb k k'); cbn; [done|]. intros H. by rewrite IH.
Qed.

Lemma size_set_le k v m : JsMap.size (JsMap.set k v m) <= S (JsMap.size m).
Proof.
  destruct (JsMap.get k m) eqn:Hg.
  - rewrite size_set_present; [lia|]. unfold JsMap.has. by rewrite Hg.
  - rewrite size_set_fresh; [lia|done].
Qed.

Lemma has_set_other k k' v m :
  k <> k' -> JsMap.has k' (JsMap.set k v m) = JsMap.has k' m.
Proof. intros H. unfold JsMap.has. by rewrite get_set_ne. Qed.

Lemma has_delete_other k k' m :
  k <> k' -> JsMap.has k' (JsMap.delete k m) = JsMap.has k' m.
Proof. intros H. unfold JsMap.has. by rewrite get_delete_ne. Qed.

Lemma wf_set k v m : wf m = true -> wf (JsMap.set k v m) = true.
Proof.
  induction m as [|[k' v'] m IH]; cbn; [done|].
  intros [Hh Hw]%andb_true_iff.
  destruct (String.eqb_spec k k') as [->|Hne]; cbn.
  - by rewrite Hh, Hw.
  - rewrite has_set_other by done. by rewrite Hh, IH.
Qed.

Lemma wf_delete k m : wf m = true -> wf (JsMap.delete k m) = true.
Proof.
  induction m as [|[k' v'] m IH]; cbn; [done|].
  intros [Hh Hw]%andb_true_iff.
  destruct (String.eqb_spec k k') as [->|Hne]; cbn; [by apply IH|].
  rewrite has_delete_other by done. by rewrite Hh, IH.
Qed.

Lemma get_in k v m : JsMap.get k m = Some v -> In (k, v) m.
Proof.
  induction m as [|[k' v'] m IH]; cbn; [done|].
  destruct (String.eqb_spec k k') as [->|Hne].
  - intros [= ->]. by left.
  - intros H. right. by apply IH.
Qed.

Lemma has_keys k m : JsMap.has k m = true <-> In k (JsMap.keys m).
Proof.
  unfold JsMap.has, JsMap.keys. induction m as [|[k' v'] m IH]; cbn.
  - split; [discriminate|tauto].
  - destruct (String.eqb_spec k k') as [->|Hne].
    + split; [by left|done].
    + rewrite IH. split; [by right|]. intros [H|H]; [congruence|done].
Qed.

Lemma wf_NoDup m : wf m = true <-> NoDup (JsMap.keys m).
Proof.
  induction m as [|[k v] m IH]; cbn.
  - split; [constructor|done].
  - rewrite andb_true_iff, negb_true_iff, NoDup_cons, <- IH.
    assert (k ∈ JsMap.keys m <-> JsMap.has k m = true) as ->.
    { by rewrite list_elem_of_In, has_keys. }
    destruct (JsMap.has k m); intuition congruence.
Qed.

End Facts.

End JsMapFacts.

Module JsSetFacts.
Lemma has_In x s : JsSet.has x s = true <-> In x s.
Proof.
  unfold JsSet.has. rewrite existsb_exists. split.
  - intros (y & Hy & Heq). apply String.eqb_eq in Heq. by subst.
  - intros H. exists x. split; [done|apply String.eqb_refl].
Qed.

Lemma of_list_acc l : forall s,
  NoDup (s ++ l) -> fold_left (fun s x => JsSet.add x s) l s = (s ++ l)%list.
Proof.
  induction l as [|x l IH]; intros s Hnd; cbn.
  - by rewrite app_nil_r.
  - assert (JsSet.has x s = false) as Hx.
    { destruct (JsSet.has x s) eqn:E; [|done].
      apply has_In in E. apply NoDup_app in Hnd as (_ & Hd & _).
      exfalso. apply (Hd x); [by apply list_elem_of_In|left]. }
    unfold JsSet.add at 2. rewrite Hx.
    rewrite IH; rewrite <- app_assoc; done.
Qed.

(** [new Set(l)] is [l] itself when [l] has no duplicates. *)
Lemma of_list_NoDup l : NoDup l -> JsSet.of_list l = l.
Proof. intros H. unfold JsSet.of_list. by rewrite of_list_acc. Qed.

End JsSetFacts.

(** ** Event broadcaster: registry, capacity, shutdown *)

Module EventBroadcasterProps.
Import EventBroadcaster EventBroadcasterSpec JsMapFacts.

(** *** Registry *)

Lemma unregisterClient_registered cid st :
  JsMap.has cid (clients st) = true ->
  unregisterClient cid st
  = (true, emit (client_disconnected cid)
             (with_clients (JsMap.delete cid (clients st)) st)).
Proof.
  unfold unregisterClient, JsMap.has.
  destruct (JsMap.get cid (clients st)); [done|discriminate].
Qed.

Lemma unregisterClient_unknown cid st :
  JsMap.get cid (clients st) = None -> unregisterClient cid st = (false, st).
Proof. unfold unregisterClient. by intros ->. Qed.

(** C8. For a registered client id, [unregisterClient] returns true and
    afterwards [getClient] on that id returns null; a second
    [unregisterClient] of the same id returns false (and changes
    nothing). *)
Theorem C8_unregister_then_getClient :
  forall st cid,
    JsMap.has cid (clients st) = true ->
    let '(first, st1) := unregisterClient cid st in
    let '(second, st2) := unregisterClient cid st1 in
    first = true /\ getClient cid st1 = None /\ second = false /\ st2 = st1.
Proof.
  intros st cid Hreg.
  rewrite (unregisterClient_registered _ _ Hreg).
  assert (JsMap.get cid (clients (emit (client_disconnected cid)
            (with_clients (JsMap.delete cid (clients st)) st))) = None) as Hgone.
  { cbn. apply get_delete_eq. }
  rewrite (unregisterClient_unknown _ _ Hgone).
  unfold getClient. rewrite Hgone. done.
Qed.

Lemma C8_witness :
  JsMap.has "b" (clients (threeClients 10 3)) = true
  /\ (let '(first, st1) := unregisterClient "b" (threeClients 10 3) in
      let '(second, st2) := unregisterClient "b" st1 in
      first = true /\ getClient "b" st1 = None /\ second = false /\ st2 = st1).
Proof.
  split; [reflexivity|].
  apply (C8_unregister_then_getClient (threeClients 10 3) "b"). reflexivity.
Defined.

(** *** Shutdown *)

Lemma closeClient_frame code reason st entry :
  let st' := closeClient code reason st entry in
  messageQueue st' = messageQueue st
  /\ queueProcessingInterval st' = queueProcessingInterval st
  /\ maxQueueSize st' = maxQueueSize st.
Proof.
  destruct entry as [cid cl]. unfold closeClient.
  destruct (is_open _); [|done]. destruct (closeThrows _); done.
Qed.

Lemma closeClients_frame code reason l : forall st,
  let st' := fold_left (closeClient code reason) l st in
  messageQueue st' = messageQueue st
  /\ queueProcessingInterval st' = queueProcessingInterval st
  /\ maxQueueSize st' = maxQueueSize st.
Proof.
  induction l as [|e l IH]; intros st; cbn; [done|].
  destruct (IH (closeClient code reason st e)) as (-> & -> & ->).
  apply closeClient_frame.
Qed.

Lemma stopQueueProcessing_spec st :
  let st' := stopQueueProcessing st in
  queueProcessingInterval st' = None
  /\ messageQueue st' = messageQueue st
  /\ maxQueueSize st' = maxQueueSize st.
Proof.
  unfold stopQueueProcessing.
  destruct (queueProcessingInterval st) eqn:E; cbn; done.
Qed.

(** C9. [closeAll] empties the client registry and stops queue
    processing (the timer is cleared, so it fires no further sweep), and
    it leaves the message queue as it was: every broadcast pending before
    is still queued, and [getQueueSize] is unchanged. *)
Theorem C9_closeAll_keeps_queue :
  forall st code reason,
    let st' := closeAll code reason st in
    clients st' = []
    /\ queueProcessingInterval st' = None
    /\ step st' TimerFires = st'
    /\ messageQueue st' = messageQueue st
    /\ (forall bid b, JsMap.get bid (messageQueue st) = Some b ->
                      JsMap.get bid (messageQueue st') = Some b)
    /\ getQueueSize st' = getQueueSize st.
Proof.
  intros st code reason st'.
  assert (queueProcessingInterval st' = None
          /\ messageQueue st' = messageQueue st) as [Hi Hq].
  { unfold st', closeAll. cbn.
    destruct (stopQueueProcessing_spec
                (fold_left (closeClient code reason) (clients st) st)) as (-> & -> & _).
    destruct (closeClients_frame code reason (clients st) st) as (-> & _). done. }
  repeat split.
  - exact Hi.
  - unfold step. by rewrite Hi.
  - exact Hq.
  - intros bid b. by rewrite Hq.
  - unfold getQueueSize. by rewrite Hq.
Qed.

(** *** Explicit id lists *)

(** C6. When no id of the list is currently registered,
    [broadcastToClients] returns the generated broadcast id, leaves the
    queue as it was (nothing is enqueued, so no sweep will deliver
    anything for it), touches no socket (zero sends) and no registry
    entry, and emits exactly the no-targets notification. *)
Theorem C6_no_registered_target_is_noop :
  forall st broadcastId clientIds type data,
    List.filter (fun c => JsMap.has c (clients st)) clientIds = [] ->
    let '(returned, st') := broadcastToClients broadcastId clientIds type data st in
    returned = broadcastId
    /\ messageQueue st' = messageQueue st
    /\ sockets st' = sockets st
    /\ clients st' = clients st
    /\ emitted st' = (emitted st ++ [broadcast_no_targets broadcastId type])%list.
Proof.
  intros st bid ids ty data Hnone.
  unfold broadcastToClients. rewrite Hnone. cbn. done.
Qed.

Lemma C6_witness :
  let st := threeClients 10 3 in
  List.filter (fun c => JsMap.has c (clients st)) ["x"; "y"] = []
  /\ (let '(returned, st') :=
        broadcastToClients "id-1" ["x"; "y"] "event" (Serializable "{}") st in
      returned = "id-1"
      /\ messageQueue st' = messageQueue st
      /\ sockets st' = sockets st
      /\ clients st' = clients st
      /\ emitted st' = (emitted st ++ [broadcast_no_targets "id-1" "event"])%list).
Proof.
  intros st. split; [reflexivity|].
  apply (C6_no_registered_target_is_noop st "id-1" ["x"; "y"] "event" (Serializable "{}")).
  reflexivity.
Defined.

(** ** Event broadcaster: the delivery sweep *)

Lemma same_sinks_refl st : same_sinks st st.
Proof. split; done. Qed.

Lemma same_sinks_trans st1 st2 st3 :
  same_sinks st1 st2 -> same_sinks st2 st3 -> same_sinks st1 st3.
Proof.
  intros [Ha Hb] [Hc Hd]. split.
  - intros cid. by rewrite Hc, Ha.
  - intros r. destruct (Hb r) as [<- <-]. apply Hd.
Qed.

(** Field by field: the equations hold by computation, the sinks are the
    same, and the goal left is the one about the trace. *)
Ltac calm_fields :=
  constructor; try reflexivity;
  try (split; [intros ?; reflexivity | intros ?; split; reflexivity]).

Lemma calm_refl st : calm st st.
Proof. calm_fields. exists []. by rewrite app_nil_r. Qed.

Lemma calm_trans st1 st2 st3 : calm st1 st2 -> calm st2 st3 -> calm st1 st3.
Proof.
  intros [a1 a2 a3 a4 a5 [n1 a6]] [b1 b2 b3 b4 b5 [n2 b6]]. split; try congruence.
  - by eapply same_sinks_trans.
  - exists (n1 ++ n2)%list. by rewrite b6, a6, app_assoc.
Qed.

Lemma calm_emit e st : calm st (emit e st).
Proof. calm_fields. by exists [e]. Qed.

Lemma calm_with_messageQueue q st : calm st (with_messageQueue q st).
Proof. calm_fields. exists []. cbn. by rewrite app_nil_r. Qed.

Lemma deliverable_same_sinks st st' data cid :
  same_sinks st st' -> deliverable st' data cid = deliverable st data cid.
Proof.
  intros [Hc Hs]. unfold deliverable. specialize (Hc cid).
  destruct (JsMap.get cid (clients st')) as [c'|], (JsMap.get cid (clients st)) as [c|];
    cbn in Hc; try done.
  injection Hc as ->. destruct data; [|done].
  by destruct (Hs (ws c)) as [-> ->].
Qed.

Lemma deliversTo_same_sinks st st' data r cid :
  same_sinks st st' -> deliversTo st' data r cid = deliversTo st data r cid.
Proof.
  intros Hs. unfold deliversTo. rewrite (deliverable_same_sinks _ _ _ _ Hs).
  destruct Hs as [Hc _]. specialize (Hc cid).
  destruct (JsMap.get cid (clients st')) as [c'|], (JsMap.get cid (clients st)) as [c|];
    cbn in Hc; try done.
  by injection Hc as ->.
Qed.

Lemma sentCountOf_same_sinks st st' b :
  same_sinks st st' -> sentCountOf st' b = sentCountOf st b.
Proof.
  intros Hs. unfold sentCountOf. f_equal. apply filter_ext.
  intros c. by apply deliverable_same_sinks.
Qed.

Lemma failedCountOf_same_sinks st st' b :
  same_sinks st st' -> failedCountOf st' b = failedCountOf st b.
Proof.
  intros Hs. unfold failedCountOf. f_equal. apply filter_ext.
  intros c. by rewrite (deliverable_same_sinks _ _ _ _ Hs).
Qed.

(** *** One send *)

Lemma sendToClient_result cid ty data st :
  fst (sendToClient cid ty data st) = deliverable st data cid.
Proof.
  unfold sendToClient, deliverable.
  destruct (JsMap.get cid (clients st)) as [c|]; [|done].
  destruct data; cbn; [|done].
  destruct (is_open _); [|done]. by destruct (sendThrows _).
Qed.

(** An id that is not registered: nothing is sent, nothing is emitted,
    and the call returns false. *)
Lemma sendToClient_unregistered cid ty data st :
  JsMap.get cid (clients st) = None -> sendToClient cid ty data st = (false, st).
Proof. unfold sendToClient. by intros ->. Qed.

Lemma sendToClient_calm cid ty data st :
  let st' := snd (sendToClient cid ty data st) in
  calm st st' /\ messageQueue st' = messageQueue st.
Proof.
  unfold sendToClient.
  destruct (JsMap.get cid (clients st)) as [c|] eqn:Hc; [|split; [apply calm_refl|done]].
  destruct data; cbn; [|split; [apply calm_emit|done]].
  destruct (is_open _); [|split; [apply calm_refl|done]].
  destruct (sendThrows _); [split; [apply calm_emit|done]|].
  cbn. split; [|done]. constructor; try reflexivity.
  - split.
    + intros cid'. cbn. destruct (decide (cid = cid')) as [<-|Hne].
      * by rewrite get_set_eq, Hc.
      * by rewrite get_set_ne.
    + intros r. cbn. by destruct (Nat.eqb r (ws c)).
  - by eexists.
Qed.

(** The frames a socket object receives from one send. *)
Lemma sendToClient_inbox cid ty data st r :
  inbox (sockets (snd (sendToClient cid ty data st)) r)
  = (inbox (sockets st r)
     ++ framesOf ty data (clock st) (if deliversTo st data r cid then 1 else 0))%list.
Proof.
  unfold sendToClient, deliversTo, deliverable, framesOf.
  destruct (JsMap.get cid (clients st)) as [c|]; cbn.
  2:{ destruct (JSON_stringify _ _ _); cbn; by rewrite app_nil_r. }
  destruct data; cbn; [|by rewrite app_nil_r].
  destruct (is_open _); cbn; [|by rewrite app_nil_r].
  destruct (sendThrows _); cbn; [by rewrite app_nil_r|].
  rewrite (Nat.eqb_sym r). destruct (Nat.eqb (ws c) r); cbn; [done|by rewrite app_nil_r].
Qed.

(** Registry entries a send leaves as they are: all of them when the
    send fails, all but the target's when it succeeds. *)
Lemma sendToClient_clients cid ty data st cid' :
  cid' <> cid \/ deliverable st data cid = false ->
  JsMap.get cid' (clients (snd (sendToClient cid ty data st)))
  = JsMap.get cid' (clients st).
Proof.
  unfold sendToClient, deliverable.
  destruct (JsMap.get cid (clients st)) as [c|]; [|done].
  destruct data; cbn; [|done].
  destruct (is_open _); [|done]. destruct (sendThrows _); [done|].
  cbn. intros [Hne|Hf]; [|discriminate]. by rewrite get_set_ne.
Qed.

(** *** The sweep of one broadcast *)

(** Split a conjunction into its conjuncts, and nothing else. *)
Ltac conjuncts := repeat match goal with |- _ /\ _ => split end.

Lemma framesOf_add ty data t n m :
  framesOf ty data t (n + m) = (framesOf ty data t n ++ framesOf ty data t m)%list.
Proof.
  unfold framesOf. destruct (JSON_stringify ty data t); [|done].
  apply replicate_add.
Qed.

Lemma framesOf_0 ty data t : framesOf ty data t 0 = [].
Proof. unfold framesOf. by destruct (JSON_stringify ty data t). Qed.

Lemma sendToTarget_eq b st s f c :
  sendToTarget b (st, s, f) c
  = let st' := snd (sendToClient c (qb_type b) (qb_data b) st) in
    if deliverable st (qb_data b) c then (st', S s, f) else (st', s, S f).
Proof.
  unfold sendToTarget. rewrite <- (sendToClient_result c (qb_type b)).
  by destruct (sendToClient c (qb_type b) (qb_data b) st) as [[] st'].
Qed.

(** The tally of a sweep over a list of targets, from any starting
    tally: every target is attempted once; [sentCount] grows by the
    deliverable targets and [failedCount] by all the others; a socket
    receives one frame per deliverable target registered on it; the
    registry entry of a target that is not deliverable stays as it is. *)
Lemma sendToTargets_fold b (t : list string) : forall st s0 f0,
  let res := fold_left (sendToTarget b) t (st, s0, f0) in
  res.1.2 = s0 + length (List.filter (deliverable st (qb_data b)) t)
  /\ res.2 = f0 + length (List.filter (fun c => negb (deliverable st (qb_data b) c)) t)
  /\ calm st res.1.1
  /\ messageQueue res.1.1 = messageQueue st
  /\ (forall r,
         inbox (sockets res.1.1 r)
         = (inbox (sockets st r)
            ++ framesOf (qb_type b) (qb_data b) (clock st)
                 (length (List.filter (deliversTo st (qb_data b) r) t)))%list)
  /\ (forall cid, deliverable st (qb_data b) cid = false ->
                  JsMap.get cid (clients res.1.1) = JsMap.get cid (clients st)).
Proof.
  induction t as [|c t IH]; intros st s0 f0.
  - cbn. conjuncts; try lia; try done.
    + apply calm_refl.
    + intros r. by rewrite framesOf_0, app_nil_r.
  - cbn [fold_left]. rewrite sendToTarget_eq. cbn zeta.
    pose proof (sendToClient_calm c (qb_type b) (qb_data b) st) as [Hcalm Hq].
    pose proof (sendToClient_inbox c (qb_type b) (qb_data b) st) as Hin.
    pose proof (sendToClient_clients c (qb_type b) (qb_data b) st) as Hcl.
    cbn zeta in Hcalm, Hq.
    set (st1 := snd (sendToClient c (qb_type b) (qb_data b) st)) in *.
    clearbody st1.
    pose proof (calm_sinks _ _ Hcalm) as Hs.
    assert (forall s f,
      let res := fold_left (sendToTarget b) t (st1, s, f) in
      res.1.2 = s + length (List.filter (deliverable st (qb_data b)) t)
      /\ res.2 = f + length (List.filter (fun c => negb (deliverable st (qb_data b) c)) t)
      /\ calm st res.1.1
      /\ messageQueue res.1.1 = messageQueue st
      /\ (forall r,
             inbox (sockets res.1.1 r)
             = (inbox (sockets st1 r)
                ++ framesOf (qb_type b) (qb_data b) (clock st)
                     (length (List.filter (deliversTo st (qb_data b) r) t)))%list)
      /\ (forall cid, deliverable st (qb_data b) cid = false ->
                      JsMap.get cid (clients res.1.1) = JsMap.get cid (clients st1))) as IH'.
    { intros s f. specialize (IH st1 s f). cbn zeta in IH |- *.
      destruct IH as (I1 & I2 & I3 & I4 & I5 & I6).
      rewrite (filter_ext _ (deliverable st (qb_data b))) in I1
        by (intros x; by apply deliverable_same_sinks).
      rewrite (filter_ext _ (fun c => negb (deliverable st (qb_data b) c))) in I2
        by (intros x; by rewrite (deliverable_same_sinks _ _ _ _ Hs)).
      conjuncts; try done.
      - by eapply calm_trans.
      - congruence.
      - intros r. rewrite I5, (calm_clock _ _ Hcalm).
        rewrite (filter_ext _ (deliversTo st (qb_data b) r)); [done|].
        intros x. by apply deliversTo_same_sinks.
      - intros cid Hc. apply I6. by rewrite (deliverable_same_sinks _ _ _ _ Hs). }
    clear IH. cbn [List.filter].
    destruct (deliverable st (qb_data b) c) eqn:Hd; cbn [negb length].
    + specialize (IH' (S s0) f0). cbn zeta in IH' |- *.
      destruct IH' as (I1 & I2 & I3 & I4 & I5 & I6).
      conjuncts; try done; try lia.
      * intros r. rewrite I5, Hin.
        destruct (deliversTo st (qb_data b) r c); cbn [length].
        -- rewrite <- app_assoc, <- framesOf_add. done.
        -- by rewrite framesOf_0, app_nil_r.
      * intros cid Hc. rewrite (I6 cid Hc). apply Hcl. left. congruence.
    + specialize (IH' s0 (S f0)). cbn zeta in IH' |- *.
      destruct IH' as (I1 & I2 & I3 & I4 & I5 & I6).
      conjuncts; try done; try lia.
      * intros r. rewrite I5, Hin.
        unfold deliversTo at 1. rewrite Hd. cbn [andb].
        rewrite framesOf_0, app_nil_r.
        unfold deliversTo at 2. by rewrite Hd.
      * intros cid Hc. rewrite (I6 cid Hc). apply Hcl. by right.
Qed.

Lemma sendToTargets_spec b st :
  let res := sendToTargets b st in
  res.1.2 = sentCountOf st b
  /\ res.2 = failedCountOf st b
  /\ calm st res.1.1
  /\ messageQueue res.1.1 = messageQueue st
  /\ (forall r,
         inbox (sockets res.1.1 r)
         = (inbox (sockets st r)
            ++ framesOf (qb_type b) (qb_data b) (clock st)
                 (length (List.filter (deliversTo st (qb_data b) r) (targetsOf b))))%list)
  /\ (forall cid, deliverable st (qb_data b) cid = false ->
                  JsMap.get cid (clients res.1.1) = JsMap.get cid (clients st)).
Proof.
  unfold sendToTargets, sentCountOf, failedCountOf, targetsOf.
  destruct (targetClients b) as [t|]; cbn [default].
  - apply (sendToTargets_fold b t st 0 0).
  - cbn. conjuncts; try done; [apply calm_refl|].
    intros r. by rewrite framesOf_0, app_nil_r.
Qed.

(** Every original target is attempted in every sweep: the two counts
    add up to the number of targets. *)
Lemma tally_total st b :
  sentCountOf st b + failedCountOf st b = length (targetsOf b).
Proof.
  unfold sentCountOf, failedCountOf.
  induction (targetsOf b) as [|c t IH]; cbn; [done|].
  destruct (deliverable st (qb_data b) c); cbn; lia.
Qed.

(** *** The fate of a broadcast in a sweep *)

Lemma emits_calm_l st1 st2 st3 e : calm st1 st2 -> emits st2 st3 e -> emits st1 st3 e.
Proof.
  intros Hc (pre & post & He). destruct (calm_emitted _ _ Hc) as [new Hn].
  exists (new ++ pre)%list, post. by rewrite He, Hn, <- !app_assoc.
Qed.

Lemma emits_calm_r st1 st2 st3 e : emits st1 st2 e -> calm st2 st3 -> emits st1 st3 e.
Proof.
  intros (pre & post & He) Hc. destruct (calm_emitted _ _ Hc) as [new Hn].
  exists pre, (post ++ new)%list. rewrite Hn, He, <- !app_assoc. done.
Qed.

Lemma outcome_same_sinks st st' b : same_sinks st st' -> outcome st' b = outcome st b.
Proof.
  intros Hs. unfold outcome.
  by rewrite (failedCountOf_same_sinks _ _ _ Hs), (sentCountOf_same_sinks _ _ _ Hs).
Qed.

Lemma processBroadcast_spec st fl bid b :
  let res := processBroadcast (st, fl) (bid, b) in
  let st1 := (sendToTargets b st).1.1 in
  calm st res.1
  /\ messageQueue res.1
     = match outcome st b with
       | Completed _ => JsMap.delete bid (messageQueue st)
       | _ => JsMap.set bid (incrRetry b) (messageQueue st)
       end
  /\ res.2 = match outcome st b with
             | Dropped _ => (fl ++ [bid])%list
             | _ => fl
             end
  /\ emitted res.1
     = (emitted st1 ++ option_list (notification bid b (outcome st b)))%list
  /\ sockets res.1 = sockets st1
  /\ clients res.1 = clients st1.
Proof.
  cbn zeta. unfold processBroadcast, outcome.
  destruct (sendToTargets_spec b st) as (Hs & Hf & Hcalm & Hq & _).
  destruct (sendToTargets b st) as [[st1 s] f]. cbn [fst snd] in *. subst s f.
  destruct (0 <? failedCountOf st b)%nat.
  - cbn [retryCount incrRetry qb_maxRetries].
    destruct (retryCount b + 1 >=? qb_maxRetries b)%Z; cbn [fst snd notification option_list].
    + conjuncts; try done.
      * eapply calm_trans; [exact Hcalm|].
        eapply calm_trans; [apply calm_with_messageQueue|apply calm_emit].
      * cbn. by rewrite Hq.
    + conjuncts; try done.
      * eapply calm_trans; [exact Hcalm|apply calm_with_messageQueue].
      * cbn. by rewrite Hq.
      * cbn. by rewrite app_nil_r.
  - cbn [fst snd notification option_list]. conjuncts; try done.
    + eapply calm_trans; [exact Hcalm|].
      eapply calm_trans; [apply calm_with_messageQueue|apply calm_emit].
    + cbn. by rewrite Hq.
Qed.

Lemma processBroadcast_emits st fl bid b e :
  notification bid b (outcome st b) = Some e ->
  emits st (processBroadcast (st, fl) (bid, b)).1 e.
Proof.
  intros Hn.
  destruct (processBroadcast_spec st fl bid b) as (_ & _ & _ & He & _).
  destruct (sendToTargets_spec b st) as (_ & _ & Hcalm & _).
  destruct (calm_emitted _ _ Hcalm) as [new Hnew].
  exists new, []. rewrite He, Hn, Hnew. cbn. by rewrite <- app_assoc.
Qed.

(** The traversal of [processQueue] over the entries [l]. *)
Lemma processQueue_fold l : forall st fl,
  wf l = true ->
  let res := fold_left processBroadcast l (st, fl) in
  calm st res.1
  /\ (forall k,
         JsMap.get k (messageQueue res.1)
         = match JsMap.get k l with
           | Some b => match outcome st b with
                       | Completed _ => None
                       | _ => Some (incrRetry b)
                       end
           | None => JsMap.get k (messageQueue st)
           end)
  /\ (forall k,
         In k res.2 <->
         In k fl \/ exists b f, JsMap.get k l = Some b /\ outcome st b = Dropped f)
  /\ (forall k b e,
         JsMap.get k l = Some b ->
         notification k b (outcome st b) = Some e ->
         emits st res.1 e).
Proof.
  induction l as [|[k0 b0] l IH]; intros st fl Hwf.
  - cbn. conjuncts; try done; [apply calm_refl|].
    intros k. split; [by left|]. intros [H|(b & f & H & _)]; done.
  - cbn in Hwf. apply andb_true_iff in Hwf as [Hfresh Hwf].
    apply negb_true_iff in Hfresh. unfold JsMap.has in Hfresh.
    destruct (JsMap.get k0 l) eqn:Hk0; [discriminate|]. clear Hfresh.
    cbn [fold_left].
    destruct (processBroadcast_spec st fl k0 b0) as (Hc & Hq & Hfl & _).
    pose proof (processBroadcast_emits st fl k0 b0) as Hem.
    destruct (processBroadcast (st, fl) (k0, b0)) as [st1 fl1].
    cbn [fst snd] in Hc, Hq, Hfl, Hem.
    specialize (IH st1 fl1 Hwf). cbn zeta in IH |- *.
    destruct IH as (I1 & I2 & I3 & I4).
    pose proof (calm_sinks _ _ Hc) as Hs.
    conjuncts.
    + by eapply calm_trans.
    + intros k. rewrite I2. cbn [JsMap.get].
      destruct (String.eqb_spec k k0) as [->|Hne].
      * rewrite Hk0, Hq. destruct (outcome st b0);
          [apply get_delete_eq|apply get_set_eq|apply get_set_eq].
      * destruct (JsMap.get k l) as [b|].
        -- by rewrite (outcome_same_sinks _ _ _ Hs).
        -- rewrite Hq. destruct (outcome st b0);
             [by apply get_delete_ne|by apply get_set_ne|by apply get_set_ne].
    + intros k. rewrite I3, Hfl. cbn [JsMap.get].
      destruct (String.eqb_spec k k0) as [->|Hne].
      * split.
        -- intros [H|(b & f & H & _)]; [|congruence].
           destruct (outcome st b0) eqn:Ho; [by left|by left|].
           apply in_app_or in H as [H|H]; [by left|]. right. by exists b0, failedCount.
        -- intros [H|(b & f & [= <-] & Ho)].
           ++ left. destruct (outcome st b0); [done|done|]. apply in_or_app. by left.
           ++ left. rewrite Ho. apply in_or_app. right. by left.
      * split.
        -- intros [H|(b & f & H & Ho)].
           ++ left. destruct (outcome st b0); [done|done|].
              apply in_app_or in H as [H|[H|[]]]; [done|congruence].
           ++ right. exists b, f. split; [done|].
              by rewrite <- (outcome_same_sinks _ _ _ Hs).
        -- intros [H|(b & f & H & Ho)].
           ++ left. destruct (outcome st b0); [done|done|]. apply in_or_app. by left.
           ++ right. exists b, f. split; [done|].
              by rewrite (outcome_same_sinks _ _ _ Hs).
    + intros k b e. cbn [JsMap.get].
      destruct (String.eqb_spec k k0) as [->|Hne].
      * intros [= <-] Hn. eapply emits_calm_r; [by apply Hem|exact I1].
      * intros Hg Hn. eapply emits_calm_l; [exact Hc|].
        eapply I4; [exact Hg|]. by rewrite (outcome_same_sinks _ _ _ Hs).
Qed.

Lemma processQueue_eq st :
  processQueue st
  = dropFailed (fold_left processBroadcast (messageQueue st) (st, [])).2
      (fold_left processBroadcast (messageQueue st) (st, [])).1.
Proof.
  unfold processQueue, dropFailed.
  by destruct (fold_left processBroadcast (messageQueue st) (st, [])).
Qed.

Lemma dropFailed_spec fl : forall st,
  let st' := dropFailed fl st in
  calm st st'
  /\ emitted st' = emitted st
  /\ sockets st' = sockets st
  /\ clients st' = clients st
  /\ (wf (messageQueue st) = true -> wf (messageQueue st') = true)
  /\ (forall k, In k fl -> JsMap.get k (messageQueue st') = None)
  /\ (forall k, ~ In k fl -> JsMap.get k (messageQueue st') = JsMap.get k (messageQueue st)).
Proof.
  induction fl as [|k0 fl IH]; intros st.
  - cbn. conjuncts; try done. apply calm_refl.
  - cbn [dropFailed fold_left].
    specialize (IH (with_messageQueue (JsMap.delete k0 (messageQueue st)) st)).
    unfold dropFailed in IH. cbn zeta in IH |- *.
    destruct IH as (I1 & I2 & I3 & I4 & I5 & I6 & I7).
    conjuncts; try done.
    + eapply calm_trans; [apply calm_with_messageQueue|exact I1].
    + intros Hwf. apply I5. cbn. by apply wf_delete.
    + intros k [->|Hin].
      * destruct (in_dec String.string_dec k fl) as [Hin|Hnin]; [by apply I6|].
        rewrite (I7 _ Hnin). cbn. apply get_delete_eq.
      * by apply I6.
    + intros k Hnin. rewrite I7 by (intros H; apply Hnin; by right).
      cbn. apply get_delete_ne. intros ->. apply Hnin. by left.
Qed.

(** What one sweep does to a queued broadcast: it is removed when it
    completed or ran out of retries, with the matching notification, and
    it stays queued with its retry count incremented (and its targets
    unchanged) otherwise. *)
Lemma processQueue_entry st bid b :
  wf (messageQueue st) = true ->
  JsMap.get bid (messageQueue st) = Some b ->
  let st' := processQueue st in
  calm st st'
  /\ JsMap.get bid (messageQueue st')
     = match outcome st b with
       | Retried => Some (incrRetry b)
       | _ => None
       end
  /\ (forall e, notification bid b (outcome st b) = Some e -> emits st st' e).
Proof.
  intros Hwf Hget. cbn zeta. rewrite processQueue_eq.
  destruct (processQueue_fold (messageQueue st) st [] Hwf) as (F1 & F2 & F3 & F4).
  cbn zeta in F1, F2, F3, F4.
  set (res := fold_left processBroadcast (messageQueue st) (st, [])) in *.
  destruct (dropFailed_spec res.2 res.1) as (D1 & D2 & _ & _ & _ & D6 & D7).
  cbn zeta in D1, D2, D6, D7.
  conjuncts.
  - by eapply calm_trans.
  - destruct (outcome st b) eqn:Ho.
    + destruct (in_dec String.string_dec bid res.2) as [Hin|Hnin]; [by apply D6|].
      rewrite (D7 _ Hnin), F2, Hget, Ho. done.
    + rewrite D7, F2, Hget, Ho; [done|].
      intros Hin. apply F3 in Hin as [[]|(b' & f & Hb & Hd)]. congruence.
    + apply D6, F3. right. by exists b, failedCount.
  - intros e Hn. eapply emits_calm_r; [|exact D1]. by eapply F4.
Qed.

Lemma processQueue_wf st :
  wf (messageQueue st) = true -> wf (messageQueue (processQueue st)) = true.
Proof.
  intros Hwf. rewrite processQueue_eq.
  apply dropFailed_spec.
  assert (forall l st0 fl, wf (messageQueue st0) = true ->
            wf (messageQueue (fold_left processBroadcast l (st0, fl)).1) = true) as H.
  { induction l as [|[k0 b0] l IH]; intros st0 fl H0; [done|].
    cbn [fold_left].
    destruct (processBroadcast_spec st0 fl k0 b0) as (_ & Hq & _).
    destruct (processBroadcast (st0, fl) (k0, b0)) as [st1 fl1]. cbn [fst] in Hq.
    apply IH. rewrite Hq.
    destruct (outcome st0 b0); [by apply wf_delete|by apply wf_set|by apply wf_set]. }
  by apply H.
Qed.

(** A sweep adds no broadcast to the queue. *)
Lemma processQueue_keys st k :
  wf (messageQueue st) = true ->
  JsMap.has k (messageQueue (processQueue st)) = true ->
  JsMap.has k (messageQueue st) = true.
Proof.
  intros Hwf. rewrite processQueue_eq.
  destruct (processQueue_fold (messageQueue st) st [] Hwf) as (_ & F2 & _).
  cbn zeta in F2.
  set (res := fold_left processBroadcast (messageQueue st) (st, [])) in *.
  destruct (dropFailed_spec res.2 res.1) as (_ & _ & _ & _ & _ & D6 & D7).
  cbn zeta in D6, D7. unfold JsMap.has.
  destruct (in_dec String.string_dec k res.2) as [Hin|Hnin]; [by rewrite D6|].
  rewrite (D7 _ Hnin), F2.
  destruct (JsMap.get k (messageQueue st)); [done|discriminate].
Qed.

Lemma wf_size_le {V} (m m' : list (string * V)) :
  wf m' = true ->
  (forall k, JsMap.has k m' = true -> JsMap.has k m = true) ->
  JsMap.size m' <= JsMap.size m.
Proof.
  intros Hwf Hsub. unfold JsMap.size.
  rewrite <- (length_map fst m'), <- (length_map fst m).
  apply NoDup_incl_length.
  - apply NoDup_ListNoDup. by apply wf_NoDup.
  - intros k Hk. apply has_keys, Hsub, has_keys, Hk.
Qed.

Lemma processQueue_size st :
  wf (messageQueue st) = true ->
  getQueueSize (processQueue st) <= getQueueSize st.
Proof.
  intros Hwf. apply wf_size_le; [by apply processQueue_wf|].
  intros k. by apply processQueue_keys.
Qed.

(** *** Targets that left before delivery *)

(** The only target of the queued broadcast is no longer registered, yet
    the sweep counts one failure where the claimed tally is zero, and the
    broadcast is kept for a retry instead of being completed. *)
Lemma C1_counterexample :
  JsMap.get "b-1" (messageQueue clientLeft) = Some ghostBroadcast
  /\ JsMap.has "ghost" (clients clientLeft) = false
  /\ (sendToTargets ghostBroadcast clientLeft).2 = 1
  /\ claimedFailureTally clientLeft ghostBroadcast = 0
  /\ (sendToTargets ghostBroadcast clientLeft).2
     <> claimedFailureTally clientLeft ghostBroadcast
  /\ JsMap.get "b-1" (messageQueue (processQueue clientLeft))
     = Some (incrRetry ghostBroadcast).
Proof. vm_compute. conjuncts; try reflexivity. discriminate. Qed.

(** C1 (amended). In every sweep of a queued broadcast, a send to a
    target id that is no longer registered does nothing and emits nothing
    (it is skipped silently), but it returns false and IS counted: the
    failure tally of the sweep is the number of targets to which
    [sendToClient] does not deliver, that is the unregistered ones as well
    as those whose payload does not serialize or whose sink is not open
    or raises. A broadcast with such a target therefore never completes:
    the sweep increments its retry count or drops it. *)
Theorem C1_unregistered_target_counts_as_failure :
  forall st bid b,
    wf (messageQueue st) = true ->
    JsMap.get bid (messageQueue st) = Some b ->
    (sendToTargets b st).2 = failedCountOf st b
    /\ (forall cid,
           JsMap.get cid (clients st) = None ->
           sendToClient cid (qb_type b) (qb_data b) st = (false, st)
           /\ deliverable st (qb_data b) cid = false)
    /\ (forall cid,
           In cid (targetsOf b) ->
           JsMap.get cid (clients st) = None ->
           1 <= (sendToTargets b st).2
           /\ JsMap.get bid (messageQueue (processQueue st))
              = if (retryCount b + 1 >=? qb_maxRetries b)%Z then None
                else Some (incrRetry b)).
Proof.
  intros st bid b Hwf Hget.
  destruct (sendToTargets_spec b st) as (_ & Hf & _).
  assert (forall cid, JsMap.get cid (clients st) = None ->
                      deliverable st (qb_data b) cid = false) as Hund.
  { intros cid Hnone. unfold deliverable. by rewrite Hnone. }
  conjuncts.
  - exact Hf.
  - intros cid Hnone. split; [by apply sendToClient_unregistered|by apply Hund].
  - intros cid Hin Hnone.
    assert (1 <= failedCountOf st b) as Hpos.
    { unfold failedCountOf. specialize (Hund cid Hnone).
      induction (targetsOf b) as [|c t IH]; [done|]. cbn.
      destruct Hin as [->|Hin].
      - rewrite Hund. cbn. lia.
      - specialize (IH Hin). destruct (negb _); cbn; lia. }
    split; [by rewrite Hf|].
    destruct (processQueue_entry st bid b Hwf Hget) as (_ & -> & _).
    unfold outcome. destruct (Nat.ltb_spec 0 (failedCountOf st b)); [|lia].
    by destruct (retryCount b + 1 >=? qb_maxRetries b)%Z.
Qed.

Lemma C1_witness :
  (sendToTargets ghostBroadcast clientLeft).2 = failedCountOf clientLeft ghostBroadcast
  /\ sendToClient "ghost" "event" (Serializable "{}") clientLeft = (false, clientLeft)
  /\ 1 <= (sendToTargets ghostBroadcast clientLeft).2
  /\ JsMap.get "b-1" (messageQueue (processQueue clientLeft))
     = Some (incrRetry ghostBroadcast).
Proof.
  destruct (C1_unregistered_target_counts_as_failure clientLeft "b-1" ghostBroadcast
              eq_refl eq_refl) as (Htally & Hsilent & Hcounted).
  destruct (Hsilent "ghost" eq_refl) as [Hs _].
  destruct (Hcounted "ghost" (or_introl eq_refl) eq_refl) as [Hc Hq].
  conjuncts; [exact Htally|exact Hs|exact Hc|exact Hq].
Defined.

(** *** Broadcast to all with nobody registered *)

Lemma addToQueue_room b st :
  (Z.of_nat (getQueueSize st) < maxQueueSize st)%Z ->
  addToQueue b st
  = (true,
     emit (broadcast_queued (qb_id b) (qb_type b) (length (targetsOf b)))
       (with_messageQueue (JsMap.set (qb_id b) b (messageQueue st)) st)).
Proof.
  intros Hroom. unfold addToQueue, getQueueSize in *.
  destruct (Z.geb_spec (Z.of_nat (JsMap.size (messageQueue st))) (maxQueueSize st)); [lia|].
  unfold targetsOf. by destruct (targetClients b).
Qed.

Lemma addToQueue_full b st :
  (maxQueueSize st <= Z.of_nat (getQueueSize st))%Z ->
  addToQueue b st = (false, st).
Proof.
  intros Hfull. unfold addToQueue, getQueueSize in *.
  by destruct (Z.geb_spec (Z.of_nat (JsMap.size (messageQueue st))) (maxQueueSize st)); [|lia].
Qed.

(** C10. With no client registered and room in the queue, [broadcast]
    enqueues a broadcast whose target set is empty: it takes one slot of
    the queue, and the only notification is the one for queueing, with
    target count 0 (no no-targets notification). The next sweep removes
    it and emits the completion notification with a sent count of 0.
    [broadcastToClients] in the same state enqueues nothing and emits the
    no-targets notification. *)
Theorem C10_broadcast_to_nobody :
  forall st bid ty data,
    clients st = [] ->
    wf (messageQueue st) = true ->
    JsMap.get bid (messageQueue st) = None ->
    (Z.of_nat (getQueueSize st) < maxQueueSize st)%Z ->
    let st1 := (broadcast bid ty data st).2 in
    let st2 := processQueue st1 in
    (broadcast bid ty data st).1 = bid
    /\ JsMap.get bid (messageQueue st1) = Some (newBroadcast bid ty data [] st)
    /\ getQueueSize st1 = S (getQueueSize st)
    /\ emitted st1 = (emitted st ++ [broadcast_queued bid ty 0])%list
    /\ JsMap.get bid (messageQueue st2) = None
    /\ emits st1 st2 (broadcast_completed bid ty 0)
    /\ (forall clientIds,
           broadcastToClients bid clientIds ty data st
           = (bid, emit (broadcast_no_targets bid ty) st)).
Proof.
  intros st bid ty data Hnone Hwf Hfresh Hroom.
  assert (broadcast bid ty data st
          = (bid, emit (broadcast_queued bid ty 0)
                    (with_messageQueue
                       (JsMap.set bid (newBroadcast bid ty data [] st) (messageQueue st))
                       st))) as Hb.
  { unfold broadcast, getClientIds. rewrite Hnone. cbn [JsMap.keys map JsSet.of_list fold_left].
    by rewrite addToQueue_room. }
  rewrite Hb. cbn [fst snd]. cbn zeta.
  set (nb := newBroadcast bid ty data [] st).
  set (st1 := emit _ _).
  assert (JsMap.get bid (messageQueue st1) = Some nb) as Hget by apply get_set_eq.
  assert (wf (messageQueue st1) = true) as Hwf1 by (by apply wf_set).
  destruct (processQueue_entry st1 bid nb Hwf1 Hget) as (_ & Hq & He).
  conjuncts; try done.
  - unfold getQueueSize. cbn. by apply size_set_fresh.
  - apply (He (broadcast_completed bid ty 0)). reflexivity.
  - intros ids. unfold broadcastToClients. rewrite Hnone.
    assert (List.filter (fun c => JsMap.has c ([] : list (string * Client))) ids = []) as ->.
    { induction ids; [done|]. cbn. done. }
    reflexivity.
Qed.

Lemma C10_witness :
  let st := constructor (exampleOptions 2 3) exampleSockets 1000 in
  let st1 := (broadcast "b-1" "event" (Serializable "{}") st).2 in
  let st2 := processQueue st1 in
  JsMap.get "b-1" (messageQueue st1)
  = Some (newBroadcast "b-1" "event" (Serializable "{}") [] st)
  /\ getQueueSize st1 = 1
  /\ JsMap.get "b-1" (messageQueue st2) = None
  /\ emits st1 st2 (broadcast_completed "b-1" "event" 0).
Proof.
  intros st st1 st2.
  assert (Z.of_nat (getQueueSize st) < maxQueueSize st)%Z as Hroom by (cbn; lia).
  destruct (C10_broadcast_to_nobody st "b-1" "event" (Serializable "{}")
              eq_refl eq_refl eq_refl Hroom) as (_ & H1 & H2 & _ & H3 & H4 & _).
  conjuncts; [exact H1|exact H2|exact H3|exact H4].
Defined.

(** *** A queue holding one broadcast *)

Lemma processQueue_single st bid b :
  messageQueue st = [(bid, b)] ->
  let st' := processQueue st in
  calm st st'
  /\ messageQueue st'
     = match outcome st b with
       | Retried => [(bid, incrRetry b)]
       | _ => []
       end
  /\ (forall r,
         inbox (sockets st' r)
         = (inbox (sockets st r)
            ++ framesOf (qb_type b) (qb_data b) (clock st)
                 (length (List.filter (deliversTo st (qb_data b) r) (targetsOf b))))%list)
  /\ (forall cid, deliverable st (qb_data b) cid = false ->
                  JsMap.get cid (clients st') = JsMap.get cid (clients st))
  /\ (forall e, notification bid b (outcome st b) = Some e ->
                last (emitted st') = Some e).
Proof.
  intros Hq. cbn zeta. rewrite processQueue_eq, Hq. cbn [fold_left].
  destruct (processBroadcast_spec st [] bid b) as (P1 & P2 & P3 & P4 & P5 & P6).
  cbn zeta in P1, P2, P3, P4, P5, P6.
  destruct (sendToTargets_spec b st) as (_ & _ & _ & _ & T5 & T6).
  cbn zeta in T5, T6.
  set (res := processBroadcast (st, []) (bid, b)) in *.
  destruct (dropFailed_spec res.2 res.1) as (D1 & D2 & D3 & D4 & _ & D6 & D7).
  cbn zeta in D1, D2, D3, D4, D6, D7.
  conjuncts.
  - by eapply calm_trans.
  - rewrite P3. rewrite Hq in P2. cbn in P2. rewrite String.eqb_refl in P2.
    destruct (outcome st b); cbn [dropFailed fold_left app].
    + exact P2.
    + exact P2.
    + cbn. rewrite P2. cbn. by rewrite String.eqb_refl.
  - intros r. by rewrite D3, P5.
  - intros cid Hc. by rewrite D4, P6, T6.
  - intros e He. rewrite D2, P4, He. cbn. apply last_snoc.
Qed.

Lemma withRetry_self b : withRetry (retryCount b) b = b.
Proof. by destruct b. Qed.

Lemma same_sinks_with_clock t st : same_sinks st (with_clock t st).
Proof. split; done. Qed.

(** Consecutive sweeps of a queue holding one broadcast that has at least
    one failing target: it stays queued, its retry count growing by one
    per sweep, until the count reaches [maxRetries]; the sweep at which it
    does removes the broadcast and emits the max-retries-exceeded
    notification. Every sweep sends to every deliverable target again. *)
Lemma sweepsAt_failing bid : forall times st b,
  messageQueue st = [(bid, b)] ->
  (0 < failedCountOf st b)%nat ->
  (retryCount b < qb_maxRetries b)%Z ->
  (retryCount b + Z.of_nat (length times) <= qb_maxRetries b)%Z ->
  let st' := sweepsAt times st in
  let k := (retryCount b + Z.of_nat (length times))%Z in
  same_sinks st st'
  /\ messageQueue st'
     = (if (k <? qb_maxRetries b)%Z then [(bid, withRetry k b)] else [])
  /\ (forall r,
         inbox (sockets st' r)
         = (inbox (sockets st r)
            ++ flat_map
                 (fun t =>
                    framesOf (qb_type b) (qb_data b) t
                      (length (List.filter (deliversTo st (qb_data b) r) (targetsOf b))))
                 times)%list)
  /\ (forall cid, deliverable st (qb_data b) cid = false ->
                  JsMap.get cid (clients st') = JsMap.get cid (clients st))
  /\ (times <> [] -> k = qb_maxRetries b ->
      last (emitted st')
      = Some (broadcast_max_retries_exceeded bid (qb_type b) (failedCountOf st b))).
Proof.
  induction times as [|t times IH]; intros st b Hq Hfail Hlt Hle; cbn zeta.
  - cbn [sweepsAt length flat_map]. rewrite Z.add_0_r.
    destruct (Z.ltb_spec (retryCount b) (qb_maxRetries b)); [|lia].
    rewrite withRetry_self.
    conjuncts; try done; try apply same_sinks_refl.
    intros r. by rewrite app_nil_r.
  - cbn [sweepsAt length flat_map] in Hle |- *. rewrite Nat2Z.inj_succ in Hle |- *.
    set (stt := with_clock t st).
    pose proof (same_sinks_with_clock t st) as Hst. fold stt in Hst.
    assert (messageQueue stt = [(bid, b)]) as Hqt by exact Hq.
    destruct (processQueue_single stt bid b Hqt) as (S1 & S2 & S3 & S4 & S5).
    cbn zeta in S1, S2, S3, S4, S5.
    pose proof (calm_sinks _ _ S1) as Hs2.
    pose proof (same_sinks_trans _ _ _ Hst Hs2) as Hs.
    assert (outcome stt b
            = if (retryCount b + 1 >=? qb_maxRetries b)%Z
              then Dropped (failedCountOf st b) else Retried) as Ho.
    { unfold outcome. rewrite (failedCountOf_same_sinks _ _ _ Hst).
      by destruct (Nat.ltb_spec 0 (failedCountOf st b)); [|lia]. }
    rewrite Ho in S2, S5.
    assert (forall r,
      length (List.filter (deliversTo stt (qb_data b) r) (targetsOf b))
      = length (List.filter (deliversTo st (qb_data b) r) (targetsOf b))) as Hcount.
    { intros r. reflexivity. }
    destruct (Z.geb_spec (retryCount b + 1) (qb_maxRetries b)) as [Hmax|Hmore].
    + (* the last sweep *)
      destruct times as [|t' times]; [|cbn [length] in Hle; lia].
      cbn [sweepsAt length flat_map] in *. clear IH.
      change (Z.of_nat 0) with 0%Z in *.
      destruct (Z.ltb_spec (retryCount b + Z.succ 0) (qb_maxRetries b)); [lia|].
      conjuncts.
      * exact Hs.
      * exact S2.
      * intros r. rewrite S3, Hcount, app_nil_r. done.
      * intros cid Hc. apply S4. by rewrite (deliverable_same_sinks _ _ _ _ Hst).
      * intros _ _. by apply S5.
    + (* one more retry *)
      specialize (IH (processQueue stt) (incrRetry b) S2).
      assert (failedCountOf (processQueue stt) (incrRetry b) = failedCountOf st b) as Hf.
      { by rewrite (failedCountOf_same_sinks _ _ _ Hs). }
      rewrite Hf in IH. cbn [retryCount incrRetry qb_maxRetries qb_type qb_data] in IH.
      specialize (IH Hfail ltac:(lia) ltac:(lia)). cbn zeta in IH.
      destruct IH as (I1 & I2 & I3 & I4 & I5).
      replace (retryCount b + 1 + Z.of_nat (length times))%Z
        with (retryCount b + Z.succ (Z.of_nat (length times)))%Z in I2, I5 by lia.
      conjuncts.
      * by eapply same_sinks_trans.
      * exact I2.
      * intros r. rewrite I3, S3, Hcount, <- app_assoc. f_equal. f_equal.
        apply flat_map_ext. intros t'. f_equal. f_equal. apply filter_ext.
        intros c. by apply deliversTo_same_sinks.
      * intros cid Hc. rewrite I4, S4; [done| |].
        -- by rewrite (deliverable_same_sinks _ _ _ _ Hst).
        -- by rewrite (deliverable_same_sinks _ _ _ _ Hs).
      * intros _ Hk. apply I5; [|exact Hk].
        intros ->. cbn [length] in Hk. lia.
Qed.

(** *** Three clients, one failing sink *)

Lemma flat_map_framesOf_1 ty text times :
  flat_map (fun t => framesOf ty (Serializable text) t 1) times
  = map (frameAt ty text) times.
Proof.
  induction times as [|t times IH]; cbn [flat_map map]; [done|]. by rewrite IH.
Qed.

Lemma flat_map_framesOf_0 ty data times :
  flat_map (fun t => framesOf ty data t 0) times = [].
Proof.
  induction times as [|t times IH]; cbn [flat_map]; [done|].
  by rewrite framesOf_0, IH.
Qed.

Lemma NoDup_three {A} (x y z : A) :
  NoDup [x; y; z] <-> x <> y /\ x <> z /\ y <> z.
Proof.
  rewrite !NoDup_cons, !not_elem_of_cons. split.
  - intros ((? & ? & _) & (? & _) & _). done.
  - intros (? & ? & ?). pose proof (not_elem_of_nil x). pose proof (not_elem_of_nil y).
    pose proof (not_elem_of_nil z). pose proof (@NoDup_nil_2 A). tauto.
Qed.

Lemma three_clients_one_failing st0 a b c ca cb cc bid ty text times :
  clients st0 = [(a, ca); (b, cb); (c, cc)] ->
  wf (clients st0) = true ->
  NoDup [ws ca; ws cb; ws cc] ->
  length (List.filter (healthy st0) [ca; cb; cc]) = 2 ->
  messageQueue st0 = [] ->
  (0 < maxQueueSize st0)%Z ->
  times <> [] ->
  maxRetries st0 = Z.of_nat (length times) ->
  let st1 := (broadcast bid ty (Serializable text) st0).2 in
  let stm := sweepsAt times st1 in
  (forall k, k < length times ->
     exists q,
       JsMap.get bid (messageQueue (sweepsAt (take k times) st1)) = Some q
       /\ retryCount q = Z.of_nat k
       /\ targetClients q = Some [a; b; c])
  /\ messageQueue stm = []
  /\ last (emitted stm) = Some (broadcast_max_retries_exceeded bid ty 1)
  /\ (forall cl, In cl [ca; cb; cc] ->
        inbox (sockets stm (ws cl))
        = (inbox (sockets st0 (ws cl))
           ++ if healthy st0 cl then map (frameAt ty text) times else [])%list)
  /\ (forall cid cl, In (cid, cl) (clients st0) -> healthy st0 cl = false ->
        JsMap.get cid (clients stm) = Some cl).
Proof.
  intros Hcl Hwf Hsock Hone Hq0 Hcap Hne Hmax.
  (* the ids and the sockets are pairwise distinct *)
  assert (a <> b /\ a <> c /\ b <> c) as (Hab & Hac & Hbc).
  { rewrite Hcl in Hwf. apply wf_NoDup in Hwf. cbn [JsMap.keys map fst] in Hwf.
    by apply NoDup_three. }
  assert (ws ca <> ws cb /\ ws ca <> ws cc /\ ws cb <> ws cc) as (Wab & Wac & Wbc).
  { by apply NoDup_three. }
  (* the enqueue *)
  remember (Serializable text) as data eqn:Hdata.
  remember (newBroadcast bid ty data [a; b; c] st0) as nb eqn:Hnb.
  assert (broadcast bid ty data st0
          = (bid, emit (broadcast_queued bid ty 3)
                    (with_messageQueue [(bid, nb)] st0))) as Hb.
  { unfold broadcast, getClientIds. rewrite Hcl.
    cbn [JsMap.keys map fst].
    rewrite JsSetFacts.of_list_NoDup by (by apply NoDup_three).
    rewrite addToQueue_room by (unfold getQueueSize; rewrite Hq0; cbn; lia).
    cbn [negb]. rewrite Hq0, Hnb. reflexivity. }
  cbn zeta. rewrite Hb. cbn [snd].
  remember (emit (broadcast_queued bid ty 3) (with_messageQueue [(bid, nb)] st0))
    as st1 eqn:Hst1.
  assert (messageQueue st1 = [(bid, nb)]) as Hq1 by (by rewrite Hst1).
  assert (sockets st1 = sockets st0) as Hsk1 by (by rewrite Hst1).
  assert (clients st1 = clients st0) as Hcl1 by (by rewrite Hst1).
  assert (retryCount nb = 0%Z /\ qb_maxRetries nb = maxRetries st0
          /\ targetsOf nb = [a; b; c] /\ qb_data nb = data /\ qb_type nb = ty)
    as (Hr & Hm & Ht & Hd & Hty) by (by rewrite Hnb).
  clear Hst1 Hnb Hb.
  (* who is deliverable *)
  assert (JsMap.get a (clients st1) = Some ca
          /\ JsMap.get b (clients st1) = Some cb
          /\ JsMap.get c (clients st1) = Some cc) as (Ga & Gb & Gc).
  { rewrite Hcl1, Hcl. cbn [JsMap.get].
    rewrite !String.eqb_refl.
    destruct (String.eqb_spec b a), (String.eqb_spec c a), (String.eqb_spec c b);
      try congruence; done. }
  assert (deliverable st1 data a = healthy st0 ca
          /\ deliverable st1 data b = healthy st0 cb
          /\ deliverable st1 data c = healthy st0 cc) as (Da & Db & Dc).
  { unfold deliverable, healthy. rewrite Ga, Gb, Gc, Hsk1, Hdata. done. }
  assert (forall r,
    length (List.filter (deliversTo st1 data r) [a; b; c])
    = (if healthy st0 ca && Nat.eqb (ws ca) r then 1 else 0)
      + (if healthy st0 cb && Nat.eqb (ws cb) r then 1 else 0)
      + (if healthy st0 cc && Nat.eqb (ws cc) r then 1 else 0)) as Hcount.
  { intros r. cbn [List.filter]. unfold deliversTo. rewrite Ga, Gb, Gc, Da, Db, Dc.
    destruct (healthy st0 ca && Nat.eqb (ws ca) r),
             (healthy st0 cb && Nat.eqb (ws cb) r),
             (healthy st0 cc && Nat.eqb (ws cc) r); reflexivity. }
  assert (failedCountOf st1 nb = 1) as Hfail.
  { unfold failedCountOf. rewrite Ht, Hd.
    cbn [List.filter]. rewrite Da, Db, Dc. cbn [List.filter] in Hone.
    destruct (healthy st0 ca), (healthy st0 cb), (healthy st0 cc);
      cbn in Hone |- *; congruence. }
  assert (0 < length times) as Hlen by (destruct times; [done|cbn; lia]).
  assert (0 < failedCountOf st1 nb) as Hpos by (rewrite Hfail; lia).
  assert (retryCount nb < qb_maxRetries nb)%Z as Hlt by lia.
  conjuncts.
  - intros k Hk.
    destruct (sweepsAt_failing bid (take k times) st1 nb Hq1 Hpos Hlt) as (_ & Hq & _).
    { rewrite length_take. lia. }
    cbn zeta in Hq. rewrite length_take in Hq.
    replace (k `min` length times) with k in Hq by lia.
    destruct (Z.ltb_spec (retryCount nb + Z.of_nat k) (qb_maxRetries nb)); [|lia].
    eexists. rewrite Hq. cbn [JsMap.get]. rewrite String.eqb_refl.
    split; [reflexivity|]. split; [cbn; lia|].
    cbn [withRetry targetClients]. unfold targetsOf in Ht.
    destruct (targetClients nb) as [t|] eqn:E; cbn in Ht; congruence.
  - destruct (sweepsAt_failing bid times st1 nb Hq1 Hpos Hlt) as (_ & Hq & _); [lia|].
    cbn zeta in Hq.
    by destruct (Z.ltb_spec (retryCount nb + Z.of_nat (length times)) (qb_maxRetries nb));
      [lia|].
  - destruct (sweepsAt_failing bid times st1 nb Hq1 Hpos Hlt) as (_ & _ & _ & _ & He);
      [lia|].
    cbn zeta in He. rewrite Hfail, Hty in He. apply He; [done|lia].
  - intros cl Hin.
    destruct (sweepsAt_failing bid times st1 nb Hq1 Hpos Hlt) as (_ & _ & Hi & _); [lia|].
    cbn zeta in Hi. rewrite Hi, Ht, Hd, Hty, Hsk1. f_equal.
    assert (length (List.filter (deliversTo st1 data (ws cl)) [a; b; c])
            = if healthy st0 cl then 1 else 0) as Hn.
    { rewrite Hcount.
      destruct Hin as [<-|[<-|[<-|[]]]]; rewrite ?Nat.eqb_refl, ?andb_true_r.
      - destruct (Nat.eqb_spec (ws cb) (ws ca)), (Nat.eqb_spec (ws cc) (ws ca));
          try congruence.
        rewrite !andb_false_r. destruct (healthy st0 ca); reflexivity.
      - destruct (Nat.eqb_spec (ws ca) (ws cb)), (Nat.eqb_spec (ws cc) (ws cb));
          try congruence.
        rewrite !andb_false_r. destruct (healthy st0 cb); reflexivity.
      - destruct (Nat.eqb_spec (ws ca) (ws cc)), (Nat.eqb_spec (ws cb) (ws cc));
          try congruence.
        rewrite !andb_false_r. destruct (healthy st0 cc); reflexivity. }
    erewrite flat_map_ext; [|intros t; rewrite Hn; reflexivity].
    destruct (healthy st0 cl).
    + rewrite Hdata. apply flat_map_framesOf_1.
    + apply flat_map_framesOf_0.
  - intros cid cl Hin Hbad.
    destruct (sweepsAt_failing bid times st1 nb Hq1 Hpos Hlt) as (_ & _ & _ & Hc & _);
      [lia|].
    cbn zeta in Hc. rewrite Hd in Hc. rewrite Hcl in Hin.
    destruct Hin as [[= <- <-]|[[= <- <-]|[[= <- <-]|[]]]].
    + rewrite Hc; [exact Ga|]. by rewrite Da.
    + rewrite Hc; [exact Gb|]. by rewrite Db.
    + rewrite Hc; [exact Gc|]. by rewrite Dc.
Qed.

(** C4. In every sweep, every original target of a queued broadcast is
    sent to again (the sent and failed counts add up to the number of
    targets, whatever earlier sweeps delivered). When no send fails the
    broadcast leaves the queue and the completion notification carries
    the sent count. Otherwise its retry count is incremented: it stays
    queued, with the same targets, while the new count is below
    [maxRetries], and it is dropped with the max-retries-exceeded
    notification, carrying the failed count, once the count reaches
    [maxRetries].

    Hence, for three registered clients on three distinct sockets of
    which exactly one does not accept sends, a broadcast to all with
    [maxRetries] = m (at least 1) is still queued, with retry count k,
    after k < m sweeps, and is gone after m sweeps, the last notification
    being max-retries-exceeded with failed count 1; the failing client's
    socket has received nothing and its registry entry is untouched (no
    [lastMessageAt]), and each of the two other sockets has received the
    payload once per sweep, m copies in all. *)
Theorem C4_retry_until_max_retries_with_duplicates :
  (forall st bid b,
      wf (messageQueue st) = true ->
      JsMap.get bid (messageQueue st) = Some b ->
      let st' := processQueue st in
      sentCountOf st b + failedCountOf st b = length (targetsOf b)
      /\ (failedCountOf st b = 0 ->
          JsMap.get bid (messageQueue st') = None
          /\ emits st st' (broadcast_completed bid (qb_type b) (sentCountOf st b)))
      /\ (0 < failedCountOf st b ->
          (retryCount b + 1 < qb_maxRetries b)%Z ->
          JsMap.get bid (messageQueue st') = Some (incrRetry b)
          /\ targetClients (incrRetry b) = targetClients b)
      /\ (0 < failedCountOf st b ->
          (qb_maxRetries b <= retryCount b + 1)%Z ->
          JsMap.get bid (messageQueue st') = None
          /\ emits st st'
               (broadcast_max_retries_exceeded bid (qb_type b) (failedCountOf st b))))
  /\ (forall st0 a b c ca cb cc bid ty text times,
         clients st0 = [(a, ca); (b, cb); (c, cc)] ->
         wf (clients st0) = true ->
         NoDup [ws ca; ws cb; ws cc] ->
         length (List.filter (healthy st0) [ca; cb; cc]) = 2 ->
         messageQueue st0 = [] ->
         (0 < maxQueueSize st0)%Z ->
         times <> [] ->
         maxRetries st0 = Z.of_nat (length times) ->
         let st1 := (broadcast bid ty (Serializable text) st0).2 in
         let stm := sweepsAt times st1 in
         (forall k, k < length times ->
            exists q,
              JsMap.get bid (messageQueue (sweepsAt (take k times) st1)) = Some q
              /\ retryCount q = Z.of_nat k
              /\ targetClients q = Some [a; b; c])
         /\ messageQueue stm = []
         /\ last (emitted stm) = Some (broadcast_max_retries_exceeded bid ty 1)
         /\ (forall cl, In cl [ca; cb; cc] ->
               inbox (sockets stm (ws cl))
               = (inbox (sockets st0 (ws cl))
                  ++ if healthy st0 cl then map (frameAt ty text) times else [])%list)
         /\ (forall cid cl, In (cid, cl) (clients st0) -> healthy st0 cl = false ->
               JsMap.get cid (clients stm) = Some cl)).
Proof.
  split.
  - intros st bid b Hwf Hget. cbn zeta.
    destruct (processQueue_entry st bid b Hwf Hget) as (_ & Hq & He).
    unfold outcome in Hq, He. conjuncts.
    + apply tally_total.
    + intros H0. rewrite H0 in Hq, He. cbn in Hq, He.
      split; [exact Hq|]. by apply He.
    + intros Hpos Hlt.
      destruct (Nat.ltb_spec 0 (failedCountOf st b)); [|lia].
      destruct (Z.geb_spec (retryCount b + 1) (qb_maxRetries b)); [lia|]. done.
    + intros Hpos Hge.
      destruct (Nat.ltb_spec 0 (failedCountOf st b)); [|lia].
      destruct (Z.geb_spec (retryCount b + 1) (qb_maxRetries b)); [|lia].
      split; [exact Hq|]. by apply He.
  - intros. by apply three_clients_one_failing.
Qed.

Lemma C4_witness :
  let st0 := threeClients 10 2 in
  let st1 := (broadcast "b-1" "event" (Serializable "{}") st0).2 in
  let stm := sweepsAt [2000; 3000]%Z st1 in
  (exists q, JsMap.get "b-1" (messageQueue (sweepsAt [2000]%Z st1)) = Some q
             /\ retryCount q = 1%Z /\ targetClients q = Some ["a"; "b"; "c"])
  /\ messageQueue stm = []
  /\ last (emitted stm) = Some (broadcast_max_retries_exceeded "b-1" "event" 1)
  /\ inbox (sockets stm 0) = []
  /\ inbox (sockets stm 1) = [frameAt "event" "{}" 2000; frameAt "event" "{}" 3000]
  /\ inbox (sockets stm 2) = [frameAt "event" "{}" 2000; frameAt "event" "{}" 3000].
Proof.
  intros st0 st1 stm.
  destruct C4_retry_until_max_retries_with_duplicates as [_ Hscenario].
  assert (NoDup [0; 1; 2]) as Hnd by (apply NoDup_three; lia).
  assert ([2000; 3000]%Z <> []) as Hne by discriminate.
  destruct (Hscenario st0 "a" "b" "c"
              (exampleClient "a" 0 []) (exampleClient "b" 1 ["vip"])
              (exampleClient "c" 2 []) "b-1" "event" "{}" [2000; 3000]%Z
              eq_refl eq_refl Hnd eq_refl eq_refl eq_refl Hne eq_refl)
    as (Hqueued & Hgone & Hlast & Hinbox & _).
  conjuncts.
  - apply (Hqueued 1). cbn. lia.
  - exact Hgone.
  - exact Hlast.
  - apply (Hinbox (exampleClient "a" 0 [])). by left.
  - apply (Hinbox (exampleClient "b" 1 ["vip"])). right. by left.
  - apply (Hinbox (exampleClient "c" 2 [])). right. right. by left.
Defined.

(** *** Capacity *)

Lemma processQueue_calm st : calm st (processQueue st).
Proof.
  rewrite processQueue_eq.
  assert (forall l s fl, calm s (fold_left processBroadcast l (s, fl)).1) as Hf.
  { induction l as [|[k0 b0] l IH]; intros s fl; [apply calm_refl|].
    cbn [fold_left].
    destruct (processBroadcast_spec s fl k0 b0) as (Hc & _).
    destruct (processBroadcast (s, fl) (k0, b0)) as [s1 fl1].
    eapply calm_trans; [exact Hc|apply IH]. }
  eapply calm_trans; [apply Hf|apply dropFailed_spec].
Qed.

Lemma addToQueue_inv b st :
  wf (messageQueue st) = true ->
  (Z.of_nat (getQueueSize st) <= maxQueueSize st)%Z ->
  let st' := (addToQueue b st).2 in
  maxQueueSize st' = maxQueueSize st
  /\ wf (messageQueue st') = true
  /\ (Z.of_nat (getQueueSize st') <= maxQueueSize st')%Z.
Proof.
  intros Hwf Hle. cbn zeta.
  destruct (Z.lt_ge_cases (Z.of_nat (getQueueSize st)) (maxQueueSize st)) as [Hroom|Hfull].
  - rewrite addToQueue_room by done. cbn [snd]. conjuncts; [done| |].
    + cbn. by apply wf_set.
    + pose proof (size_set_le (qb_id b) b (messageQueue st)) as Hs.
      unfold getQueueSize, JsMap.size in *.
      cbn [messageQueue emit with_messageQueue maxQueueSize]. lia.
  - rewrite addToQueue_full by done. done.
Qed.

Lemma broadcastToClients_inv bid ids ty data st :
  wf (messageQueue st) = true ->
  (Z.of_nat (getQueueSize st) <= maxQueueSize st)%Z ->
  let st' := (broadcastToClients bid ids ty data st).2 in
  maxQueueSize st' = maxQueueSize st
  /\ wf (messageQueue st') = true
  /\ (Z.of_nat (getQueueSize st') <= maxQueueSize st')%Z.
Proof.
  intros Hwf Hle. cbn zeta. unfold broadcastToClients.
  destruct (length _ =? 0)%nat; [done|].
  pose proof (addToQueue_inv
                (newBroadcast bid ty data
                   (JsSet.of_list (List.filter (fun c => JsMap.has c (clients st)) ids)) st)
                st Hwf Hle) as Hinv.
  cbn zeta in Hinv. destruct (addToQueue _ st) as [[] st1]; cbn [snd negb] in *; done.
Qed.

(** Every operation keeps the queue well formed and within capacity, and
    leaves the capacity as configured. *)
Lemma step_queue_inv st op :
  wf (messageQueue st) = true ->
  (Z.of_nat (getQueueSize st) <= maxQueueSize st)%Z ->
  let st' := step st op in
  maxQueueSize st' = maxQueueSize st
  /\ wf (messageQueue st') = true
  /\ (Z.of_nat (getQueueSize st') <= maxQueueSize st')%Z.
Proof.
  intros Hwf Hle. cbn zeta. destruct op; cbn [step].
  - done.
  - unfold unregisterClient. by destruct (JsMap.get cid (clients st)).
  - unfold addClientTag. by destruct (JsMap.get cid (clients st)).
  - unfold removeClientTag. destruct (JsMap.get cid (clients st)) as [c|]; [|done].
    by destruct (tags (metadata c)).
  - unfold broadcast.
    pose proof (addToQueue_inv
                  (newBroadcast broadcastId type data (JsSet.of_list (getClientIds st)) st)
                  st Hwf Hle) as Hinv.
    cbn zeta in Hinv. destruct (addToQueue _ st) as [[] st1]; cbn [snd negb] in *; done.
  - by apply broadcastToClients_inv.
  - unfold broadcastToTag. by apply broadcastToClients_inv.
  - destruct (sendToClient_calm cid type data st) as [Hc Hq]. cbn zeta in Hc, Hq.
    unfold getQueueSize. rewrite Hq, (calm_maxQueueSize _ _ Hc). done.
  - unfold startQueueProcessing. by destruct (queueProcessingInterval st).
  - unfold stopQueueProcessing. by destruct (queueProcessingInterval st).
  - destruct (queueProcessingInterval st); [|done].
    rewrite (calm_maxQueueSize _ _ (processQueue_calm st)). conjuncts; [done| |].
    + by apply processQueue_wf.
    + pose proof (processQueue_size st Hwf). lia.
  - unfold clearQueue, getQueueSize in *. cbn. conjuncts; [done|done|lia].
  - unfold closeAll, getQueueSize. cbn.
    destruct (stopQueueProcessing_spec
                (fold_left (closeClient code reason) (clients st) st)) as (_ & -> & ->).
    destruct (closeClients_frame code reason (clients st) st) as (-> & _ & ->). done.
  - done.
  - done.
Qed.

Lemma run_queue_inv ops : forall st,
  wf (messageQueue st) = true ->
  (Z.of_nat (getQueueSize st) <= maxQueueSize st)%Z ->
  maxQueueSize (run ops st) = maxQueueSize st
  /\ wf (messageQueue (run ops st)) = true
  /\ (Z.of_nat (getQueueSize (run ops st)) <= maxQueueSize (run ops st))%Z.
Proof.
  induction ops as [|op ops IH]; intros st Hwf Hle; [done|].
  cbn [run fold_left].
  destruct (step_queue_inv st op Hwf Hle) as (Hm & Hwf' & Hle').
  destruct (IH (step st op) Hwf' Hle') as (I1 & I2 & I3).
  unfold run in *. conjuncts; [by rewrite I1|exact I2|exact I3].
Qed.

(** With a positive capacity, every state reached from a fresh
    broadcaster has a well-formed queue. *)
Lemma reachable_queue_wf options socks now ops :
  (0 < maxQueueSize (constructor options socks now))%Z ->
  wf (messageQueue (run ops (constructor options socks now))) = true.
Proof.
  intros Hpos. apply run_queue_inv; [reflexivity|].
  unfold getQueueSize. cbn [constructor messageQueue JsMap.size length maxQueueSize] in *.
  lia.
Qed.

(** No operation changes the configured capacity. *)
Lemma step_maxQueueSize st op : maxQueueSize (step st op) = maxQueueSize st.
Proof.
  destruct op; cbn [step]; try done.
  - unfold unregisterClient. by destruct (JsMap.get cid (clients st)).
  - unfold addClientTag. by destruct (JsMap.get cid (clients st)).
  - unfold removeClientTag. destruct (JsMap.get cid (clients st)) as [c|]; [|done].
    by destruct (tags (metadata c)).
  - unfold broadcast, addToQueue. by destruct (_ >=? _)%Z.
  - unfold broadcastToClients, addToQueue.
    destruct (length _ =? 0)%nat; [done|]. by destruct (_ >=? _)%Z.
  - unfold broadcastToTag, broadcastToClients, addToQueue.
    destruct (length _ =? 0)%nat; [done|]. by destruct (_ >=? _)%Z.
  - destruct (sendToClient_calm cid type data st) as [Hc _].
    exact (calm_maxQueueSize _ _ Hc).
  - unfold startQueueProcessing. by destruct (queueProcessingInterval st).
  - unfold stopQueueProcessing. by destruct (queueProcessingInterval st).
  - destruct (queueProcessingInterval st); [|done].
    exact (calm_maxQueueSize _ _ (processQueue_calm st)).
  - unfold closeAll. cbn.
    destruct (stopQueueProcessing_spec
                (fold_left (closeClient code reason) (clients st) st)) as (_ & _ & ->).
    by destruct (closeClients_frame code reason (clients st) st) as (_ & _ & ->).
Qed.

Lemma run_maxQueueSize ops : forall st, maxQueueSize (run ops st) = maxQueueSize st.
Proof.
  induction ops as [|op ops IH]; intros st; [done|].
  cbn [run fold_left]. fold (run ops (step st op)).
  by rewrite IH, step_maxQueueSize.
Qed.

(** C5. Starting from a broadcaster constructed with a positive capacity,
    no sequence of operations takes the queue beyond [maxQueueSize]. A
    [broadcast] issued when the queue holds [maxQueueSize - 1] broadcasts
    is queued. A [broadcast] issued when the queue holds [maxQueueSize]
    broadcasts is rejected: the queue is left exactly as it was (nothing
    is evicted, nothing added), and before the call returns the caller is
    told through the queue-full notification, which carries the broadcast
    id and the type. *)
Theorem C5_queue_bounded_reject_when_full :
  (forall options socks now ops,
      let st := run ops (constructor options socks now) in
      (0 < maxQueueSize st)%Z ->
      (Z.of_nat (getQueueSize st) <= maxQueueSize st)%Z)
  /\ (forall st bid ty data,
         (Z.of_nat (getQueueSize st) = maxQueueSize st - 1)%Z ->
         let st' := (broadcast bid ty data st).2 in
         (broadcast bid ty data st).1 = bid
         /\ JsMap.get bid (messageQueue st')
            = Some (newBroadcast bid ty data (JsSet.of_list (getClientIds st)) st)
         /\ (Z.of_nat (getQueueSize st') <= maxQueueSize st')%Z
         /\ emitted st'
            = (emitted st
               ++ [broadcast_queued bid ty
                     (length (JsSet.of_list (getClientIds st)))])%list)
  /\ (forall st bid ty data,
         (Z.of_nat (getQueueSize st) = maxQueueSize st)%Z ->
         let st' := (broadcast bid ty data st).2 in
         (broadcast bid ty data st).1 = bid
         /\ messageQueue st' = messageQueue st
         /\ getQueueSize st' = getQueueSize st
         /\ emitted st' = (emitted st ++ [broadcast_queue_full bid ty])%list).
Proof.
  conjuncts.
  - intros options socks now ops st Hpos. unfold st in *.
    rewrite run_maxQueueSize in Hpos.
    apply run_queue_inv; [reflexivity|].
    unfold getQueueSize. cbn [constructor messageQueue JsMap.size length maxQueueSize] in *.
    lia.
  - intros st bid ty data Hone. cbn zeta. unfold broadcast.
    rewrite addToQueue_room by lia. cbn [fst snd negb]. conjuncts; try done.
    + cbn. apply get_set_eq.
    + pose proof (size_set_le bid
                    (newBroadcast bid ty data (JsSet.of_list (getClientIds st)) st)
                    (messageQueue st)) as Hs.
      unfold getQueueSize, JsMap.size in *.
      cbn [messageQueue emit with_messageQueue maxQueueSize newBroadcast qb_id]. lia.
  - intros st bid ty data Hfull. cbn zeta. unfold broadcast.
    rewrite addToQueue_full by lia. cbn [fst snd negb]. done.
Qed.

Lemma C5_witness :
  let st0 := constructor (exampleOptions 2 3) exampleSockets 1000 in
  let data := Serializable "{}" in
  let st1 := run [Broadcast "b-1" "event" data] st0 in
  let st2 := (broadcast "b-2" "event" data st1).2 in
  let st3 := (broadcast "b-3" "event" data st2).2 in
  (Z.of_nat (getQueueSize
               (run [Broadcast "b-1" "event" data; Broadcast "b-2" "event" data;
                     Broadcast "b-3" "event" data; TimerFires] st0)) <= 2)%Z
  /\ JsMap.has "b-2" (messageQueue st2) = true
  /\ messageQueue st3 = messageQueue st2
  /\ emitted st3 = (emitted st2 ++ [broadcast_queue_full "b-3" "event"])%list.
Proof.
  intros st0 data st1 st2 st3.
  destruct C5_queue_bounded_reject_when_full as (Hbound & Hroom & Hfull).
  conjuncts.
  - apply (Hbound (exampleOptions 2 3) exampleSockets 1000%Z
             [Broadcast "b-1" "event" data; Broadcast "b-2" "event" data;
              Broadcast "b-3" "event" data; TimerFires]).
    reflexivity.
  - destruct (Hroom st1 "b-2" "event" data eq_refl) as (_ & Hq & _).
    unfold JsMap.has. fold st2 in Hq. by rewrite Hq.
  - by destruct (Hfull st2 "b-3" "event" data eq_refl) as (_ & Hq & _).
  - by destruct (Hfull st2 "b-3" "event" data eq_refl) as (_ & _ & _ & He).
Defined.

End EventBroadcasterProps.

(** ** Insertion-ordered maps: keys *)

Module JsMapKeys.
Import JsMapFacts.

Section Keys.
Context {V : Type}.
Implicit Types (m : list (string * V)) (k : string) (v : V).

Lemma keys_set_present k v m :
  JsMap.has k m = true -> JsMap.keys (JsMap.set k v m) = JsMap.keys m.
Proof.
  unfold JsMap.has, JsMap.keys. induction m as [|[k' v'] m IH]; cbn; [done|].
  destruct (String.eqb_spec k k') as [->|Hne]; cbn; [done|].
  intros H. by rewrite IH.
Qed.

Lemma keys_set_fresh k v m :
  JsMap.get k m = None -> JsMap.keys (JsMap.set k v m) = (JsMap.keys m ++ [k])%list.
Proof.
  unfold JsMap.keys. induction m as [|[k' v'] m IH]; cbn; [done|].
  destruct (String.eqb_spec k k') as [->|Hne]; cbn; [done|].
  intros H. by rewrite IH.
Qed.

Lemma in_get k v m : wf m = true -> In (k, v) m -> JsMap.get k m = Some v.
Proof.
  induction m as [|[k' v'] m IH]; cbn; [done|].
  intros [Hfresh Hwf]%andb_true_iff [[= -> ->]|Hin].
  - by rewrite String.eqb_refl.
  - destruct (String.eqb_spec k k') as [->|Hne]; [|by apply IH].
    apply negb_true_iff in Hfresh. unfold JsMap.has in Hfresh.
    rewrite (IH Hwf Hin) in Hfresh. discriminate.
Qed.

Lemma get_None_nil m : (forall k, JsMap.get k m = None) -> m = [].
Proof.
  destruct m as [|[k v] m]; [done|]. intros H. specialize (H k).
  cbn in H. by rewrite String.eqb_refl in H.
Qed.

Lemma keys_delete_absent k m : ~ In k (JsMap.keys (JsMap.delete k m)).
Proof.
  intros Hin. apply has_keys in Hin. unfold JsMap.has in Hin.
  by rewrite get_delete_eq in Hin.
Qed.

End Keys.
End JsMapKeys.

(** ** Event broadcaster: registry *)

Module EventBroadcasterLaws.
Import EventBroadcaster EventBroadcasterStats EventBroadcasterSpec.
Import EventBroadcasterInvariants JsMapFacts JsMapKeys EventBroadcasterProps.

(** [registerClient] is keyed by id. Afterwards the id maps to the given
    socket with fresh metadata (joined now, no message yet, the given
    tags); every other entry, the queue and the sockets are as before. An
    id that was registered keeps its place in [getClientIds] and the
    count stays; a new id goes to the end and the count grows by one. *)
Theorem registerClient_by_id :
  forall st cid w tgs,
    let st' := registerClient cid w tgs st in
    getClient cid st' = Some w
    /\ (metadata <$> JsMap.get cid (clients st')
        = Some {| id := cid; joinedAt := clock st; lastMessageAt := None;
                  tags := Some (match tgs with
                                | Some l => JsSet.of_list l
                                | None => []
                                end) |})
    /\ (forall other, other <> cid ->
          JsMap.get other (clients st') = JsMap.get other (clients st))
    /\ (if JsMap.has cid (clients st)
        then getClientIds st' = getClientIds st
             /\ getClientCount st' = getClientCount st
        else getClientIds st' = (getClientIds st ++ [cid])%list
             /\ getClientCount st' = S (getClientCount st))
    /\ messageQueue st' = messageQueue st
    /\ sockets st' = sockets st.
Proof.
  intros st cid w tgs st'. unfold st', registerClient, getClient, getClientIds,
    getClientCount. cbn [clients emit with_clients messageQueue sockets].
  conjuncts; try done.
  - by rewrite get_set_eq.
  - by rewrite get_set_eq.
  - intros other Hne. by apply get_set_ne.
  - destruct (JsMap.has cid (clients st)) eqn:Hhas.
    + split; [by apply keys_set_present|by apply size_set_present].
    + split; [apply keys_set_fresh|apply size_set_fresh];
        unfold JsMap.has in Hhas; by destruct (JsMap.get cid (clients st)).
Qed.

Lemma same_registry_refl st : same_registry st st.
Proof. split; done. Qed.

Lemma same_registry_trans st1 st2 st3 :
  same_registry st1 st2 -> same_registry st2 st3 -> same_registry st1 st3.
Proof.
  intros [K1 S1] [K2 S2]. split; [congruence|].
  intros cid. by rewrite S2, S1.
Qed.

Lemma same_registry_clients st st' :
  clients st' = clients st -> same_registry st st'.
Proof. intros H. split; by rewrite H. Qed.

Lemma sendToClient_same_registry cid ty data st :
  same_registry st (sendToClient cid ty data st).2.
Proof.
  unfold sendToClient.
  destruct (JsMap.get cid (clients st)) as [c|] eqn:Hc; [|apply same_registry_refl].
  destruct data; cbn; [|by apply same_registry_clients].
  destruct (is_open _); [|apply same_registry_refl].
  destruct (sendThrows _); [by apply same_registry_clients|].
  split; cbn.
  - apply keys_set_present. unfold JsMap.has. by rewrite Hc.
  - intros cid'. destruct (decide (cid = cid')) as [<-|Hne].
    + by rewrite get_set_eq, Hc.
    + by rewrite get_set_ne.
Qed.

Lemma sendToTargets_fold_same_registry b (t : list string) : forall st s0 f0,
  same_registry st (fold_left (sendToTarget b) t (st, s0, f0)).1.1.
Proof.
  induction t as [|c t IH]; intros st s0 f0; [apply same_registry_refl|].
  cbn [fold_left]. rewrite sendToTarget_eq. cbn zeta.
  pose proof (sendToClient_same_registry c (qb_type b) (qb_data b) st) as Hs.
  destruct (deliverable st (qb_data b) c);
    (eapply same_registry_trans; [exact Hs|apply IH]).
Qed.

Lemma sendToTargets_same_registry b st :
  same_registry st (sendToTargets b st).1.1.
Proof.
  unfold sendToTargets. destruct (targetClients b) as [t|].
  - apply sendToTargets_fold_same_registry.
  - apply same_registry_refl.
Qed.

Lemma processBroadcast_same_registry st fl bid b :
  same_registry st (processBroadcast (st, fl) (bid, b)).1.
Proof.
  destruct (processBroadcast_spec st fl bid b) as (_ & _ & _ & _ & _ & Hc).
  cbn zeta in Hc.
  eapply same_registry_trans; [apply (sendToTargets_same_registry b st)|].
  by apply same_registry_clients.
Qed.

Lemma processQueue_same_registry st : same_registry st (processQueue st).
Proof.
  rewrite processQueue_eq.
  assert (forall l s fl,
            same_registry s (fold_left processBroadcast l (s, fl)).1) as Hf.
  { induction l as [|[k0 b0] l IH]; intros s fl; [apply same_registry_refl|].
    cbn [fold_left].
    pose proof (processBroadcast_same_registry s fl k0 b0) as H0.
    destruct (processBroadcast (s, fl) (k0, b0)) as [s1 fl1].
    eapply same_registry_trans; [exact H0|apply IH]. }
  eapply same_registry_trans; [apply Hf|].
  apply same_registry_clients. apply dropFailed_spec.
Qed.

(** A queued broadcast that is still queued after a sweep is the one that
    was queued before, with one more retry, and it had a retry left. *)
Lemma processQueue_survivor st k b' :
  wf (messageQueue st) = true ->
  JsMap.get k (messageQueue (processQueue st)) = Some b' ->
  exists b,
    JsMap.get k (messageQueue st) = Some b
    /\ b' = incrRetry b
    /\ (retryCount b + 1 < qb_maxRetries b)%Z.
Proof.
  intros Hwf. rewrite processQueue_eq.
  destruct (processQueue_fold (messageQueue st) st [] Hwf) as (_ & F2 & F3 & _).
  cbn zeta in F2, F3.
  set (res := fold_left processBroadcast (messageQueue st) (st, [])) in *.
  destruct (dropFailed_spec res.2 res.1) as (_ & _ & _ & _ & _ & D6 & D7).
  cbn zeta in D6, D7.
  destruct (in_dec String.string_dec k res.2) as [Hin|Hnin]; [by rewrite D6|].
  rewrite (D7 _ Hnin), F2.
  destruct (JsMap.get k (messageQueue st)) as [b|] eqn:Hg; [|done].
  destruct (outcome st b) eqn:Ho; [done| |].
  - intros [= <-]. exists b. conjuncts; [done|done|].
    unfold outcome in Ho. destruct (0 <? failedCountOf st b)%nat; [|done].
    destruct (Z.geb_spec (retryCount b + 1) (qb_maxRetries b)); [done|lia].
  - exfalso. apply Hnin, F3. right. by exists b, failedCount.
Qed.

(** A sweep only sends and retires: it registers and unregisters nobody,
    changes no socket's state, no tag and no configuration, and puts
    nothing into the queue. Whatever is queued afterwards was queued
    before, with the same targets and one more retry. *)
Theorem processQueue_only_sends_and_retires :
  forall st,
    JsMap.wf (messageQueue st) = true ->
    let st' := processQueue st in
    getClientIds st' = getClientIds st
    /\ (forall cid,
          static_part <$> JsMap.get cid (clients st')
          = static_part <$> JsMap.get cid (clients st))
    /\ (forall r, readyState (sockets st' r) = readyState (sockets st r))
    /\ maxQueueSize st' = maxQueueSize st
    /\ maxRetries st' = maxRetries st
    /\ queueProcessingInterval st' = queueProcessingInterval st
    /\ (forall k b',
          JsMap.get k (messageQueue st') = Some b' ->
          exists b, JsMap.get k (messageQueue st) = Some b
                    /\ retryCount b' = (retryCount b + 1)%Z
                    /\ targetClients b' = targetClients b
                    /\ qb_data b' = qb_data b)
    /\ getQueueSize st' <= getQueueSize st.
Proof.
  intros st Hwf st'.
  destruct (processQueue_same_registry st) as [Hk Hs].
  pose proof (processQueue_calm st) as Hc.
  conjuncts.
  - exact Hk.
  - exact Hs.
  - intros r. apply (calm_sinks _ _ Hc).
  - apply (calm_maxQueueSize _ _ Hc).
  - apply (calm_maxRetries _ _ Hc).
  - apply (calm_interval _ _ Hc).
  - intros k b' Hg. destruct (processQueue_survivor st k b' Hwf Hg) as (b & Hb & -> & _).
    by exists b.
  - by apply processQueue_size.
Qed.

Lemma processQueue_only_sends_and_retires_witness :
  let st := (broadcast "b-1" "event" (Serializable "{}") (threeClients 10 3)).2 in
  getClientIds (processQueue st) = ["a"; "b"; "c"]
  /\ getQueueSize (processQueue st) <= 1.
Proof.
  intros st.
  destruct (processQueue_only_sends_and_retires st eq_refl)
    as (Hids & _ & _ & _ & _ & _ & _ & Hsize).
  split; [exact Hids|exact Hsize].
Defined.

(** *** Invariants of the registry *)

Lemma wf_keys {V} (m m' : list (string * V)) :
  JsMap.keys m' = JsMap.keys m -> wf m = true -> wf m' = true.
Proof. intros Hk Hwf. apply wf_NoDup. rewrite Hk. by apply wf_NoDup. Qed.

Lemma JsSet_add_NoDup x s : NoDup s -> NoDup (JsSet.add x s).
Proof.
  intros Hnd. unfold JsSet.add. destruct (JsSet.has x s) eqn:Hx; [done|].
  apply NoDup_app. conjuncts; [done| |apply NoDup_singleton].
  intros y Hy ->%list_elem_of_singleton.
  apply list_elem_of_In, JsSetFacts.has_In in Hy. congruence.
Qed.

Lemma JsSet_of_list_NoDup l : NoDup (JsSet.of_list l).
Proof.
  unfold JsSet.of_list.
  assert (forall s, NoDup s -> NoDup (fold_left (fun s x => JsSet.add x s) l s)) as H.
  { induction l as [|x l IH]; intros s Hs; [done|]. cbn. by apply IH, JsSet_add_NoDup. }
  apply H, NoDup_nil_2.
Qed.

Lemma JsSet_delete_NoDup x s : NoDup s -> NoDup (JsSet.delete x s).
Proof.
  intros Hnd. unfold JsSet.delete. apply NoDup_ListNoDup, List.NoDup_filter.
  by apply NoDup_ListNoDup.
Qed.

Lemma addToQueue_clients b st : clients (addToQueue b st).2 = clients st.
Proof. unfold addToQueue. by destruct (_ >=? _)%Z. Qed.

Lemma broadcastToClients_clients bid ids ty data st :
  clients (broadcastToClients bid ids ty data st).2 = clients st.
Proof.
  unfold broadcastToClients. destruct (length _ =? 0)%nat; [done|].
  pose proof (addToQueue_clients
                (newBroadcast bid ty data
                   (JsSet.of_list (List.filter (fun c => JsMap.has c (clients st)) ids)) st)
                st) as H.
  by destruct (addToQueue _ st) as [[] st1].
Qed.

Lemma registryInv_clients st st' :
  clients st' = clients st -> registryInv st -> registryInv st'.
Proof. intros H. unfold registryInv. by rewrite H. Qed.

Lemma registryInv_same_registry st st' :
  same_registry st st' -> registryInv st -> registryInv st'.
Proof.
  intros [Hk Hs] [Hwf Hok]. split; [by eapply wf_keys|].
  intros cid cl' Hg. specialize (Hs cid). rewrite Hg in Hs.
  destruct (JsMap.get cid (clients st)) as [cl|] eqn:Hg0; [|done].
  injection Hs as Hws Hid Hj Ht. destruct (Hok cid cl Hg0) as [Hi Htags].
  split; [congruence|]. by rewrite Ht.
Qed.

Lemma registryInv_set st cid cl :
  registryInv st -> client_ok cid cl ->
  registryInv (with_clients (JsMap.set cid cl (clients st)) st).
Proof.
  intros [Hwf Hok] Hcl. split; cbn; [by apply wf_set|].
  intros c cl'. destruct (decide (cid = c)) as [<-|Hne].
  - rewrite get_set_eq. by intros [= <-].
  - rewrite get_set_ne by done. apply Hok.
Qed.

Lemma step_registryInv st op : registryInv st -> registryInv (step st op).
Proof.
  intros Hinv. destruct op; cbn [step].
  - unfold registerClient. eapply registryInv_clients; [reflexivity|].
    apply (registryInv_set st); [done|]. split; [done|]. eexists. split; [done|].
    destruct tgs; [apply JsSet_of_list_NoDup|apply NoDup_nil_2].
  - unfold unregisterClient. destruct (JsMap.get cid (clients st)) as [cl0|]; [|done].
    destruct Hinv as [Hwf Hok]. split; cbn; [by apply wf_delete|].
    intros c cl'. destruct (decide (cid = c)) as [<-|Hne].
    + by rewrite get_delete_eq.
    + rewrite get_delete_ne by done. apply Hok.
  - unfold addClientTag. destruct (JsMap.get cid (clients st)) as [cl|] eqn:Hg; [|done].
    apply (registryInv_set st); [done|].
    destruct Hinv as [_ Hok]. destruct (Hok cid cl Hg) as [Hi (t & Ht & Hnd)].
    split; [done|]. cbn. rewrite Ht. eexists. split; [done|]. by apply JsSet_add_NoDup.
  - unfold removeClientTag. destruct (JsMap.get cid (clients st)) as [cl|] eqn:Hg; [|done].
    destruct (tags (metadata cl)) as [t|] eqn:Ht; [|done].
    apply (registryInv_set st); [done|].
    destruct Hinv as [_ Hok]. destruct (Hok cid cl Hg) as [Hi (t' & Ht' & Hnd)].
    split; [done|]. cbn. eexists. split; [done|].
    apply JsSet_delete_NoDup. congruence.
  - eapply registryInv_clients; [|exact Hinv]. unfold broadcast.
    pose proof (addToQueue_clients
                  (newBroadcast broadcastId type data (JsSet.of_list (getClientIds st)) st)
                  st) as H.
    by destruct (addToQueue _ st) as [[] st1].
  - eapply registryInv_clients; [apply broadcastToClients_clients|exact Hinv].
  - eapply registryInv_clients; [apply broadcastToClients_clients|exact Hinv].
  - eapply registryInv_same_registry; [apply sendToClient_same_registry|exact Hinv].
  - unfold startQueueProcessing. by destruct (queueProcessingInterval st).
  - unfold stopQueueProcessing. by destruct (queueProcessingInterval st).
  - destruct (queueProcessingInterval st); [|done].
    eapply registryInv_same_registry; [apply processQueue_same_registry|exact Hinv].
  - done.
  - split; [done|]. intros c cl. unfold closeAll. cbn. done.
  - done.
  - done.
Qed.

(** In every state reached from a fresh broadcaster, whatever the
    operations were: [getClientIds] lists no id twice and as many ids as
    [getClientCount] counts, an id is listed exactly when [getClient]
    finds it, every entry's metadata carries the id it is registered
    under, and its tags hold no tag twice. *)
Theorem registry_ids_are_distinct :
  forall options socks now ops,
    let st := run ops (constructor options socks now) in
    NoDup (getClientIds st)
    /\ getClientCount st = length (getClientIds st)
    /\ (forall cid, In cid (getClientIds st) <-> getClient cid st <> None)
    /\ (forall cid cl, JsMap.get cid (clients st) = Some cl ->
          id (metadata cl) = cid
          /\ exists t, tags (metadata cl) = Some t /\ NoDup t).
Proof.
  intros options socks now ops st.
  assert (registryInv st) as [Hwf Hok].
  { unfold st, run.
    assert (forall l s, registryInv s -> registryInv (fold_left step l s)) as H.
    { induction l as [|o l IH]; intros s Hs; [done|]. cbn. by apply IH, step_registryInv. }
    apply H. split; [done|]. intros cid cl. cbn. done. }
  conjuncts.
  - by apply wf_NoDup.
  - unfold getClientCount, getClientIds, JsMap.size, JsMap.keys. by rewrite length_map.
  - intros cid. unfold getClientIds, getClient. rewrite <- has_keys. unfold JsMap.has.
    destruct (JsMap.get cid (clients st)); cbn; split; congruence.
  - exact Hok.
Qed.

(** *** Invariants of the queue *)

Lemma queueInv_frame st st' :
  messageQueue st' = messageQueue st -> maxRetries st' = maxRetries st ->
  queueInv st -> queueInv st'.
Proof. intros Hq Hm. unfold queueInv, queued_ok. by rewrite Hq, Hm. Qed.

Lemma addToQueue_queueInv bid ty data targets st :
  queueInv st -> queueInv (addToQueue (newBroadcast bid ty data targets st) st).2.
Proof.
  intros [Hwf Hok]. unfold addToQueue.
  destruct (_ >=? _)%Z; [done|]. cbn [snd]. split; cbn; [by apply wf_set|].
  intros k b. destruct (decide (bid = k)) as [<-|Hne].
  - rewrite get_set_eq. intros [= <-]. unfold queued_ok. cbn. conjuncts; done.
  - rewrite get_set_ne by done. apply Hok.
Qed.

Lemma closeAll_frame code reason st :
  messageQueue (closeAll code reason st) = messageQueue st
  /\ maxRetries (closeAll code reason st) = maxRetries st.
Proof.
  assert (forall l s, messageQueue (fold_left (closeClient code reason) l s) = messageQueue s
                      /\ maxRetries (fold_left (closeClient code reason) l s) = maxRetries s
                      /\ queueProcessingInterval (fold_left (closeClient code reason) l s)
                         = queueProcessingInterval s) as Hf.
  { induction l as [|[cid cl] l IH]; intros s; [done|]. cbn [fold_left].
    destruct (IH (closeClient code reason s (cid, cl))) as (-> & -> & ->).
    unfold closeClient. destruct (is_open _); [|done]. by destruct (closeThrows _). }
  unfold closeAll, stopQueueProcessing. cbn.
  destruct (Hf (clients st) st) as (H1 & H2 & H3).
  destruct (queueProcessingInterval _); cbn; by rewrite H1, H2.
Qed.

Lemma step_queueInv st op : queueInv st -> queueInv (step st op).
Proof.
  intros Hinv. destruct op; cbn [step].
  - done.
  - unfold unregisterClient. by destruct (JsMap.get cid (clients st)).
  - unfold addClientTag. by destruct (JsMap.get cid (clients st)).
  - unfold removeClientTag. destruct (JsMap.get cid (clients st)) as [cl|]; [|done].
    by destruct (tags (metadata cl)).
  - unfold broadcast.
    pose proof (addToQueue_queueInv broadcastId type data
                  (JsSet.of_list (getClientIds st)) st Hinv) as H.
    by destruct (addToQueue _ st) as [[] st1].
  - unfold broadcastToClients. destruct (length _ =? 0)%nat; [done|].
    pose proof (addToQueue_queueInv broadcastId type data
                  (JsSet.of_list (List.filter (fun c => JsMap.has c (clients st)) clientIds))
                  st Hinv) as H.
    by destruct (addToQueue _ st) as [[] st1].
  - unfold broadcastToTag, broadcastToClients. destruct (length _ =? 0)%nat; [done|].
    pose proof (addToQueue_queueInv broadcastId type data
                  (JsSet.of_list
                     (List.filter (fun c => JsMap.has c (clients st))
                        (getClientsByTag tag st)))
                  st Hinv) as H.
    by destruct (addToQueue _ st) as [[] st1].
  - destruct (sendToClient_calm cid type data st) as [Hc Hq].
    eapply queueInv_frame; [exact Hq|exact (calm_maxRetries _ _ Hc)|exact Hinv].
  - unfold startQueueProcessing. by destruct (queueProcessingInterval st).
  - unfold stopQueueProcessing. by destruct (queueProcessingInterval st).
  - destruct (queueProcessingInterval st); [|done].
    destruct Hinv as [Hwf Hok]. split; [by apply processQueue_wf|].
    intros k b' Hg.
    destruct (processQueue_survivor st k b' Hwf Hg) as (b & Hb & -> & Hlt).
    destruct (Hok k b Hb) as (H1 & H2 & H3 & H4 & H5).
    unfold queued_ok. rewrite (calm_maxRetries _ _ (processQueue_calm st)).
    cbn. conjuncts; try done; lia.
  - split; [done|]. intros k b. cbn. done.
  - destruct (closeAll_frame code reason st) as [Hq Hm].
    by eapply queueInv_frame.
  - done.
  - done.
Qed.

Lemma reachable_queueInv options socks now ops :
  queueInv (run ops (constructor options socks now)).
Proof.
  unfold run.
  assert (forall l s, queueInv s -> queueInv (fold_left step l s)) as H.
  { induction l as [|o l IH]; intros s Hs; [done|]. cbn. by apply IH, step_queueInv. }
  apply H. split; [done|]. intros k b. cbn. done.
Qed.

Lemma run_maxRetries ops : forall st, maxRetries (run ops st) = maxRetries st.
Proof.
  assert (forall st op, maxRetries (step st op) = maxRetries st) as Hstep.
  { intros st op. destruct op; cbn [step]; try done.
    - unfold unregisterClient. by destruct (JsMap.get cid (clients st)).
    - unfold addClientTag. by destruct (JsMap.get cid (clients st)).
    - unfold removeClientTag. destruct (JsMap.get cid (clients st)) as [c|]; [|done].
      by destruct (tags (metadata c)).
    - unfold broadcast, addToQueue. by destruct (_ >=? _)%Z.
    - unfold broadcastToClients, addToQueue.
      destruct (length _ =? 0)%nat; [done|]. by destruct (_ >=? _)%Z.
    - unfold broadcastToTag, broadcastToClients, addToQueue.
      destruct (length _ =? 0)%nat; [done|]. by destruct (_ >=? _)%Z.
    - destruct (sendToClient_calm cid type data st) as [Hc _].
      exact (calm_maxRetries _ _ Hc).
    - unfold startQueueProcessing. by destruct (queueProcessingInterval st).
    - unfold stopQueueProcessing. by destruct (queueProcessingInterval st).
    - destruct (queueProcessingInterval st); [|done].
      exact (calm_maxRetries _ _ (processQueue_calm st)).
    - apply closeAll_frame. }
  induction ops as [|op ops IH]; intros st; [done|].
  cbn [run fold_left]. fold (run ops (step st op)). by rewrite IH, Hstep.
Qed.

(** What [getQueueStats] reports in any state reached from a fresh
    broadcaster: [size] is the number of listed broadcasts, no broadcast
    id is listed twice, the retry counts are never negative, and with a
    positive [maxRetries] every listed retry count is below it (a
    broadcast that used up its retries is not in the queue any more). *)
Theorem getQueueStats_reachable :
  forall options socks now ops,
    let st := run ops (constructor options socks now) in
    let stats := getQueueStats st in
    qs_size stats = length (qs_broadcasts stats)
    /\ NoDup (bs_id <$> qs_broadcasts stats)
    /\ Forall (fun s => (0 <= bs_retryCount s)%Z
                        /\ ((0 < maxRetries st)%Z ->
                            (bs_retryCount s < maxRetries st)%Z))
         (qs_broadcasts stats).
Proof.
  intros options socks now ops st stats.
  destruct (reachable_queueInv options socks now ops) as [Hwf Hok]. fold st in Hwf, Hok.
  unfold stats, getQueueStats. cbn [qs_size qs_broadcasts].
  assert (forall k b, In (k, b) (messageQueue st) -> queued_ok st k b) as Hin.
  { intros k b H. apply Hok. by apply in_get. }
  conjuncts.
  - unfold JsMap.size. by rewrite length_map.
  - assert (bs_id <$> map (fun kv => broadcastStats kv.2) (messageQueue st)
            = JsMap.keys (messageQueue st)) as ->.
    { unfold JsMap.keys. clear Hwf Hok.
      induction (messageQueue st) as [|[k b] l IH]; [done|]. cbn.
      rewrite IH by (intros; apply Hin; by right).
      f_equal. apply (Hin k b). by left. }
    by apply wf_NoDup.
  - apply Forall_forall. intros s Hs. apply list_elem_of_In, in_map_iff in Hs.
    destruct Hs as ([k b] & <- & Hkb). destruct (Hin k b Hkb) as (_ & _ & _ & H4 & H5).
    cbn. done.
Qed.

(** *** Bounded lifetime *)

Lemma sweepsAt_survivor : forall times st k b',
  wf (messageQueue st) = true ->
  JsMap.get k (messageQueue (sweepsAt times st)) = Some b' ->
  exists b,
    JsMap.get k (messageQueue st) = Some b
    /\ retryCount b' = (retryCount b + Z.of_nat (length times))%Z
    /\ qb_maxRetries b' = qb_maxRetries b
    /\ (times <> [] -> (retryCount b' < qb_maxRetries b')%Z).
Proof.
  induction times as [|t times IH]; intros st k b' Hwf Hg.
  - exists b'. cbn in *. conjuncts; [done|lia|done|done].
  - cbn [sweepsAt] in Hg.
    assert (wf (messageQueue (with_clock t st)) = true) as Hwf1 by exact Hwf.
    pose proof (processQueue_wf _ Hwf1) as Hwf2.
    destruct (IH _ k b' Hwf2 Hg) as (b2 & Hg2 & Hr & Hm & Hb).
    destruct (processQueue_survivor _ k b2 Hwf1 Hg2) as (b & Hgb & -> & Hlt).
    exists b. cbn [retryCount incrRetry qb_maxRetries length] in *.
    conjuncts; [exact Hgb|lia|done|].
    intros _. destruct times as [|t' times]; [cbn in Hr; lia|]. by apply Hb.
Qed.

(** Sweeps drain the queue: if nothing is enqueued in between, no
    broadcast outlives as many sweeps as its retry budget, whatever the
    sinks do. *)
Lemma sweepsAt_drains times st :
  wf (messageQueue st) = true ->
  times <> [] ->
  (forall k b, JsMap.get k (messageQueue st) = Some b ->
               (0 <= retryCount b)%Z
               /\ (qb_maxRetries b <= Z.of_nat (length times))%Z) ->
  messageQueue (sweepsAt times st) = [].
Proof.
  intros Hwf Hne Hb. apply get_None_nil. intros k.
  destruct (JsMap.get k (messageQueue (sweepsAt times st))) as [b'|] eqn:Hg; [|done].
  destruct (sweepsAt_survivor times st k b' Hwf Hg) as (b & Hgb & Hr & Hm & Hlt).
  specialize (Hlt Hne). destruct (Hb k b Hgb). lia.
Qed.

(** Starting from any state reached from a fresh broadcaster with a
    positive [maxRetries]: after [maxRetries] sweeps with no enqueue in
    between, the queue is empty, whether the sinks accepted the sends or
    not. *)
Theorem queue_empty_after_maxRetries_sweeps :
  forall options socks now ops times,
    let st := run ops (constructor options socks now) in
    (0 < maxRetries st)%Z ->
    Z.of_nat (length times) = maxRetries st ->
    messageQueue (sweepsAt times st) = []
    /\ getQueueSize (sweepsAt times st) = 0.
Proof.
  intros options socks now ops times st Hpos Hlen.
  destruct (reachable_queueInv options socks now ops) as [Hwf Hok]. fold st in Hwf, Hok.
  assert (messageQueue (sweepsAt times st) = []) as Hq.
  { apply sweepsAt_drains; [done| |].
    - intros ->. cbn in Hlen. lia.
    - intros k b Hg. destruct (Hok k b Hg) as (_ & _ & H3 & H4 & _). lia. }
  split; [exact Hq|]. unfold getQueueSize. by rewrite Hq.
Qed.

Lemma queue_empty_after_maxRetries_sweeps_witness :
  let st := run [RegisterClient "a" 0 None; RegisterClient "b" 3 None;
                 Broadcast "b-1" "event" (Serializable "{}");
                 Broadcast "b-2" "event" Unserializable]
              (constructor (exampleOptions 10 2) exampleSockets 1000) in
  getQueueSize st = 2
  /\ messageQueue (sweepsAt [2000; 3000]%Z st) = [].
Proof.
  intros st. split; [reflexivity|].
  apply (queue_empty_after_maxRetries_sweeps (exampleOptions 10 2) exampleSockets 1000%Z
           [RegisterClient "a" 0 None; RegisterClient "b" 3 None;
            Broadcast "b-1" "event" (Serializable "{}");
            Broadcast "b-2" "event" Unserializable] [2000; 3000]%Z);
    reflexivity.
Defined.

(** *** Target sets are snapshots *)

Lemma sendToTargets_fold_untargeted b cid (t : list string) : forall st s0 f0,
  ~ In cid t ->
  JsMap.get cid (clients (fold_left (sendToTarget b) t (st, s0, f0)).1.1)
  = JsMap.get cid (clients st).
Proof.
  induction t as [|c t IH]; intros st s0 f0 Hnin; [done|].
  cbn [fold_left]. rewrite sendToTarget_eq. cbn zeta.
  assert (cid <> c) as Hne by (intros ->; apply Hnin; by left).
  assert (~ In cid t) as Hnin' by (intros H; apply Hnin; by right).
  pose proof (sendToClient_clients c (qb_type b) (qb_data b) st cid (or_introl Hne)) as Hc.
  destruct (deliverable st (qb_data b) c); by rewrite IH.
Qed.

Lemma filter_none {A} (f : A -> bool) (l : list A) :
  (forall x, In x l -> f x = false) -> List.filter f l = [].
Proof.
  induction l as [|x l IH]; intros H; [done|]. cbn.
  rewrite (H x) by (by left). apply IH. intros y Hy. apply H. by right.
Qed.

(** A sweep sends nothing to a socket on which no target of a queued
    broadcast is registered, and leaves alone the registry entry of an id
    that no queued broadcast names. *)
Lemma processQueue_untargeted st r cid :
  (forall k b c, In (k, b) (messageQueue st) -> In c (targetsOf b) ->
                 deliversTo st (qb_data b) r c = false) ->
  (forall k b, In (k, b) (messageQueue st) -> ~ In cid (targetsOf b)) ->
  inbox (sockets (processQueue st) r) = inbox (sockets st r)
  /\ JsMap.get cid (clients (processQueue st)) = JsMap.get cid (clients st).
Proof.
  rewrite processQueue_eq.
  assert (forall l s fl,
    (forall k b c, In (k, b) l -> In c (targetsOf b) ->
                   deliversTo s (qb_data b) r c = false) ->
    (forall k b, In (k, b) l -> ~ In cid (targetsOf b)) ->
    inbox (sockets (fold_left processBroadcast l (s, fl)).1 r) = inbox (sockets s r)
    /\ JsMap.get cid (clients (fold_left processBroadcast l (s, fl)).1)
       = JsMap.get cid (clients s)) as Hf.
  { induction l as [|[k0 b0] l IH]; intros s fl Hd Hn; [done|].
    cbn [fold_left].
    destruct (processBroadcast_spec s fl k0 b0) as (Hc & _ & _ & _ & Hsk & Hcl).
    destruct (sendToTargets_spec b0 s) as (_ & _ & _ & _ & Hin & _).
    cbn zeta in Hsk, Hcl, Hin.
    assert (JsMap.get cid (clients (sendToTargets b0 s).1.1) = JsMap.get cid (clients s))
      as Hun.
    { unfold sendToTargets.
      specialize (Hn k0 b0 (or_introl eq_refl)). unfold targetsOf in Hn.
      destruct (targetClients b0) as [t|]; [|done].
      by apply sendToTargets_fold_untargeted. }
    destruct (processBroadcast (s, fl) (k0, b0)) as [s1 fl1]. cbn [fst] in *.
    destruct (IH s1 fl1) as [I1 I2].
    - intros k b c Hkb Hcb. rewrite (deliversTo_same_sinks _ _ _ _ _ (calm_sinks _ _ Hc)).
      apply (Hd k b c); [by right|done].
    - intros k b Hkb. apply (Hn k b). by right.
    - rewrite I1, I2, Hsk, Hcl, Hin, Hun. split; [|done].
      rewrite filter_none; [cbn; by rewrite framesOf_0, app_nil_r|].
      intros c Hcb. apply (Hd k0 b0 c); [by left|done]. }
  intros Hd Hn.
  destruct (Hf (messageQueue st) st [] Hd Hn) as [F1 F2].
  set (res := fold_left processBroadcast (messageQueue st) (st, [])) in *.
  destruct (dropFailed_spec res.2 res.1) as (_ & _ & D3 & D4 & _).
  cbn zeta in D3, D4. by rewrite D3, D4.
Qed.

Lemma JsSet_of_list_In x l : In x (JsSet.of_list l) <-> In x l.
Proof.
  unfold JsSet.of_list.
  assert (forall s, In x (fold_left (fun s y => JsSet.add y s) l s) <-> In x s \/ In x l) as H.
  { induction l as [|y l IH]; intros s; cbn; [tauto|]. rewrite IH.
    unfold JsSet.add. destruct (JsSet.has y s) eqn:Hy.
    - apply JsSetFacts.has_In in Hy. split; [tauto|]. intros [?|[<-|?]]; tauto.
    - rewrite in_app_iff. cbn. tauto. }
  rewrite H. cbn. tauto.
Qed.

(** The targets of a broadcast are the ids registered when it is
    enqueued. A client that registers afterwards under an id that no
    queued broadcast names, on a socket no other client uses, receives
    nothing from the sweeps that follow: its socket gets no frame and its
    entry records no message. *)
Theorem late_joiner_receives_nothing :
  forall st bid ty data d w tgs times,
    JsMap.wf (messageQueue st) = true ->
    (Z.of_nat (getQueueSize st) < maxQueueSize st)%Z ->
    JsMap.get d (clients st) = None ->
    (forall k b, JsMap.get k (messageQueue st) = Some b -> ~ In d (targetsOf b)) ->
    (forall c cl, JsMap.get c (clients st) = Some cl -> ws cl <> w) ->
    let st1 := (broadcast bid ty data st).2 in
    let st2 := registerClient d w tgs st1 in
    let st' := sweepsAt times st2 in
    (targetsOf <$> JsMap.get bid (messageQueue st1)
     = Some (JsSet.of_list (getClientIds st)))
    /\ inbox (sockets st' w) = inbox (sockets st w)
    /\ (lastMessageAt <$> (metadata <$> JsMap.get d (clients st'))) = Some None.
Proof.
  intros st bid ty data d w tgs times Hwf Hroom Hd Hq Hw.
  assert (broadcast bid ty data st
          = (bid, emit (broadcast_queued bid ty
                          (length (JsSet.of_list (getClientIds st))))
                    (with_messageQueue
                       (JsMap.set bid
                          (newBroadcast bid ty data (JsSet.of_list (getClientIds st)) st)
                          (messageQueue st)) st))) as Hb.
  { unfold broadcast. by rewrite addToQueue_room. }
  cbn zeta. rewrite Hb. cbn [snd].
  set (nb := newBroadcast bid ty data (JsSet.of_list (getClientIds st)) st).
  set (st2 := registerClient d w tgs _).
  (* what the sweeps preserve *)
  assert (forall ts s,
    wf (messageQueue s) = true ->
    (forall k b, JsMap.get k (messageQueue s) = Some b -> ~ In d (targetsOf b)) ->
    (forall c cl, c <> d -> JsMap.get c (clients s) = Some cl -> ws cl <> w) ->
    inbox (sockets (sweepsAt ts s) w) = inbox (sockets s w)
    /\ JsMap.get d (clients (sweepsAt ts s)) = JsMap.get d (clients s)) as Hsweeps.
  { induction ts as [|t ts IH]; intros s Hwfs Hqs Hws; [done|].
    cbn [sweepsAt]. set (s1 := with_clock t s).
    destruct (processQueue_untargeted s1 w d) as [P1 P2].
    - intros k b c Hkb Hcb. unfold deliversTo.
      destruct (JsMap.get c (clients s1)) as [cl|] eqn:Hc; [|by rewrite andb_false_r].
      assert (c <> d) as Hne.
      { intros ->. apply (Hqs k b); [|done]. apply in_get; done. }
      destruct (Nat.eqb_spec (ws cl) w) as [Heq|_]; [|by rewrite andb_false_r].
      by destruct (Hws c cl Hne Hc).
    - intros k b Hkb. apply (Hqs k b). by apply in_get.
    - destruct (IH (processQueue s1)) as [I1 I2].
      + by apply processQueue_wf.
      + intros k b' Hg.
        destruct (processQueue_survivor s1 k b' Hwfs Hg) as (b & Hgb & -> & _).
        apply (Hqs k b Hgb).
      + intros c cl' Hne Hg.
        destruct (processQueue_same_registry s1) as [_ Hs]. specialize (Hs c).
        rewrite Hg in Hs.
        destruct (JsMap.get c (clients s1)) as [cl|] eqn:Hg1; [|done].
        injection Hs as Hws' _ _ _. rewrite Hws'. by apply (Hws c cl).
      + by rewrite I1, I2, P1, P2. }
  destruct (Hsweeps times st2) as [S1 S2].
  - cbn. by apply wf_set.
  - intros k b. cbn. destruct (decide (bid = k)) as [<-|Hne].
    + rewrite get_set_eq. intros [= <-]. cbn. rewrite JsSet_of_list_In.
      unfold getClientIds. rewrite <- has_keys. unfold JsMap.has. by rewrite Hd.
    + rewrite get_set_ne by done. apply Hq.
  - intros c cl Hne. cbn. rewrite get_set_ne by done. apply Hw.
  - conjuncts.
    + cbn. by rewrite get_set_eq.
    + by rewrite S1.
    + rewrite S2. cbn. by rewrite get_set_eq.
Qed.

Lemma late_joiner_receives_nothing_witness :
  let st := threeClients 10 3 in
  let st1 := (broadcast "b-1" "event" (Serializable "{}") st).2 in
  let st2 := registerClient "d" 7 None st1 in
  let st' := sweepsAt [2000; 3000; 4000]%Z st2 in
  inbox (sockets st' 7) = []
  /\ inbox (sockets st' 1) <> [].
Proof.
  intros st st1 st2 st'. split; [|by vm_compute].
  assert (Z.of_nat (getQueueSize st) < maxQueueSize st)%Z as Hroom by (vm_compute; reflexivity).
  assert (forall k b, JsMap.get k (messageQueue st) = Some b -> ~ In "d" (targetsOf b))
    as Hq by (intros k b H; discriminate H).
  assert (forall c cl, JsMap.get c (clients st) = Some cl -> ws cl <> 7) as Hw.
  { intros c cl. cbn.
    repeat (destruct (String.eqb c _); [intros [= <-]; cbn; lia|]). discriminate. }
  destruct (late_joiner_receives_nothing st "b-1" "event" (Serializable "{}") "d" 7 None
              [2000; 3000; 4000]%Z eq_refl Hroom eq_refl Hq Hw) as (_ & Hin & _).
  exact Hin.
Defined.

(** *** Direct send *)

(** [sendToClient] goes past the queue. It answers true exactly when the
    id is registered, the payload serializes and the socket is open and
    accepts the send; then that socket, and no other, receives the one
    frame (type, payload, current time), the entry's [lastMessageAt]
    becomes the current time and the sent notification is emitted. When
    it answers false no socket and no registry entry changes. The error
    notification is emitted exactly when the [try] block raises
    ([raisesOnSend]): for a registered id whose payload does not
    serialize, also when its socket is not open, and for an open socket
    whose [send] throws; an unknown id, and a socket that is not open
    with a payload that serializes, give a silent false. The queue is
    never touched and nothing is retried. *)
Theorem sendToClient_fire_and_forget :
  forall st cid ty data,
    let ok := (sendToClient cid ty data st).1 in
    let st' := (sendToClient cid ty data st).2 in
    ok = deliverable st data cid
    /\ messageQueue st' = messageQueue st
    /\ (ok = true ->
        exists cl text,
          JsMap.get cid (clients st) = Some cl
          /\ data = Serializable text
          /\ inbox (sockets st' (ws cl))
             = (inbox (sockets st (ws cl)) ++ [frameAt ty text (clock st)])%list
          /\ (forall r, r <> ws cl -> sockets st' r = sockets st r)
          /\ JsMap.get cid (clients st') = Some (with_lastMessageAt (clock st) cl)
          /\ emitted st' = (emitted st ++ [message_sent cid ty])%list)
    /\ (ok = false ->
        sockets st' = sockets st
        /\ clients st' = clients st
        /\ emitted st'
           = if raisesOnSend st data cid
             then (emitted st ++ [message_error cid ty])%list
             else emitted st)
    /\ (raisesOnSend st data cid = true -> ok = false)
    /\ (JsMap.get cid (clients st) = None -> st' = st)
    /\ (forall cl text,
          JsMap.get cid (clients st) = Some cl ->
          is_open (readyState (sockets st (ws cl))) = false ->
          (sendToClient cid ty (Serializable text) st).2 = st
          /\ emitted (sendToClient cid ty Unserializable st).2
             = (emitted st ++ [message_error cid ty])%list).
Proof.
  intros st cid ty data. cbn zeta.
  split; [apply sendToClient_result|].
  assert (forall cl text,
             JsMap.get cid (clients st) = Some cl ->
             is_open (readyState (sockets st (ws cl))) = false ->
             (sendToClient cid ty (Serializable text) st).2 = st
             /\ emitted (sendToClient cid ty Unserializable st).2
                = (emitted st ++ [message_error cid ty])%list) as Hclosed.
  { intros cl text Hg Hopen. unfold sendToClient. rewrite Hg.
    cbn [JSON_stringify]. by rewrite Hopen. }
  cut (messageQueue (sendToClient cid ty data st).2 = messageQueue st
       /\ ((sendToClient cid ty data st).1 = true ->
           exists cl text,
             JsMap.get cid (clients st) = Some cl
             /\ data = Serializable text
             /\ inbox (sockets (sendToClient cid ty data st).2 (ws cl))
                = (inbox (sockets st (ws cl)) ++ [frameAt ty text (clock st)])%list
             /\ (forall r, r <> ws cl ->
                   sockets (sendToClient cid ty data st).2 r = sockets st r)
             /\ JsMap.get cid (clients (sendToClient cid ty data st).2)
                = Some (with_lastMessageAt (clock st) cl)
             /\ emitted (sendToClient cid ty data st).2
                = (emitted st ++ [message_sent cid ty])%list)
       /\ ((sendToClient cid ty data st).1 = false ->
           sockets (sendToClient cid ty data st).2 = sockets st
           /\ clients (sendToClient cid ty data st).2 = clients st
           /\ emitted (sendToClient cid ty data st).2
              = if raisesOnSend st data cid
                then (emitted st ++ [message_error cid ty])%list
                else emitted st)
       /\ (raisesOnSend st data cid = true -> (sendToClient cid ty data st).1 = false)
       /\ (JsMap.get cid (clients st) = None -> (sendToClient cid ty data st).2 = st)).
  { intros (H1 & H2 & H3 & H4 & H5). conjuncts; assumption. }
  clear Hclosed. unfold sendToClient, raisesOnSend.
  destruct (JsMap.get cid (clients st)) as [cl|] eqn:Hg.
  2:{ cbn. conjuncts; try done. }
  destruct data as [text|]; cbn [JSON_stringify].
  2:{ cbn. conjuncts; try done. }
  destruct (is_open (readyState (sockets st (ws cl)))) eqn:Hopen.
  2:{ cbn. conjuncts; try done. }
  destruct (sendThrows (sockets st (ws cl))) eqn:Hthrows.
  { cbn. conjuncts; try done. }
  cbn [fst snd andb]. conjuncts; try done.
  intros _. exists cl, text. conjuncts; try done.
  - cbn. by rewrite Nat.eqb_refl.
  - intros r Hr. cbn. by destruct (Nat.eqb_spec r (ws cl)).
  - cbn. apply get_set_eq.
Qed.

Lemma sendToClient_fire_and_forget_witness :
  let st := (broadcast "b-1" "event" (Serializable "{}") (threeClients 10 3)).2 in
  let st' := (sendToClient "b" "ping" (Serializable "1") st).2 in
  inbox (sockets st' 1) = [frameAt "ping" "1" 1000]
  /\ getQueueSize st' = 1
  /\ (sendToClient "a" "ping" (Serializable "1") st).2 = st
  /\ emitted (sendToClient "a" "ping" Unserializable st).2
     = (emitted st ++ [message_error "a" "ping"])%list.
Proof.
  intros st st'.
  destruct (sendToClient_fire_and_forget st "b" "ping" (Serializable "1"))
    as (_ & Hq & Hok & _).
  destruct (Hok eq_refl) as (cl & text & [= <-] & [= <-] & Hin & _).
  destruct (sendToClient_fire_and_forget st "a" "ping" (Serializable "1"))
    as (_ & _ & _ & _ & _ & _ & Hclosed).
  destruct (Hclosed _ "1" eq_refl eq_refl) as [Hsilent Herror].
  conjuncts.
  - exact Hin.
  - unfold getQueueSize, st'. by rewrite Hq.
  - exact Hsilent.
  - exact Herror.
Defined.

(** *** Starting and stopping the delivery loop *)

(** Starting a loop that runs and stopping one that does not are no-ops:
    the state is left as it is, so a second start neither replaces the
    interval nor emits a second notification. Starting from stopped sets
    the interval and emits the started notification; stopping from
    running clears it and emits the stopped notification. The timer
    drives a sweep only while the loop runs. Neither operation touches
    the queue or the registry. *)
Theorem start_stop_idempotent :
  forall st ms ms',
    let started := startQueueProcessing ms st in
    let stopped := stopQueueProcessing st in
    startQueueProcessing ms' started = started
    /\ stopQueueProcessing stopped = stopped
    /\ queueProcessingInterval started <> None
    /\ queueProcessingInterval stopped = None
    /\ (queueProcessingInterval st = None ->
        queueProcessingInterval started = Some ms
        /\ emitted started = (emitted st ++ [queue_processing_started])%list
        /\ stopped = st
        /\ step stopped TimerFires = stopped
        /\ step started TimerFires = processQueue started)
    /\ (queueProcessingInterval st <> None ->
        started = st
        /\ emitted stopped = (emitted st ++ [queue_processing_stopped])%list)
    /\ messageQueue started = messageQueue st
    /\ messageQueue stopped = messageQueue st
    /\ clients started = clients st
    /\ clients stopped = clients st.
Proof.
  intros st ms ms'. cbn zeta. unfold startQueueProcessing, stopQueueProcessing, step.
  destruct (queueProcessingInterval st) as [i|] eqn:Hi; cbn; rewrite ?Hi;
    conjuncts; try done.
Qed.

Lemma start_stop_idempotent_witness :
  let st := constructor (exampleOptions 10 3) exampleSockets 1000 in
  let started := startQueueProcessing 100 st in
  queueProcessingInterval (startQueueProcessing 250 started) = Some 100%Z
  /\ emitted (stopQueueProcessing (startQueueProcessing 250 started))
     = [queue_processing_started; queue_processing_stopped].
Proof.
  intros st started.
  destruct (start_stop_idempotent st 100 250) as (Hsame & _ & _ & _ & Hfresh & _).
  destruct (Hfresh eq_refl) as (Hint & _).
  fold started in Hsame, Hint. rewrite Hsame. split; [exact Hint|reflexivity].
Defined.

(** *** A broadcast whose targets all accept *)

Lemma filter_all {A} (f : A -> bool) (l : list A) :
  (forall x, In x l -> f x = true) -> List.filter f l = l.
Proof.
  induction l as [|x l IH]; intros H; [done|]. cbn.
  rewrite (H x) by (by left). f_equal. apply IH. intros y Hy. apply H. by right.
Qed.

(** When the queue holds one broadcast and every target is deliverable,
    one sweep delivers it exactly once: each socket receives one frame
    per target registered on it (so one frame, for a socket of a single
    target), the broadcast leaves the queue, and the last notification is
    the completion with a sent count equal to the number of targets. *)
Theorem delivered_once_when_all_accept :
  forall st bid b,
    messageQueue st = [(bid, b)] ->
    (forall c, In c (targetsOf b) -> deliverable st (qb_data b) c = true) ->
    let st' := processQueue st in
    messageQueue st' = []
    /\ last (emitted st')
       = Some (broadcast_completed bid (qb_type b) (length (targetsOf b)))
    /\ (forall r,
          inbox (sockets st' r)
          = (inbox (sockets st r)
             ++ framesOf (qb_type b) (qb_data b) (clock st)
                  (length (targetsOn st b r)))%list).
Proof.
  intros st bid b Hq Hall. cbn zeta.
  destruct (processQueue_single st bid b Hq) as (_ & Hmq & Hin & _ & He).
  cbn zeta in Hmq, Hin, He.
  assert (failedCountOf st b = 0) as Hf.
  { unfold failedCountOf. rewrite filter_none; [done|].
    intros c Hc. by rewrite (Hall c Hc). }
  assert (sentCountOf st b = length (targetsOf b)) as Hs.
  { unfold sentCountOf. by rewrite filter_all. }
  assert (outcome st b = Completed (length (targetsOf b))) as Ho.
  { unfold outcome. by rewrite Hf, Hs. }
  rewrite Ho in Hmq, He. conjuncts.
  - exact Hmq.
  - by apply He.
  - intros r. rewrite Hin. do 3 f_equal. unfold targetsOn. fold (targetsOf b).
    apply filter_ext_in. intros c Hc. unfold deliversTo. by rewrite (Hall c Hc).
Qed.

Lemma delivered_once_when_all_accept_witness :
  let st0 := run [RegisterClient "b" 1 None; RegisterClient "c" 2 None]
               (constructor (exampleOptions 10 3) exampleSockets 1000) in
  let st := (broadcast "b-1" "event" (Serializable "{}") st0).2 in
  messageQueue (processQueue st) = []
  /\ inbox (sockets (processQueue st) 1) = [frameAt "event" "{}" 1000]
  /\ inbox (sockets (processQueue st) 5) = [].
Proof.
  intros st0 st.
  assert (forall c, In c ["b"; "c"] ->
                    deliverable st (Serializable "{}") c = true) as Hall.
  { intros c [<-|[<-|[]]]; reflexivity. }
  destruct (delivered_once_when_all_accept st "b-1"
              (newBroadcast "b-1" "event" (Serializable "{}") ["b"; "c"] st0)
              eq_refl Hall) as (Hq & _ & Hin).
  conjuncts; [exact Hq|exact (Hin 1)|exact (Hin 5)].
Defined.

(** *** Shutdown and the sockets *)

Lemma closeClients_sockets code reason l : forall st r,
  let st' := fold_left (closeClient code reason) l st in
  inbox (sockets st' r) = inbox (sockets st r)
  /\ (is_open (readyState (sockets st r)) = false -> sockets st' r = sockets st r)
  /\ ((forall cid cl, In (cid, cl) l -> ws cl <> r) -> sockets st' r = sockets st r)
  /\ ((exists cid cl, In (cid, cl) l /\ ws cl = r) ->
      is_open (readyState (sockets st r)) = true ->
      closeThrows (sockets st r) = false ->
      readyState (sockets st' r) = CLOSING
      /\ closeCalls (sockets st' r)
         = (closeCalls (sockets st r) ++ [(code, reason)])%list).
Proof.
  induction l as [|[cid cl] l IH]; intros st r.
  - cbn. conjuncts; try done. by intros (? & ? & [] & _).
  - cbn [fold_left]. remember (closeClient code reason st (cid, cl)) as s1 eqn:Es1.
    destruct (IH s1 r) as (I1 & I2 & I3 & I4). cbn zeta in I1, I2, I3, I4.
    (* what the visit of this entry does to socket [r] *)
    assert (sockets s1 r
            = if Nat.eqb (ws cl) r
                 && is_open (readyState (sockets st r))
                 && negb (closeThrows (sockets st r))
              then ws_close code reason (sockets st r)
              else sockets st r) as Hs1.
    { rewrite Es1. unfold closeClient.
      destruct (Nat.eqb_spec (ws cl) r) as [->|Hne]; cbn [andb].
      - destruct (is_open (readyState (sockets st r))); [|done].
        destruct (closeThrows (sockets st r)); [done|].
        cbn. by rewrite Nat.eqb_refl.
      - destruct (is_open (readyState (sockets st (ws cl)))); [|done].
        destruct (closeThrows (sockets st (ws cl))); [done|].
        cbn. by destruct (Nat.eqb_spec r (ws cl)); [congruence|]. }
    clear Es1. conjuncts.
    + rewrite I1, Hs1. by destruct (_ && _ && _).
    + intros Hclosed. rewrite I2; rewrite Hs1, Hclosed, andb_false_r; done.
    + intros Hnone. rewrite I3 by (intros c' cl' H; apply (Hnone c' cl'); by right).
      rewrite Hs1. destruct (Nat.eqb_spec (ws cl) r) as [Heq|_]; [|done].
      destruct (Hnone cid cl (or_introl eq_refl) Heq).
    + intros (c' & cl' & Hin & Hws) Hopen Hok.
      destruct (Nat.eqb_spec (ws cl) r) as [Heq|Hne].
      * rewrite Hopen, Hok in Hs1. cbn in Hs1.
        rewrite I2 by (by rewrite Hs1). by rewrite Hs1.
      * cbn in Hs1. rewrite Hs1 in I4.
        destruct Hin as [[= -> ->]|Hin]; [done|].
        apply I4; [by exists c', cl'|done|done].
Qed.

(** [closeAll] closes every registered socket that is open, once: a
    socket whose [close] does not raise gets exactly one close call with
    the given code and reason, even when several ids share it, and is not
    open afterwards; a raising [close] is absorbed. Sockets that are not
    open or not registered are left as they are, and no socket is sent
    anything. Afterwards nobody is registered, so every direct send
    answers false and does nothing. *)
Theorem closeAll_closes_each_open_socket_once :
  forall st code reason,
    let st' := closeAll code reason st in
    (forall cid cl,
        In (cid, cl) (clients st) ->
        is_open (readyState (sockets st (ws cl))) = true ->
        closeThrows (sockets st (ws cl)) = false ->
        readyState (sockets st' (ws cl)) = CLOSING
        /\ closeCalls (sockets st' (ws cl))
           = (closeCalls (sockets st (ws cl)) ++ [(code, reason)])%list)
    /\ (forall r, is_open (readyState (sockets st r)) = false ->
                  sockets st' r = sockets st r)
    /\ (forall r, (forall cid cl, In (cid, cl) (clients st) -> ws cl <> r) ->
                  sockets st' r = sockets st r)
    /\ (forall r, inbox (sockets st' r) = inbox (sockets st r))
    /\ getClientCount st' = 0
    /\ (forall cid ty data, sendToClient cid ty data st' = (false, st')).
Proof.
  intros st code reason st'.
  assert (sockets st' = sockets (fold_left (closeClient code reason) (clients st) st))
    as Hsk.
  { unfold st', closeAll, stopQueueProcessing. cbn.
    by destruct (queueProcessingInterval _). }
  assert (clients st' = []) as Hcl by reflexivity.
  rewrite Hsk. conjuncts.
  - intros cid cl Hin Hopen Hok.
    apply (closeClients_sockets code reason (clients st) st (ws cl));
      [by exists cid, cl|done|done].
  - intros r. apply (closeClients_sockets code reason (clients st) st r).
  - intros r. apply (closeClients_sockets code reason (clients st) st r).
  - intros r. apply (closeClients_sockets code reason (clients st) st r).
  - unfold getClientCount. by rewrite Hcl.
  - intros cid ty data. unfold sendToClient. by rewrite Hcl.
Qed.

Lemma closeAll_closes_each_open_socket_once_witness :
  let st := run [RegisterClient "b" 1 None; RegisterClient "alias" 1 None;
                 RegisterClient "x" 3 None]
              (constructor (exampleOptions 10 3) exampleSockets 1000) in
  let st' := closeAll 1000 "Server shutdown" st in
  closeCalls (sockets st' 1) = [(1000%Z, "Server shutdown")]
  /\ readyState (sockets st' 1) = CLOSING
  /\ sockets st' 0 = sockets st 0.
Proof.
  intros st st'.
  destruct (closeAll_closes_each_open_socket_once st 1000 "Server shutdown")
    as (Hclose & Hclosed & _).
  destruct (Hclose "b" (exampleClient "b" 1 []) (or_introl eq_refl) eq_refl eq_refl)
    as [Hstate Hcalls].
  conjuncts; [exact Hcalls|exact Hstate|exact (Hclosed 0 eq_refl)].
Defined.

(** *** Tags *)

Lemma JsSet_has_add x y s :
  JsSet.has y (JsSet.add x s) = String.eqb y x || JsSet.has y s.
Proof.
  unfold JsSet.add. destruct (JsSet.has x s) eqn:Hx.
  - destruct (String.eqb_spec y x) as [->|_]; [by rewrite Hx|done].
  - unfold JsSet.has in *. rewrite existsb_app. cbn.
    rewrite orb_false_r. apply orb_comm.
Qed.

Lemma JsSet_has_delete x y s :
  JsSet.has y (JsSet.delete x s) = negb (String.eqb y x) && JsSet.has y s.
Proof.
  unfold JsSet.has, JsSet.delete. induction s as [|z s IH]; cbn.
  - by rewrite andb_false_r.
  - destruct (String.eqb_spec x z) as [->|Hxz]; cbn.
    + rewrite IH. destruct (String.eqb_spec y z); cbn; [done|done].
    + rewrite IH. destruct (String.eqb_spec y z) as [->|Hyz]; cbn; [|done].
      destruct (String.eqb_spec z x); [congruence|done].
Qed.

(** The ids [getClientsByTag] returns are the registered ids whose entry
    carries the tag. *)
Lemma getClientsByTag_In st tag cid :
  wf (clients st) = true ->
  In cid (getClientsByTag tag st)
  <-> exists cl, JsMap.get cid (clients st) = Some cl /\ hasTag tag cl = true.
Proof.
  intros Hwf. unfold getClientsByTag, JsMap.keys. rewrite in_map_iff. split.
  - intros ([k cl] & <- & Hin). apply filter_In in Hin as [Hin Hf].
    exists cl. split; [by apply in_get|exact Hf].
  - intros (cl & Hg & Hf). exists (cid, cl). split; [done|].
    apply filter_In. split; [by apply get_in|exact Hf].
Qed.

Lemma keys_filter_NoDup {V} (f : string * V -> bool) (m : list (string * V)) :
  wf m = true -> NoDup (JsMap.keys (List.filter f m)).
Proof.
  induction m as [|[k v] m IH]; cbn; [intros _; apply NoDup_nil_2|].
  intros [Hfresh Hwf]%andb_true_iff. apply negb_true_iff in Hfresh.
  destruct (f (k, v)); [|by apply IH]. cbn. apply NoDup_cons. split; [|by apply IH].
  intros Hin. apply list_elem_of_In in Hin. unfold JsMap.keys in Hin.
  apply in_map_iff in Hin as ([k' v'] & Hk & Hin). cbn in Hk. subst k'.
  apply filter_In in Hin as [Hin _].
  assert (JsMap.has k m = true) as Hhas.
  { apply has_keys. unfold JsMap.keys. apply in_map_iff. by exists (k, v'). }
  congruence.
Qed.

(** Tagging a registered client makes [getClientsByTag] return it for
    that tag and changes no other answer of [getClientsByTag]; untagging
    it then answers true and takes it out again, and a second untagging
    answers false. Both operations answer false for an unknown id and
    leave the state as it is. The registered ids are not affected. *)
Theorem tags_add_remove :
  forall st cid tag cl,
    JsMap.wf (clients st) = true ->
    JsMap.get cid (clients st) = Some cl ->
    tags (metadata cl) <> None ->
    let st1 := (addClientTag cid tag st).2 in
    let st2 := (removeClientTag cid tag st1).2 in
    (addClientTag cid tag st).1 = true
    /\ In cid (getClientsByTag tag st1)
    /\ (forall other tag',
          other <> cid \/ tag' <> tag ->
          (In other (getClientsByTag tag' st1) <-> In other (getClientsByTag tag' st)))
    /\ (removeClientTag cid tag st1).1 = true
    /\ ~ In cid (getClientsByTag tag st2)
    /\ (removeClientTag cid tag st2).1 = false
    /\ getClientIds st2 = getClientIds st
    /\ (forall unknown,
          JsMap.get unknown (clients st) = None ->
          addClientTag unknown tag st = (false, st)
          /\ removeClientTag unknown tag st = (false, st)).
Proof.
  intros st cid tag cl Hwf Hg Htags.
  destruct (tags (metadata cl)) as [t|] eqn:Ht; [clear Htags|done].
  set (cl1 := with_tags (Some (JsSet.add tag t)) cl).
  set (cl2 := with_tags (Some (JsSet.delete tag (JsSet.add tag t))) cl1).
  assert (addClientTag cid tag st
          = (true, with_clients (JsMap.set cid cl1 (clients st)) st)) as Ha.
  { unfold addClientTag. rewrite Hg. unfold cl1. by rewrite Ht. }
  cbn zeta. rewrite Ha. cbn [fst snd].
  set (st1 := with_clients (JsMap.set cid cl1 (clients st)) st).
  assert (JsMap.get cid (clients st1) = Some cl1) as Hg1 by apply get_set_eq.
  assert (wf (clients st1) = true) as Hwf1 by (by apply wf_set).
  assert (removeClientTag cid tag st1
          = (true, with_clients (JsMap.set cid cl2 (clients st1)) st1)) as Hr.
  { unfold removeClientTag. rewrite Hg1. cbn [cl1 with_tags tags metadata].
    rewrite JsSet_has_add, String.eqb_refl. reflexivity. }
  rewrite Hr. cbn [fst snd].
  set (st2 := with_clients (JsMap.set cid cl2 (clients st1)) st1).
  assert (JsMap.get cid (clients st2) = Some cl2) as Hg2 by apply get_set_eq.
  assert (wf (clients st2) = true) as Hwf2 by (by apply wf_set).
  assert (JsMap.has cid (clients st) = true) as Hhas by (unfold JsMap.has; by rewrite Hg).
  assert (JsMap.has cid (clients st1) = true) as Hhas1 by (unfold JsMap.has; by rewrite Hg1).
  conjuncts.
  - done.
  - apply getClientsByTag_In; [done|]. exists cl1. split; [done|].
    unfold hasTag. cbn. by rewrite JsSet_has_add, String.eqb_refl.
  - intros other tag' Hdiff. rewrite !getClientsByTag_In by done.
    destruct (decide (other = cid)) as [->|Hne].
    + rewrite Hg1, Hg. destruct Hdiff as [?|Hdiff]; [done|].
      assert (hasTag tag' cl1 = hasTag tag' cl) as Heq.
      { unfold hasTag. cbn. rewrite Ht, JsSet_has_add.
        by destruct (String.eqb_spec tag' tag). }
      split; intros (c & [= <-] & Hc); eexists; (split; [done|]); congruence.
    + cbn. by rewrite get_set_ne.
  - done.
  - rewrite getClientsByTag_In by done. rewrite Hg2. intros (c & [= <-] & Hc).
    unfold hasTag in Hc. cbn in Hc.
    rewrite JsSet_has_delete, String.eqb_refl in Hc. discriminate.
  - unfold removeClientTag. rewrite Hg2. cbn [cl2 with_tags tags metadata].
    by rewrite JsSet_has_delete, String.eqb_refl.
  - unfold getClientIds.
    change (clients st2) with (JsMap.set cid cl2 (clients st1)).
    rewrite keys_set_present by exact Hhas1.
    change (clients st1) with (JsMap.set cid cl1 (clients st)).
    by rewrite keys_set_present.
  - intros unknown Hu. unfold addClientTag, removeClientTag. by rewrite Hu.
Qed.

Lemma tags_add_remove_witness :
  let st := threeClients 10 3 in
  let st1 := (addClientTag "a" "vip" st).2 in
  getClientsByTag "vip" st = ["b"]
  /\ In "a" (getClientsByTag "vip" st1)
  /\ ~ In "a" (getClientsByTag "vip" (removeClientTag "a" "vip" st1).2).
Proof.
  intros st st1. split; [reflexivity|].
  assert (tags (metadata (exampleClient "a" 0 [])) <> None) as Ht by discriminate.
  destruct (tags_add_remove st "a" "vip" (exampleClient "a" 0 []) eq_refl eq_refl Ht)
    as (_ & Hin & _ & _ & Hout & _).
  split; [exact Hin|exact Hout].
Defined.

(** [broadcastToTag] targets the clients that carry the tag when it is
    called, in registry order: with room in the queue and at least one
    such client the broadcast is queued for exactly [getClientsByTag];
    with none, nothing is queued and the no-targets notification is
    emitted. *)
Theorem broadcastToTag_targets_tagged_clients :
  forall st bid tag ty data,
    JsMap.wf (clients st) = true ->
    (Z.of_nat (getQueueSize st) < maxQueueSize st)%Z ->
    let st' := (broadcastToTag bid tag ty data st).2 in
    (broadcastToTag bid tag ty data st).1 = bid
    /\ (getClientsByTag tag st <> [] ->
        JsMap.get bid (messageQueue st')
        = Some (newBroadcast bid ty data (getClientsByTag tag st) st)
        /\ emitted st'
           = (emitted st
              ++ [broadcast_queued bid ty (length (getClientsByTag tag st))])%list)
    /\ (getClientsByTag tag st = [] ->
        st' = emit (broadcast_no_targets bid ty) st).
Proof.
  intros st bid tag ty data Hwf Hroom. cbn zeta.
  unfold broadcastToTag, broadcastToClients.
  assert (JsSet.of_list
            (List.filter (fun c => JsMap.has c (clients st)) (getClientsByTag tag st))
          = getClientsByTag tag st) as ->.
  { rewrite filter_all.
    - apply JsSetFacts.of_list_NoDup. unfold getClientsByTag. by apply keys_filter_NoDup.
    - intros c Hc. apply getClientsByTag_In in Hc as (cl & Hg & _); [|done].
      unfold JsMap.has. by rewrite Hg. }
  destruct (getClientsByTag tag st) as [|c0 t] eqn:Hids.
  - cbn. conjuncts; done.
  - cbn [length Nat.eqb]. rewrite addToQueue_room by done. cbn [fst snd negb].
    conjuncts; [done| |done].
    intros _. split; [cbn; apply get_set_eq|done].
Qed.

Lemma broadcastToTag_targets_tagged_clients_witness :
  let st := threeClients 10 3 in
  targetClients <$> JsMap.get "b-1"
    (messageQueue (broadcastToTag "b-1" "vip" "event" (Serializable "{}") st).2)
  = Some (Some ["b"])
  /\ messageQueue (broadcastToTag "b-2" "nobody" "event" (Serializable "{}") st).2 = [].
Proof.
  intros st.
  assert (Z.of_nat (getQueueSize st) < maxQueueSize st)%Z as Hroom by (vm_compute; reflexivity).
  destruct (broadcastToTag_targets_tagged_clients st "b-1" "vip" "event"
              (Serializable "{}") eq_refl Hroom) as (_ & Hsome & _).
  destruct (broadcastToTag_targets_tagged_clients st "b-2" "nobody" "event"
              (Serializable "{}") eq_refl Hroom) as (_ & _ & Hnone).
  split.
  - destruct Hsome as [Hq _]; [discriminate|]. by rewrite Hq.
  - by rewrite Hnone.
Defined.

End EventBroadcasterLaws.

(** ** Event normalizer: classification, enrichment, ordering *)

Module EventNormalizerLaws.
Import EventNormalizer EventNormalizerOps EventNormalizerSpec EventNormalizerVocabulary.
Import JsMapFacts JsMapKeys EventNormalizerProps.

Ltac conjuncts := repeat match goal with |- _ /\ _ => split end.

Lemma processInstruction_index i x : ie_index (processInstruction i x) = i.
Proof. by destruct x. Qed.

Lemma processInstruction_programId i x :
  ie_programId (processInstruction i x) = instructionProgramId x.
Proof. by destruct x. Qed.

(** [processInstructions] keeps the instructions of the transaction, one
    for one and in order: the i-th event has index i and the program id
    of the i-th instruction. The event that [normalizeTransaction]
    returns carries these instruction events, and its metadata counts
    them and the account keys. *)
Theorem instructions_keep_order_and_index :
  forall now tx sig,
    let instrs := instructions (message (transaction tx)) in
    let keys := accountKeys (message (transaction tx)) in
    let events := processInstructions instrs (pubkey <$> keys) in
    length events = length instrs
    /\ ie_index <$> events = seq 0 (length instrs)
    /\ ie_programId <$> events = instructionProgramId <$> instrs
    /\ (forall ev,
          normalizeTransaction now tx sig = Js.Returns ev ->
          ne_instructions ev = events
          /\ JsMap.get "instructionCount" (metadataOf ev)
             = Some (JNum (Z.of_nat (length instrs)))
          /\ JsMap.get "accountCount" (metadataOf ev)
             = Some (JNum (Z.of_nat (length keys)))).
Proof.
  intros now tx sig instrs keys events. subst events.
  unfold processInstructions. conjuncts.
  - apply length_imap.
  - apply list_eq. intros i. rewrite list_lookup_fmap, list_lookup_imap.
    destruct (instrs !! i) as [x|] eqn:Hx; cbn.
    + rewrite processInstruction_index. symmetry. apply lookup_seq_lt.
      by apply lookup_lt_Some in Hx.
    + symmetry. apply lookup_seq_ge. by apply lookup_ge_None in Hx.
  - apply list_eq. intros i. rewrite !list_lookup_fmap, list_lookup_imap.
    destruct (instrs !! i) as [x|]; cbn; [|done].
    by rewrite processInstruction_programId.
  - intros ev (c & _ & ->)%normalizeTransaction_inv.
    unfold metadataOf, eventOf, processInstructions.
    cbn [ne_instructions ne_metadata default]. fold instrs keys. conjuncts.
    + reflexivity.
    + cbn. by rewrite length_imap.
    + reflexivity.
Qed.

Lemma instructions_keep_order_and_index_witness :
  exists ev,
    normalizeTransaction 0 transferTx "sig" = Js.Returns ev
    /\ ie_index <$> ne_instructions ev = [0]
    /\ JsMap.get "instructionCount" (metadataOf ev) = Some (JNum 1).
Proof.
  destruct (instructions_keep_order_and_index 0 transferTx "sig")
    as (_ & Hidx & _ & Hev).
  eexists. split; [reflexivity|].
  destruct (Hev _ eq_refl) as (Hi & Hn & _).
  split; [|exact Hn]. rewrite Hi. exact Hidx.
Defined.

(** The classification of a system transfer with payload [parsed]. *)
Lemma determineEventType_system_transfer pid parsed rest keys keys' payer :
  truthy parsed = true ->
  prop_is parsed "type" "transfer" = true ->
  determineEventType
    (processInstructions (ParsedInstruction "system" pid parsed :: rest) keys)
    keys' payer
  = (source ← opt_toString (prop parsed "source");
     destination ← opt_toString (prop parsed "destination");
     lamports ← opt_toString (prop parsed "lamports");
     Js.Returns
       {| c_type := TRANSFER; c_subType := None;
          c_from := Js.or_string source payer; c_to := destination;
          c_amount := lamports; c_mint := None;
          c_programId := Js.or_string (Some pid) "unknown" |}).
Proof.
  intros Ht Hty. unfold determineEventType, processInstructions.
  cbn [imap processInstruction head fmap option_fmap option_map ie_parsed ie_type
       ie_programId].
  rewrite Ht.
  cbn [negb Js.or_string Js.truthy_string String.eqb Ascii.eqb Bool.eqb].
  rewrite Ht. cbn [negb]. by rewrite Hty.
Qed.

(** A system-program instruction whose payload has type "transfer":
    [normalizeTransaction] returns exactly when the source, the
    destination and the lamports of the payload render, and throws
    otherwise. The event it returns is a TRANSFER. The three members are
    read from the top level of the payload: a non-empty string source
    becomes [from], a string destination [to], and lamports given as a
    number become the [amount] as [Number::toString] writes it, which is
    the decimal numeral below [2 ^ 53]; where the payload has no such
    member (the provider nests them one level down), [from] falls back
    to the fee payer and [to] and [amount] are absent. *)
Theorem system_transfer_is_classified :
  forall now tx sig pid parsed rest,
    instructions (message (transaction tx))
    = ParsedInstruction "system" pid parsed :: rest ->
    prop parsed "type" = Some (JStr "transfer") ->
    ((exists ev, normalizeTransaction now tx sig = Js.Returns ev)
     <-> renders (prop parsed "source") && renders (prop parsed "destination")
         && renders (prop parsed "lamports") = true)
    /\ (forall ev,
          normalizeTransaction now tx sig = Js.Returns ev ->
          ne_type ev = TRANSFER
          /\ ne_mint ev = None
          /\ ne_subType ev = None
          /\ (forall s, prop parsed "source" = Some (JStr s) -> s <> "" ->
                ne_from ev = s)
          /\ (prop parsed "source" = None -> ne_from ev = feePayerOf tx)
          /\ (forall d, prop parsed "destination" = Some (JStr d) ->
                ne_to ev = Some d)
          /\ (prop parsed "destination" = None -> ne_to ev = None)
          /\ (forall n, prop parsed "lamports" = Some (JNum n) ->
                ne_amount ev = Some (Js.Number_toString n))
          /\ (forall n, prop parsed "lamports" = Some (JNum n) ->
                (Z.abs n < 2 ^ 53)%Z -> ne_amount ev = Some (pretty n))
          /\ (prop parsed "lamports" = None -> ne_amount ev = None)).
Proof.
  intros now tx sig pid parsed rest Hi Hty.
  assert (truthy parsed = true) as Htruthy
    by (by destruct parsed as [| | | | |members]).
  assert (prop_is parsed "type" "transfer" = true) as Hpi
    by (unfold prop_is; by rewrite Hty).
  unfold normalizeTransaction, feePayerOf. rewrite !renders_spec, Hi.
  rewrite (determineEventType_system_transfer _ _ _ _ _ _ Htruthy Hpi).
  split.
  - destruct (opt_toString (prop parsed "source")) as [source|];
      destruct (opt_toString (prop parsed "destination")) as [destination|];
      destruct (opt_toString (prop parsed "lamports")) as [lamports|];
      cbn [mbind Js.Completion_bind andb];
      (split; [intros [ev Hev]; done || discriminate Hev | intros Hr; done || by eexists]).
  - intros ev.
    destruct (opt_toString (prop parsed "source")) as [source|] eqn:Es; [|done].
    destruct (opt_toString (prop parsed "destination")) as [destination|] eqn:Ed;
      [|done].
    destruct (opt_toString (prop parsed "lamports")) as [lamports|] eqn:El; [|done].
    cbn [mbind Js.Completion_bind]. intros [= <-].
    cbn [eventOf ne_type ne_mint ne_subType ne_from ne_to ne_amount c_type c_mint
         c_subType c_from c_to c_amount].
    conjuncts; try done.
    + intros s Hs Hne. rewrite Hs in Es. injection Es as <-.
      cbn. by destruct s.
    + intros Hs. rewrite Hs in Es. by injection Es as <-.
    + intros d Hd. rewrite Hd in Ed. by injection Ed as <-.
    + intros Hd. rewrite Hd in Ed. by injection Ed as <-.
    + intros n Hn. rewrite Hn in El. by injection El as <-.
    + intros n Hn Hsafe. rewrite Hn in El. injection El as <-.
      unfold Js.Number_toString.
      by destruct (Z.ltb_spec (Z.abs n) (2 ^ 53)); [|lia].
    + intros Hn. rewrite Hn in El. by injection El as <-.
Qed.

Lemma system_transfer_is_classified_witness :
  (exists ev,
     normalizeTransaction 0 transferTx "sig" = Js.Returns ev
     /\ ne_type ev = TRANSFER /\ ne_from ev = "Alice" /\ ne_to ev = Some "Bob"
     /\ ne_amount ev = Some "5000000")
  /\ (exists ev,
        normalizeTransaction 0 largeTransferTx "sig" = Js.Returns ev
        /\ ne_amount ev = Some "18446744073709552000")
  /\ ~ (exists ev, normalizeTransaction 0 opaqueSourceTx "sig" = Js.Returns ev).
Proof.
  assert ("Alice" <> "") as Hne by discriminate.
  conjuncts.
  - destruct (system_transfer_is_classified 0 transferTx "sig"
                "11111111111111111111111111111111" _ [] eq_refl eq_refl)
      as [[_ Hret] Hev].
    destruct (Hret eq_refl) as [ev Hr]. exists ev.
    destruct (Hev ev Hr) as (Ht & _ & _ & Hs & _ & Hd & _ & _ & Hn & _).
    conjuncts; [exact Hr|exact Ht|exact (Hs "Alice" eq_refl Hne)
               |exact (Hd "Bob" eq_refl)|].
    apply (Hn 5000000%Z eq_refl). reflexivity.
  - destruct (system_transfer_is_classified 0 largeTransferTx "sig"
                "11111111111111111111111111111111" _ [] eq_refl eq_refl)
      as [[_ Hret] Hev].
    destruct (Hret eq_refl) as [ev Hr]. exists ev.
    destruct (Hev ev Hr) as (_ & _ & _ & _ & _ & _ & _ & Hn & _).
    split; [exact Hr|]. exact (eq_trans (Hn _ eq_refl) eq_refl).
  - destruct (system_transfer_is_classified 0 opaqueSourceTx "sig"
                "11111111111111111111111111111111" _ [] eq_refl eq_refl)
      as [[Hret _] _].
    intros Hex. apply Hret in Hex. discriminate Hex.
Defined.

Lemma head_imap {A B} (f : nat -> A -> B) (l : list A) :
  head (imap f l) = f 0 <$> head l.
Proof. by destruct l. Qed.

(** Only the first instruction and the fee payer decide the
    classification: of two transactions that agree on them either both
    make [normalizeTransaction] throw, or both events have the same
    type, sub-type, from, to, amount, mint and program id, whatever
    their other instructions, accounts, metadata, signature and time. *)
Theorem classification_reads_first_instruction_only :
  forall now now' tx tx' sig sig',
    head (instructions (message (transaction tx)))
    = head (instructions (message (transaction tx'))) ->
    feePayerOf tx = feePayerOf tx' ->
    classificationOf <$> normalizeTransaction now tx sig
    = classificationOf <$> normalizeTransaction now' tx' sig'.
Proof.
  intros now now' tx tx' sig sig' Hh Hf.
  unfold normalizeTransaction, feePayerOf in *.
  unfold determineEventType, processInstructions.
  rewrite !head_imap, Hh, Hf.
  match goal with
  | |- _ <$> (?m ≫= _) = _ => destruct m as [c|]; reflexivity
  end.
Qed.

Lemma classification_reads_first_instruction_only_witness :
  let tx := undecodedTx (Some 5%Z) in
  let tx' :=
    {| slot := 99; blockTime := None; meta := None;
       transaction :=
         {| signatures := [];
            message :=
              {| recentBlockhash := "other";
                 accountKeys := [{| pubkey := "Payer"; signer := false; writable := false |};
                                 {| pubkey := "Third"; signer := false; writable := true |}];
                 instructions :=
                   [PartiallyDecodedInstruction "Prog1111" ["Payer"] "3Bxs4h24hBtQy9rw";
                    ParsedInstruction "system" "1111"
                      (JObj [("type", JStr "transfer")])] |} |} |} in
  classificationOf <$> normalizeTransaction 1 tx "a"
  = classificationOf <$> normalizeTransaction 2 tx' "b".
Proof.
  intros tx tx'.
  apply (classification_reads_first_instruction_only 1 2 tx tx' "a" "b"); reflexivity.
Defined.

Lemma determineEventType_fields instrs keys payer c :
  determineEventType instrs keys payer = Js.Returns c ->
  c_type c <> TOKEN_SWAP /\ c_type c <> NFT_TRANSFER
  /\ (c_from c <> payer -> c_type c = TRANSFER \/ c_type c = TOKEN_TRANSFER)
  /\ (c_to c <> None -> c_type c = TRANSFER \/ c_type c = TOKEN_TRANSFER)
  /\ (c_amount c <> None ->
      c_type c = TRANSFER \/ c_type c = TOKEN_TRANSFER
      \/ c_type c = TOKEN_MINT \/ c_type c = TOKEN_BURN)
  /\ (c_mint c <> None ->
      c_type c = TOKEN_TRANSFER \/ c_type c = TOKEN_MINT \/ c_type c = TOKEN_BURN)
  /\ (c_subType c <> None <-> c_type c = PROGRAM_INTERACTION).
Proof.
  unfold determineEventType.
  destruct (head instrs) as [p|];
    [|intros [= <-]; cbn; conjuncts; try done; split; done].
  destruct (ie_parsed p) as [parsed|];
    [|intros [= <-]; cbn; conjuncts; try done; split; done].
  branches; cbn [mbind Js.Completion_bind]; intros [= <-];
    cbn [c_type c_from c_to c_amount c_mint c_subType];
    conjuncts; try done; try (intros _; tauto); split; done.
Qed.

(** What the type of a returned event allows of its other fields. The
    normalizer never classifies an event as a token swap or an NFT
    transfer and never reports the status pending or a block height.
    [from] differs from the fee payer, and [to] is present, only for the
    two transfer types; [amount] only for transfers, mints and burns;
    [mint] only for the token types; and [subType] is present exactly
    for a program interaction. *)
Theorem fields_follow_the_type :
  forall now tx sig ev,
    normalizeTransaction now tx sig = Js.Returns ev ->
    ne_type ev <> TOKEN_SWAP /\ ne_type ev <> NFT_TRANSFER
    /\ ne_status ev <> pending
    /\ ne_blockHeight ev = None
    /\ (ne_from ev <> ne_feePayerAddress ev ->
        ne_type ev = TRANSFER \/ ne_type ev = TOKEN_TRANSFER)
    /\ (ne_to ev <> None -> ne_type ev = TRANSFER \/ ne_type ev = TOKEN_TRANSFER)
    /\ (ne_amount ev <> None ->
        ne_type ev = TRANSFER \/ ne_type ev = TOKEN_TRANSFER
        \/ ne_type ev = TOKEN_MINT \/ ne_type ev = TOKEN_BURN)
    /\ (ne_mint ev <> None ->
        ne_type ev = TOKEN_TRANSFER \/ ne_type ev = TOKEN_MINT
        \/ ne_type ev = TOKEN_BURN)
    /\ (ne_subType ev <> None <-> ne_type ev = PROGRAM_INTERACTION).
Proof.
  intros now tx sig ev (c & Hc & ->)%normalizeTransaction_inv.
  destruct (determineEventType_fields _ _ _ _ Hc) as (H1 & H2 & H3 & H4 & H5 & H6 & H7).
  unfold eventOf.
  cbn [ne_type ne_status ne_blockHeight ne_from ne_feePayerAddress ne_to ne_amount
       ne_mint ne_subType].
  conjuncts; try done.
  destruct (meta tx) as [m|]; [|done]. by destruct (truthy (err m)).
Qed.

Lemma fields_follow_the_type_witness :
  exists ev,
    normalizeTransaction 0 transferTx "sig" = Js.Returns ev
    /\ ne_to ev = Some "Bob"
    /\ (ne_type ev = TRANSFER \/ ne_type ev = TOKEN_TRANSFER)
    /\ ne_type ev <> TOKEN_SWAP.
Proof.
  eexists. split; [reflexivity|].
  destruct (fields_follow_the_type 0 transferTx "sig" _ eq_refl)
    as (Hswap & _ & _ & _ & _ & Hto & _).
  conjuncts; [reflexivity| |exact Hswap].
  apply Hto. discriminate.
Defined.

(** A transaction with nothing in it still normalizes. Without
    instructions [normalizeTransaction] returns, the type is unknown,
    the program id is "unknown" and [from] is the fee payer; in any
    event it returns, the fee payer is "unknown" when there are no
    account keys or the first key is empty, and without meta the fee is
    0 and the status is success. *)
Theorem empty_transaction_degrades :
  forall now tx sig,
    (instructions (message (transaction tx)) = [] ->
     exists ev,
       normalizeTransaction now tx sig = Js.Returns ev
       /\ ne_type ev = UNKNOWN /\ ne_programId ev = "unknown"
       /\ ne_from ev = ne_feePayerAddress ev /\ ne_instructions ev = []
       /\ ne_to ev = None /\ ne_amount ev = None /\ ne_mint ev = None)
    /\ (forall ev,
          normalizeTransaction now tx sig = Js.Returns ev ->
          (pubkey <$> head (accountKeys (message (transaction tx))) = None
           \/ pubkey <$> head (accountKeys (message (transaction tx))) = Some "" ->
           ne_feePayerAddress ev = "unknown")
          /\ (meta tx = None -> ne_fee ev = 0%Z /\ ne_status ev = success)).
Proof.
  intros now tx sig. split.
  - intros Hi. unfold normalizeTransaction. rewrite Hi. cbn.
    eexists. split; [reflexivity|]. cbn. conjuncts; done.
  - intros ev (c & _ & ->)%normalizeTransaction_inv. unfold eventOf. split.
    + cbn [ne_feePayerAddress]. intros [->| ->]; reflexivity.
    + intros ->. cbn. done.
Qed.

Lemma empty_transaction_degrades_witness :
  let tx :=
    {| slot := 0; blockTime := None; meta := None;
       transaction := {| signatures := [];
                         message := {| recentBlockhash := ""; accountKeys := [];
                                       instructions := [] |} |} |} in
  exists ev,
    normalizeTransaction 1700000000000 tx "sig" = Js.Returns ev
    /\ ne_type ev = UNKNOWN /\ ne_from ev = "unknown" /\ ne_fee ev = 0%Z
    /\ ne_id ev = "sig-0".
Proof.
  intros tx.
  destruct (empty_transaction_degrades 1700000000000 tx "sig") as (Hi & Hk).
  destruct (Hi eq_refl) as (ev & Hev & Ht & _ & Hf & _).
  destruct (Hk ev Hev) as (Hp & Hm).
  destruct (Hm eq_refl) as [Hfee _].
  exists ev. conjuncts; [exact Hev|exact Ht| |exact Hfee|].
  - exact (eq_trans Hf (Hp (or_introl eq_refl))).
  - revert Hev. vm_compute. by intros [= <-].
Defined.

(** *** Enrichment *)

Lemma spread_get (b : list (string * json)) : forall a k,
  wf b = true ->
  JsMap.get k (spread a b)
  = match JsMap.get k b with
    | Some v => Some v
    | None => JsMap.get k a
    end.
Proof.
  unfold spread. induction b as [|[k0 v0] b IH]; intros a k Hwf; [done|].
  cbn in Hwf. apply andb_true_iff in Hwf as [Hfresh Hwf].
  apply negb_true_iff in Hfresh. unfold JsMap.has in Hfresh.
  cbn [fold_left fst snd JsMap.get]. rewrite IH by done.
  destruct (String.eqb_spec k k0) as [->|Hne].
  - destruct (JsMap.get k0 b); [discriminate|]. apply get_set_eq.
  - destruct (JsMap.get k b); [done|]. by apply get_set_ne.
Qed.

Lemma spread_wf (b : list (string * json)) : forall a,
  wf a = true -> wf (spread a b) = true.
Proof.
  unfold spread. induction b as [|[k0 v0] b IH]; intros a Hwf; [done|].
  cbn. by apply IH, wf_set.
Qed.

Lemma set_same {V} k (v : V) m : JsMap.get k m = Some v -> JsMap.set k v m = m.
Proof.
  induction m as [|[k' v'] m IH]; cbn; [done|].
  destruct (String.eqb_spec k k') as [->|Hne].
  - by intros [= ->].
  - intros H. by rewrite IH.
Qed.

Lemma spread_same (b : list (string * json)) : forall a,
  (forall k v, In (k, v) b -> JsMap.get k a = Some v) -> spread a b = a.
Proof.
  unfold spread. induction b as [|[k0 v0] b IH]; intros a H; [done|].
  cbn. rewrite set_same by (apply H; by left). apply IH.
  intros k v Hin. apply H. by right.
Qed.

Lemma get_app_mid {V} k (v : V) a m : JsMap.get k (a ++ (k, v) :: m)%list <> None.
Proof.
  induction a as [|[k' v'] a IH]; cbn.
  - by rewrite String.eqb_refl.
  - by destruct (String.eqb k k').
Qed.

Lemma wf_app_head {V} k (v : V) a m :
  wf (a ++ (k, v) :: m)%list = true -> JsMap.get k a = None.
Proof.
  induction a as [|[k' v'] a IH]; cbn; [done|].
  intros [Hfresh Hwf]%andb_true_iff.
  destruct (String.eqb_spec k k') as [->|Hne]; [|by apply IH].
  apply negb_true_iff in Hfresh. unfold JsMap.has in Hfresh.
  pose proof (get_app_mid k' v a m) as Hmid.
  by destruct (JsMap.get k' (a ++ (k', v) :: m)%list).
Qed.

Lemma set_fresh_app {V} k (v : V) a :
  JsMap.get k a = None -> JsMap.set k v a = (a ++ [(k, v)])%list.
Proof.
  induction a as [|[k' v'] a IH]; cbn; [done|].
  destruct (String.eqb k k'); [done|]. intros H. by rewrite IH.
Qed.

Lemma spread_app (m : list (string * json)) : forall a,
  wf (a ++ m)%list = true -> spread a m = (a ++ m)%list.
Proof.
  unfold spread. induction m as [|[k v] m IH]; intros a Hwf; cbn.
  - by rewrite app_nil_r.
  - rewrite (set_fresh_app k v a) by exact (wf_app_head k v a m Hwf).
    rewrite IH; rewrite <- app_assoc; done.
Qed.

Lemma spread_nil_wf (m : list (string * json)) : wf m = true -> spread [] m = m.
Proof. intros Hwf. by rewrite spread_app. Qed.

(** [enrichEvent] merges the enrichment into the metadata by key: the
    result always has a metadata object, in which a key of the
    enrichment reads as the enrichment has it and every other key as the
    event had it (an event without metadata having none); nothing but
    the metadata changes and the keys stay distinct. A call without
    enrichment returns the event with its own members as metadata: an
    equal event exactly when the event had a metadata object, an event
    with an empty metadata object when it had none. Enriching twice with
    the same data changes nothing more. *)
Theorem enrichEvent_merges_by_key :
  forall (event : NormalizedEvent) (enrichmentData : list (string * json)),
    wf (metadataOf event) = true ->
    wf enrichmentData = true ->
    let enriched := enrichEvent event (Some enrichmentData) in
    ne_metadata enriched <> None
    /\ (forall k v, JsMap.get k enrichmentData = Some v ->
          JsMap.get k (metadataOf enriched) = Some v)
    /\ (forall k, JsMap.get k enrichmentData = None ->
          JsMap.get k (metadataOf enriched) = JsMap.get k (metadataOf event))
    /\ enriched = with_metadata (ne_metadata enriched) event
    /\ wf (metadataOf enriched) = true
    /\ enrichEvent event None = with_metadata (Some (metadataOf event)) event
    /\ (enrichEvent event None = event <-> ne_metadata event <> None)
    /\ enrichEvent enriched (Some enrichmentData) = enriched.
Proof.
  intros event d Hm Hd enriched.
  assert (metadataOf enriched = spread (metadataOf event) d) as Hmeta.
  { subst enriched. unfold metadataOf at 1, enrichEvent.
    cbn [ne_metadata default]. fold (metadataOf event).
    by rewrite spread_nil_wf. }
  assert (wf (metadataOf enriched) = true) as Hwf.
  { rewrite Hmeta. by apply spread_wf. }
  assert (enrichEvent event None = with_metadata (Some (metadataOf event)) event)
    as Hnone.
  { unfold enrichEvent, with_metadata. fold (metadataOf event).
    cbn [default]. rewrite spread_nil_wf by done. reflexivity. }
  conjuncts.
  - done.
  - intros k v Hk. rewrite Hmeta, spread_get, Hk; done.
  - intros k Hk. rewrite Hmeta, spread_get, Hk; done.
  - done.
  - exact Hwf.
  - exact Hnone.
  - rewrite Hnone. unfold metadataOf. split.
    + intros Heq Hn. apply (f_equal ne_metadata) in Heq. cbn in Heq.
      rewrite Hn in Heq. discriminate Heq.
    + intros Hn. destruct event as [? ? ? ? ? ? ? ? ? ? ? ? ? ? ? ? ? ? [m|]];
        [reflexivity|done].
  - unfold enrichEvent at 1. fold (metadataOf enriched).
    rewrite (spread_nil_wf _ Hwf).
    rewrite spread_same.
    + subst enriched. unfold metadataOf, enrichEvent. reflexivity.
    + intros k v Hin. rewrite Hmeta, spread_get by done.
      by rewrite (in_get _ _ _ Hd Hin).
Qed.

Lemma enrichEvent_merges_by_key_witness :
  let event :=
    transferEvent (Some [("accountCount", JNum 1); ("instructionCount", JNum 1)]) in
  let enrichmentData := [("instructionCount", JNum 9); ("label", JStr "dex")] in
  let enriched := enrichEvent event (Some enrichmentData) in
  JsMap.get "instructionCount" (metadataOf enriched) = Some (JNum 9)
  /\ JsMap.get "label" (metadataOf enriched) = Some (JStr "dex")
  /\ JsMap.get "accountCount" (metadataOf enriched) = Some (JNum 1)
  /\ enrichEvent event None = event
  /\ enrichEvent (transferEvent None) None <> transferEvent None.
Proof.
  intros event enrichmentData enriched.
  destruct (enrichEvent_merges_by_key event enrichmentData eq_refl eq_refl)
    as (_ & Hnew & Hold & _ & _ & _ & Hsame & _).
  destruct (enrichEvent_merges_by_key (transferEvent None) [] eq_refl eq_refl)
    as (_ & _ & _ & _ & _ & _ & Habsent & _).
  conjuncts.
  - apply Hnew. reflexivity.
  - apply Hnew. reflexivity.
  - exact (eq_trans (Hold "accountCount" eq_refl) eq_refl).
  - apply Hsame. discriminate.
  - intros Heq. by apply Habsent in Heq.
Defined.

(** *** Sorting *)

Lemma insertSorted_perm ascending x l :
  insertSorted ascending x l ≡ₚ x :: l.
Proof.
  induction l as [|y l IH]; cbn; [done|].
  destruct (before ascending y x); [|done].
  rewrite IH. apply Permutation_swap.
Qed.

Lemma inOrder_trans ascending a b c :
  inOrder ascending a b -> inOrder ascending b c -> inOrder ascending a c.
Proof. unfold inOrder. destruct ascending; lia. Qed.

Lemma before_inOrder ascending a b :
  before ascending a b = true -> inOrder ascending a b.
Proof. unfold before, inOrder. destruct ascending; lia. Qed.

Lemma not_before_inOrder ascending a b :
  before ascending a b = false -> inOrder ascending b a.
Proof. unfold before, inOrder. destruct ascending; lia. Qed.

Lemma before_stamps ascending a b :
  before ascending a b = true -> ne_timestamp a <> ne_timestamp b.
Proof. unfold before. destruct ascending; lia. Qed.

Lemma insertSorted_sorted ascending x l :
  StronglySorted (inOrder ascending) l ->
  StronglySorted (inOrder ascending) (insertSorted ascending x l).
Proof.
  induction 1 as [|y l Hl IH Hy]; cbn.
  - by repeat constructor.
  - destruct (before ascending y x) eqn:E.
    + constructor; [exact IH|].
      rewrite insertSorted_perm. constructor; [by apply before_inOrder|exact Hy].
    + apply not_before_inOrder in E.
      constructor; [by constructor|]. constructor; [exact E|].
      eapply Forall_impl; [exact Hy|]. intros z Hz. cbn.
      by eapply inOrder_trans.
Qed.

Lemma insertSorted_stampedAt ascending t x l :
  stampedAt t (insertSorted ascending x l) = stampedAt t (x :: l).
Proof.
  unfold stampedAt. induction l as [|y l IH]; [done|].
  cbn [insertSorted]. destruct (before ascending y x) eqn:E; [|done].
  apply before_stamps in E. cbn [List.filter] in IH |- *. rewrite IH.
  destruct (Z.eqb_spec (ne_timestamp y) t), (Z.eqb_spec (ne_timestamp x) t);
    congruence.
Qed.

(** [sortByTimestamp] returns the same events (each as often as it was
    given), ordered by timestamp in the direction asked for, and the
    events of one timestamp keep the order they had in the input; sorting
    a sorted list changes nothing. *)
Theorem sortByTimestamp_stable_sort :
  forall (events : list NormalizedEvent) (ascending : bool),
    let sorted := sortByTimestamp events ascending in
    sorted ≡ₚ events
    /\ StronglySorted (inOrder ascending) sorted
    /\ (forall t, stampedAt t sorted = stampedAt t events)
    /\ sortByTimestamp sorted ascending = sorted.
Proof.
  intros events ascending sorted.
  assert (StronglySorted (inOrder ascending) sorted) as Hsorted.
  { subst sorted. induction events as [|x l IH]; cbn; [constructor|].
    by apply insertSorted_sorted. }
  conjuncts.
  - clear Hsorted. subst sorted. induction events as [|x l IH]; cbn; [done|].
    by rewrite insertSorted_perm, IH.
  - exact Hsorted.
  - intros t. clear Hsorted. subst sorted.
    induction events as [|x l IH]; [done|].
    cbn [sortByTimestamp]. rewrite insertSorted_stampedAt.
    unfold stampedAt in *. cbn. by rewrite IH.
  - clear -Hsorted. induction Hsorted as [|y l Hl IH Hy]; [done|].
    cbn. rewrite IH. destruct l as [|z l]; [done|]. cbn.
    apply Forall_cons in Hy as [Hyz _].
    destruct (before ascending z y) eqn:E; [|done].
    exfalso. revert Hyz E. unfold inOrder, before. destruct ascending; lia.
Qed.

(** *** Filtering *)

Lemma insertSorted_head ascending x l :
  Forall (fun z => before ascending z x = false) l ->
  insertSorted ascending x l = x :: l.
Proof. destruct 1 as [|z l Hz _]; cbn; [done|]. by rewrite Hz. Qed.

Lemma filter_insertSorted (f : NormalizedEvent -> bool) ascending x l :
  StronglySorted (inOrder ascending) l ->
  List.filter f (insertSorted ascending x l)
  = if f x then insertSorted ascending x (List.filter f l) else List.filter f l.
Proof.
  induction 1 as [|y l Hl IH Hy]; cbn [insertSorted List.filter].
  - by destruct (f x).
  - destruct (before ascending y x) eqn:E; cbn [List.filter]; rewrite ?IH.
    + destruct (f y), (f x); cbn [insertSorted]; rewrite ?E; done.
    + destruct (f x) eqn:Ex, (f y) eqn:Ey; cbn [insertSorted]; rewrite ?E; try done.
      symmetry. apply insertSorted_head.
      apply not_before_inOrder in E.
      clear -Hy E. induction Hy as [|z l Hz _ IHl]; cbn; [constructor|].
      destruct (f z); [|exact IHl]. constructor; [|exact IHl].
      pose proof (inOrder_trans _ _ _ _ E Hz) as Hxz. clear -Hxz.
      revert Hxz. unfold inOrder, before. destruct ascending; lia.
Qed.

Lemma filter_sortByTimestamp (f : NormalizedEvent -> bool) events ascending :
  List.filter f (sortByTimestamp events ascending)
  = sortByTimestamp (List.filter f events) ascending.
Proof.
  induction events as [|x l IH]; [done|]. cbn [sortByTimestamp List.filter].
  rewrite filter_insertSorted.
  - rewrite IH. by destruct (f x).
  - clear. induction l as [|y l IHl]; cbn; [constructor|].
    by apply insertSorted_sorted.
Qed.

(** Filtering and sorting can be done in either order: filtering the
    sorted events by type or by address gives the sorted filtered events,
    and the two filters commute. An event passes the address filter
    exactly when the address is its sender, its receiver or its fee
    payer, so an event without receiver is still found by its sender. *)
Theorem filters_commute_with_sorting :
  forall (events : list NormalizedEvent) (ascending : bool) (type : EventType)
         (address : string),
    filterByType (sortByTimestamp events ascending) type
    = sortByTimestamp (filterByType events type) ascending
    /\ filterByAddress (sortByTimestamp events ascending) address
       = sortByTimestamp (filterByAddress events address) ascending
    /\ filterByType (filterByAddress events address) type
       = filterByAddress (filterByType events type) address
    /\ (forall event,
          In event (filterByAddress (filterByType events type) address)
          <-> In event events /\ ne_type event = type
              /\ (ne_from event = address \/ ne_to event = Some address
                  \/ ne_feePayerAddress event = address)).
Proof.
  intros events ascending type address. unfold filterByType, filterByAddress.
  conjuncts.
  - apply filter_sortByTimestamp.
  - apply filter_sortByTimestamp.
  - induction events as [|x l IH]; [done|]. cbn [List.filter].
    destruct (_ || _) eqn:E1, (bool_decide _) eqn:E2; cbn [List.filter];
      rewrite ?E1, ?E2, IH; done.
  - intros event. rewrite !filter_In, bool_decide_eq_true, !orb_true_iff.
    unfold to_is. rewrite !String.eqb_eq.
    destruct (ne_to event) as [t|]; rewrite ?String.eqb_eq;
      intuition congruence.
Qed.

End EventNormalizerLaws.

(** ** Risk engine: range of the score and the extreme levels *)

Module RiskEngineLaws.
Import RiskEngine RiskEngineSpec RiskEngineVocabulary.

Local Open Scope float_scope.

#[local] Ltac conjuncts :=
  repeat match goal with |- _ /\ _ => split end.

Lemma evaluateAmount_cases a :
  exists v,
    evaluateAmount (Some a) = Some (amountFactor v a)
    /\ ((v = 0.8 /\ largeAmount a = true)
        \/ ((v = 0.1 \/ v = 0.5) /\ largeAmount a = false)).
Proof.
  unfold evaluateAmount, largeAmount, amountFactor.
  destruct (PrimFloat.eqb a 0); cbn [negb andb].
  { exists 0.1. split; [done|]. right. by split; [left|]. }
  destruct (PrimFloat.ltb MAX_SAFE_AMOUNT a).
  { exists 0.8. split; [done|]. by left. }
  destruct (PrimFloat.ltb (MAX_SAFE_AMOUNT * 0.5) a).
  - exists 0.5. split; [done|]. right. by split; [right|].
  - exists 0.1. split; [done|]. right. by split; [left|].
Qed.

Lemma evaluateProgram_cases p :
  (evaluateProgram p = None /\ p = "")
  \/ exists v,
       evaluateProgram p = Some (programFactor v p)
       /\ Js.truthy_string p = true
       /\ ((v = 0.7 /\ Js.toLowerCase p = "unknown")
           \/ (v = 0.2 /\ Js.toLowerCase p <> "unknown")).
Proof.
  unfold evaluateProgram, programFactor.
  destruct p as [|c p]; [by left|]. right.
  cbn [Js.truthy_string negb SUSPICIOUS_PROGRAMS Set_has existsb].
  destruct (String.eqb_spec (Js.toLowerCase (String c p)) "unknown") as [E|E].
  - exists 0.7. conjuncts; [done|done|]. by left.
  - exists 0.2. conjuncts; [done|done|]. by right.
Qed.

Lemma evaluateEventType_cases ty :
  exists v,
    evaluateEventType ty = eventTypeFactor v ty
    /\ ((v = 0.8 /\ Js.toLowerCase ty = "flash_loan")
        \/ (v = 0.2 /\ Js.toLowerCase ty = "transfer")
        \/ ((v = 0.3 \/ v = 0.6 \/ v = 0.5)
            /\ Js.toLowerCase ty <> "flash_loan"
            /\ Js.toLowerCase ty <> "transfer")).
Proof.
  unfold evaluateEventType, eventTypeFactor.
  destruct (String.eqb_spec (Js.toLowerCase ty) "transfer") as [E1|E1].
  { exists 0.2. split; [done|]. right. left. done. }
  destruct (String.eqb_spec (Js.toLowerCase ty) "swap") as [E2|E2].
  { exists 0.3. split; [done|]. right. right. rewrite E2. conjuncts; [by left|done|done]. }
  destruct (String.eqb_spec (Js.toLowerCase ty) "liquidation") as [E3|E3].
  { exists 0.6. split; [done|]. right. right. rewrite E3.
    conjuncts; [right; by left|done|done]. }
  destruct (String.eqb_spec (Js.toLowerCase ty) "flash_loan") as [E4|E4].
  { exists 0.8. split; [done|]. by left. }
  destruct (String.eqb_spec (Js.toLowerCase ty) "unknown") as [E5|E5].
  - exists 0.5. split; [done|]. right. right. conjuncts; [right; by right|done|done].
  - exists 0.3. split; [done|]. right. right. conjuncts; [by left|done|done].
Qed.

(** Whatever the event, the score lies between 0.15 and 0.81, so the
    clamp to [0, 1] never acts; there are three factors when a program
    id is given and two when it is absent or empty. The level is
    CRITICAL exactly for a flash loan of a large amount without program
    id, and MINIMAL only for a transfer whose amount is not large and
    whose program is not "unknown". *)
Theorem score_range_and_extreme_levels :
  forall (now : string) (eventData : EventData),
    let r := evaluateEvent now eventData in
    PrimFloat.leb 0.15 (score r) = true
    /\ PrimFloat.leb (score r) 0.81 = true
    /\ length (factors r)
       = (if Js.truthy_string (programOf eventData) then 3%nat else 2%nat)
    /\ (level r = CRITICAL <->
        programOf eventData = ""
        /\ largeAmount (amountOf eventData) = true
        /\ Js.toLowerCase (eventType eventData) = "flash_loan")
    /\ (level r = MINIMAL ->
        Js.toLowerCase (eventType eventData) = "transfer"
        /\ largeAmount (amountOf eventData) = false
        /\ Js.toLowerCase (programOf eventData) <> "unknown").
Proof.
  intros now eventData r. subst r. unfold evaluateEvent.
  fold (amountOf eventData) (programOf eventData).
  generalize (amountOf eventData) (programOf eventData) (eventType eventData).
  intros a p ty.
  destruct (evaluateAmount_cases a) as (va & -> & Ha).
  destruct (evaluateEventType_cases ty) as (ve & -> & Hve).
  destruct (evaluateProgram_cases p) as [[-> ->]|(vp & -> & Hp & Hvp)].
  - destruct Ha as [[-> Ha]|[[-> | ->] Ha]];
      destruct Hve as [[-> Hty]|[[-> Hty]|[[-> |[-> | ->]] [Hty Hty']]]];
      (conjuncts;
       [ by vm_compute
       | by vm_compute
       | by vm_compute
       | split;
         [ intros H; vm_compute in H;
           first [discriminate H | by conjuncts]
         | intros (_ & H2 & H3);
           first [congruence | by vm_compute] ]
       | intros H; vm_compute in H;
         first [discriminate H | by conjuncts] ]).
  - rewrite Hp.
    destruct Ha as [[-> Ha]|[[-> | ->] Ha]];
      destruct Hve as [[-> Hty]|[[-> Hty]|[[-> |[-> | ->]] [Hty Hty']]]];
      destruct Hvp as [[-> Hpl]|[-> Hpl]];
      (conjuncts;
       [ by vm_compute
       | by vm_compute
       | by vm_compute
       | split;
         [ intros H; vm_compute in H; discriminate H
         | intros (H1 & _); rewrite H1 in Hp; discriminate Hp ]
       | intros H; vm_compute in H;
         first [discriminate H | by conjuncts] ]).
Qed.

Lemma toLowerCase_truthy s : Js.truthy_string (Js.toLowerCase s) = Js.truthy_string s.
Proof.
  destruct s as [|c [|c2 [|c3 s3]]]; cbn -[Js.is_byte]; try done;
    repeat match goal with
           | |- context [if ?b then _ else _] => destruct b
           end; done.
Qed.

(** The score, the level and the values of the factors depend on the
    amount, on the program id and on the event type only, and on the
    last two only up to the case of their letters: signature, event
    timestamp, sender, receiver and the time of the evaluation play no
    part. *)
Theorem score_depends_on_three_inputs_up_to_case :
  forall (now now' : string) (e1 e2 : EventData),
    amountOf e1 = amountOf e2 ->
    Js.toLowerCase (programOf e1) = Js.toLowerCase (programOf e2) ->
    Js.toLowerCase (eventType e1) = Js.toLowerCase (eventType e2) ->
    let r1 := evaluateEvent now e1 in
    let r2 := evaluateEvent now' e2 in
    score r1 = score r2
    /\ level r1 = level r2
    /\ map value (factors r1) = map value (factors r2)
    /\ map name (factors r1) = map name (factors r2).
Proof.
  intros now now' e1 e2 Ha Hp Hty r1 r2. subst r1 r2. unfold evaluateEvent.
  fold (amountOf e1) (amountOf e2) (programOf e1) (programOf e2).
  rewrite Ha. pose proof (f_equal Js.truthy_string Hp) as Htr.
  rewrite !toLowerCase_truthy in Htr. revert Hp Hty Htr.
  generalize (amountOf e2) (programOf e1) (programOf e2) (eventType e1)
    (eventType e2).
  intros a p1 p2 ty1 ty2 Hp Hty Htr.
  unfold evaluateAmount, evaluateProgram, evaluateEventType.
  rewrite Hp, Hty, Htr.
  cbn [SUSPICIOUS_PROGRAMS Set_has existsb].
  destruct (Js.truthy_string p2); cbn [negb];
    (destruct (PrimFloat.eqb a 0);
     [|destruct (PrimFloat.ltb MAX_SAFE_AMOUNT a);
       [|destruct (PrimFloat.ltb (MAX_SAFE_AMOUNT * 0.5) a)]]);
    destruct (String.eqb (Js.toLowerCase p2) "unknown");
    (destruct (String.eqb (Js.toLowerCase ty2) "transfer");
     [|destruct (String.eqb (Js.toLowerCase ty2) "swap");
       [|destruct (String.eqb (Js.toLowerCase ty2) "liquidation");
         [|destruct (String.eqb (Js.toLowerCase ty2) "flash_loan");
           [|destruct (String.eqb (Js.toLowerCase ty2) "unknown")]]]]);
    conjuncts; vm_compute; reflexivity.
Qed.

Lemma score_depends_on_three_inputs_up_to_case_witness :
  let e1 :=
    {| signature := "s1"; ev_timestamp := 1; amount := Some 2000000000;
       programId := Some "Unknown"; eventType := "Flash_Loan";
       sender := Some "Alice"; receiver := None |} in
  let e2 :=
    {| signature := "s2"; ev_timestamp := 2; amount := Some 2000000000;
       programId := Some "UNKNOWN"; eventType := "FLASH_LOAN";
       sender := None; receiver := Some "Bob" |} in
  score (evaluateEvent "t1" e1) = score (evaluateEvent "t2" e2)
  /\ level (evaluateEvent "t1" e1) = HIGH.
Proof.
  intros e1 e2.
  destruct (score_depends_on_three_inputs_up_to_case "t1" "t2" e1 e2
              eq_refl eq_refl eq_refl) as (Hs & _).
  split; [exact Hs|]. vm_compute. reflexivity.
Defined.

End RiskEngineLaws.
